(** * unicef_jobs.py: the filter of the UNICEF vacancies feed

    A shallow embedding of [unicef_jobs.py] and the properties of its
    classification engine, identifiers, date handling and truncation.

    Python strings are sequences of Unicode code points: a [str] is a
    list of code points, each a [Z].  The interpreter's Unicode tables
    (upper-casing, decimal digits, alphanumerics) are not part of the
    program; they are a parameter, a [UCD], of everything that consults
    them. *)

From Stdlib Require Import ZArith List Bool Lia Ascii Arith.
From Stdlib Require Import Sorting.Sorted Sorting.Permutation.
From Stdlib Require String DecimalString.
Import ListNotations String.StringSyntax.

Delimit Scope string_scope with string.
Open Scope Z_scope.

(** ** Strings *)

Definition str := list Z.

(** An ASCII literal as code points. *)
Definition lit (s : String.string) : str :=
  map (fun a => Z.of_N (N_of_ascii a)) (String.list_ascii_of_string s).
Arguments lit s%_string.

Fixpoint str_eqb (a b : str) : bool :=
  match a, b with
  | [], [] => true
  | x :: a', y :: b' => (x =? y) && str_eqb a' b'
  | _, _ => false
  end.

(** [s.startswith(p)] *)
Fixpoint startswith (s p : str) : bool :=
  match p, s with
  | [], _ => true
  | x :: p', y :: s' => (x =? y) && startswith s' p'
  | _ :: _, [] => false
  end.

(** [kw in text], substring containment. *)
Fixpoint contains (text kw : str) : bool :=
  startswith text kw ||
  match text with
  | [] => false
  | _ :: text' => contains text' kw
  end.

(** [g in {...}] for a set of strings. *)
Definition mem (g : str) (set : list str) : bool := existsb (str_eqb g) set.

(** [sep.join(parts)] *)
Fixpoint join (sep : str) (parts : list str) : str :=
  match parts with
  | [] => []
  | [p] => p
  | p :: rest => p ++ sep ++ join sep rest
  end.

(** The code points for which [str.isspace] holds; [\s] of [re] on a
    [str] pattern and [str.strip()] use the same set. *)
Definition is_space (c : Z) : bool :=
  ((0x09 <=? c) && (c <=? 0x0D)) || ((0x1C <=? c) && (c <=? 0x20)) ||
  (c =? 0x85) || (c =? 0xA0) || (c =? 0x1680) ||
  ((0x2000 <=? c) && (c <=? 0x200A)) ||
  (c =? 0x2028) || (c =? 0x2029) || (c =? 0x202F) || (c =? 0x205F) ||
  (c =? 0x3000).

Fixpoint drop_while (p : Z -> bool) (s : str) : str :=
  match s with
  | c :: s' => if p c then drop_while p s' else s
  | [] => []
  end.

(** [s.lstrip()] *)
Definition lstrip (s : str) : str := drop_while is_space s.

(** [s.strip()] *)
Definition strip (s : str) : str := rev (lstrip (rev (lstrip s))).

(** ** The interpreter's Unicode tables *)

Record UCD := {
  to_upper : Z -> str;      (* full upper-case mapping of one code point *)
  is_decimal : Z -> bool;   (* category Nd: [\d] *)
  is_alnum : Z -> bool      (* [str.isalnum] of one code point *)
}.

Definition ascii_upper (c : Z) : Z :=
  if (0x61 <=? c) && (c <=? 0x7A) then c - 32 else c.

Definition ascii_digit (c : Z) : bool := (0x30 <=? c) && (c <=? 0x39).

Definition ascii_alnum (c : Z) : bool :=
  ascii_digit c || ((0x41 <=? c) && (c <=? 0x5A)) || ((0x61 <=? c) && (c <=? 0x7A)).

(** What the development relies on, of the tables: they are the ASCII
    ones on ASCII, upper-casing produces characters that upper-casing
    leaves alone, and a decimal digit is alphanumeric. *)
Record UCD_laws (u : UCD) : Prop := {
  upper_ascii : forall c, 0 <= c < 128 -> to_upper u c = [ascii_upper c];
  upper_fixed : forall c d, In d (to_upper u c) -> to_upper u d = [d];
  decimal_ascii : forall c, 0 <= c < 128 -> is_decimal u c = ascii_digit c;
  alnum_ascii : forall c, 0 <= c < 128 -> is_alnum u c = ascii_alnum c;
  decimal_alnum : forall c, is_decimal u c = true -> is_alnum u c = true
}.

(** The tables on U+0000..U+00FF; a code point beyond is taken as
    caseless punctuation, which the dashes and spaces of General
    Punctuation are. *)
Definition latin1_upper (c : Z) : str :=
  if c <? 128 then [ascii_upper c]
  else if c =? 0xB5 then [0x39C]
  else if c =? 0xDF then [0x53; 0x53]
  else if c =? 0xFF then [0x178]
  else if (0xE0 <=? c) && (c <=? 0xFE) && negb (c =? 0xF7) then [c - 32]
  else [c].

Definition latin1_alnum (c : Z) : bool :=
  if c <? 128 then ascii_alnum c
  else (c =? 0xAA) || (c =? 0xB2) || (c =? 0xB3) || (c =? 0xB5) || (c =? 0xB9) ||
       (c =? 0xBA) || ((0xBC <=? c) && (c <=? 0xBE)) ||
       ((0xC0 <=? c) && (c <=? 0xFF) && negb (c =? 0xD7) && negb (c =? 0xF7)).

Definition latin1 : UCD := {|
  to_upper := latin1_upper;
  is_decimal := ascii_digit;
  is_alnum := latin1_alnum
|}.

(** ** Regular expressions, as [re] matches them

    A backtracking matcher in continuation-passing style: alternatives
    are tried left to right, [+] is greedy, and the first success is the
    match.  A position is the previous character (for [\b]) and the
    remaining text. *)

Module Re.

Inductive regex :=
| Eps                               (* the empty pattern *)
| Chr (c : Z)                       (* a literal character *)
| Cls (p : Z -> bool)               (* a class: [...], \d, \s *)
| WordB                             (* \b *)
| Cat (r1 r2 : regex)
| Or (r1 r2 : regex)                (* r1|r2 *)
| Plus (p : Z -> bool)              (* c+ for a class c, greedy *)
| Group (i : nat) (r : regex).      (* the i-th capturing group *)

(** Captured groups, by number. *)
Definition caps := nat -> str.
Definition no_caps : caps := fun _ => [].
Definition set_cap (i : nat) (v : str) (cs : caps) : caps :=
  fun j => if Nat.eqb i j then v else cs j.

Definition kont := caps -> option Z -> str -> option (caps * str).

Section Matcher.

Variable is_word : Z -> bool.

Definition word_at (c : option Z) : bool :=
  match c with Some x => is_word x | None => false end.

Fixpoint plus_loop (p : Z -> bool) (k : kont) (cs : caps) (prev : option Z) (s : str)
  : option (caps * str) :=
  match s with
  | x :: s' =>
      if p x then
        match plus_loop p k cs (Some x) s' with
        | Some res => Some res
        | None => k cs (Some x) s'
        end
      else None
  | [] => None
  end.

Fixpoint rmatch (r : regex) (k : kont) (cs : caps) (prev : option Z) (s : str)
  : option (caps * str) :=
  match r with
  | Eps => k cs prev s
  | Chr c =>
      match s with
      | x :: s' => if x =? c then k cs (Some x) s' else None
      | [] => None
      end
  | Cls p =>
      match s with
      | x :: s' => if p x then k cs (Some x) s' else None
      | [] => None
      end
  | WordB =>
      if xorb (word_at prev) (word_at (hd_error s)) then k cs prev s else None
  | Cat r1 r2 => rmatch r1 (rmatch r2 k) cs prev s
  | Or r1 r2 =>
      match rmatch r1 k cs prev s with
      | Some res => Some res
      | None => rmatch r2 k cs prev s
      end
  | Plus p => plus_loop p k cs prev s
  | Group i r =>
      rmatch r (fun cs' prev' s' =>
                  k (set_cap i (firstn (length s - length s')%nat s) cs') prev' s')
             cs prev s
  end.

(** A match of [r] starting at this position: the groups and the number
    of characters matched. *)
Definition match_at (r : regex) (prev : option Z) (s : str) : option (caps * nat) :=
  match rmatch r (fun cs _ s' => Some (cs, s')) no_caps prev s with
  | Some (cs, s') => Some (cs, (length s - length s')%nat)
  | None => None
  end.

(** [re.sub]: scan left to right; where [r] matches, the replacement
    stands for the match and the scan resumes after it ([skip] counts
    the characters of the match still to pass). *)
Fixpoint sub_scan (r : regex) (repl : caps -> str) (prev : option Z) (s : str)
  (skip : nat) : str :=
  match s with
  | [] => []
  | c :: s' =>
      match skip with
      | S n => sub_scan r repl (Some c) s' n
      | O =>
          match match_at r prev s with
          | Some (cs, S n) => repl cs ++ sub_scan r repl (Some c) s' n
          | Some (cs, O) => repl cs ++ c :: sub_scan r repl (Some c) s' O
          | None => c :: sub_scan r repl (Some c) s' O
          end
      end
  end.

Definition sub (r : regex) (repl : caps -> str) (text : str) : str :=
  sub_scan r repl None text O.

(** [re.findall] for a pattern without capturing groups: the matched
    texts, left to right, not overlapping. *)
Fixpoint findall_scan (r : regex) (prev : option Z) (s : str) (skip : nat) : list str :=
  match s with
  | [] => []
  | c :: s' =>
      match skip with
      | S n => findall_scan r (Some c) s' n
      | O =>
          match match_at r prev s with
          | Some (_, n) => firstn n s :: findall_scan r (Some c) s' (n - 1)
          | None => findall_scan r (Some c) s' O
          end
      end
  end.

Definition findall (r : regex) (text : str) : list str :=
  findall_scan r None text O.

End Matcher.

(** A literal word, and an alternation [r1|r2|...]. *)
Definition text (w : str) : regex := fold_right (fun c r => Cat (Chr c) r) Eps w.

Fixpoint alt (rs : list regex) : regex :=
  match rs with
  | [] => Cls (fun _ => false)
  | [r] => r
  | r :: rs' => Or r (alt rs')
  end.

End Re.

(** ** Configuration *)

Definition MAX_ITEMS : nat := 50.

Definition CONSULTANCY_KEYWORDS : list str := [
  lit "CONSULTANT";
  lit "CONSULTANCY";
  lit "INDIVIDUAL CONTRACTOR";
  lit "CONTRACTOR AGREEMENT";
  lit "ICA ";
  lit " ICA";
  lit " IICA ";
  lit " IICA";
  lit "IICA "
].

(** U+00CD and U+00C1 are the accented capitals of PASANTIA and
    PRACTICA. *)
Definition INTERNSHIP_KEYWORDS : list str := [
  lit "INTERN ";
  lit " INTERN";
  lit "INTERNSHIP";
  lit "FELLOWSHIP";
  lit "FELLOW ";
  lit " FELLOW";
  lit "PASANT" ++ [0xCD] ++ lit "A";
  lit "PASANTIA";
  lit "PR" ++ [0xC1] ++ lit "CTICA";
  lit "PRACTICA"
].

Definition INCLUDED_GRADES : list str :=
  [lit "P-1"; lit "P-2"; lit "P-3"; lit "P-4"; lit "P-5"; lit "D-1"; lit "D-2"].

Definition EXCLUDED_GRADE_PREFIXES : list str :=
  [lit "G-"; lit "GS-"; lit "NO-"; lit "SB-"; lit "LSC-"].

Definition EXCLUDED_NO_VARIANTS : list str :=
  [lit "NOA"; lit "NOB"; lit "NOC"; lit "NOD";
   lit "NO-A"; lit "NO-B"; lit "NO-C"; lit "NO-D"].

(** ** Helper functions *)

(** The dashes of [normalize]'s character class. *)
Definition is_dash (c : Z) : bool :=
  existsb (Z.eqb c)
    [0x2010; 0x2011; 0x2012; 0x2013; 0x2014; 0x2015; 0x2212; 0xFE58; 0xFE63; 0xFF0D].

Definition is_A_to_D (c : Z) : bool := (0x41 <=? c) && (c <=? 0x44).

Section Helpers.

Variable u : UCD.

(** [\w] of a [str] pattern: alphanumeric or underscore. *)
Definition is_word (c : Z) : bool := is_alnum u c || (c =? 0x5F).

(** [text.upper()] *)
Definition upper (text : str) : str := flat_map (to_upper u) text.

Definition normalize (text : str) : str :=
  let text := upper text in
  let text := Re.sub is_word (Re.Cls is_dash) (fun _ => lit "-") text in
  let text := strip (Re.sub is_word (Re.Plus is_space) (fun _ => lit " ") text) in
  text.

(** The template [\1-\2]. *)
Definition hyphenate (cs : Re.caps) : str := cs 1%nat ++ lit "-" ++ cs 2%nat.

Definition two_letter_grade : Re.regex :=
  Re.Cat Re.WordB
    (Re.Cat (Re.Group 1 (Re.alt (map Re.text
               [lit "GS"; lit "NO"; lit "SB"; lit "LS"; lit "LSC"])))
       (Re.Cat (Re.Group 2 (Re.Cls (is_decimal u))) Re.WordB)).

Definition one_letter_grade : Re.regex :=
  Re.Cat Re.WordB
    (Re.Cat (Re.Group 1 (Re.Cls (fun c => mem [c] [lit "P"; lit "D"; lit "G"])))
       (Re.Cat (Re.Group 2 (Re.Cls (is_decimal u))) Re.WordB)).

Definition normalize_grade (text : str) : str :=
  let text := Re.sub is_word two_letter_grade hyphenate text in
  let text := Re.sub is_word one_letter_grade hyphenate text in
  text.

Definition numbered_grade : Re.regex :=
  Re.Cat Re.WordB
    (Re.Cat (Re.alt (map Re.text
               [lit "P"; lit "D"; lit "G"; lit "GS"; lit "NO"; lit "SB"; lit "LSC"; lit "LS"]))
       (Re.Cat (Re.Chr 0x2D) (Re.Cat (Re.Plus (is_decimal u)) Re.WordB))).

Definition lettered_grade : Re.regex :=
  Re.Cat Re.WordB
    (Re.Cat (Re.Or (Re.Cat (Re.text (lit "NO-")) (Re.Cls is_A_to_D))
                   (Re.Cat (Re.text (lit "NO")) (Re.Cls is_A_to_D)))
       Re.WordB).

Definition extract_grades (text : str) : list str :=
  let grades := Re.findall is_word numbered_grade text in
  let grades := grades ++ Re.findall is_word lettered_grade text in
  grades.

Definition has_keyword (text : str) (keywords : list str) : bool :=
  existsb (contains text) keywords.

Inductive action := include | exclude.

Inductive reason :=
| consultancy | excluded_grade | included_grade | internship | no_grade_match.

Definition is_excluded_grade (g : str) : bool :=
  mem g EXCLUDED_NO_VARIANTS || existsb (startswith g) EXCLUDED_GRADE_PREFIXES.

Definition classify_item (searchable_text : str) : action * reason :=
  let norm := normalize searchable_text in
  let norm_graded := normalize_grade norm in
  if has_keyword norm CONSULTANCY_KEYWORDS then (exclude, consultancy)
  else
    let grades := extract_grades norm_graded in
    if existsb is_excluded_grade grades then (exclude, excluded_grade)
    else if existsb (fun g => mem g INCLUDED_GRADES) grades then (include, included_grade)
    else if has_keyword norm INTERNSHIP_KEYWORDS then (include, internship)
    else (exclude, no_grade_match).

End Helpers.

(** ** Exceptions

    A call of Python returns a value or raises; every exception the
    program meets is a subclass of [Exception]. *)

Inductive exn := ValueError | TypeError | UnicodeEncodeError | OtherException.

Inductive outcome (A : Type) :=
| Returns (a : A)
| Raises (e : exn).
Arguments Returns {A} a.
Arguments Raises {A} e.

Definition bind {A B} (m : outcome A) (f : A -> outcome B) : outcome B :=
  match m with
  | Returns a => f a
  | Raises e => Raises e
  end.

Notation "x <- m ;; f" := (bind m (fun x => f))
  (at level 61, m at next level, right associativity).

(** ** MD5, as [hashlib.md5(data).hexdigest()] computes it (RFC 1321) *)

Module MD5.

Definition mask32 (x : Z) : Z := Z.land x 0xFFFFFFFF.

Definition rotl32 (x c : Z) : Z :=
  mask32 (Z.lor (Z.shiftl x c) (Z.shiftr x (32 - c))).

Definition K : list Z := [
  0xd76aa478; 0xe8c7b756; 0x242070db; 0xc1bdceee;
  0xf57c0faf; 0x4787c62a; 0xa8304613; 0xfd469501;
  0x698098d8; 0x8b44f7af; 0xffff5bb1; 0x895cd7be;
  0x6b901122; 0xfd987193; 0xa679438e; 0x49b40821;
  0xf61e2562; 0xc040b340; 0x265e5a51; 0xe9b6c7aa;
  0xd62f105d; 0x02441453; 0xd8a1e681; 0xe7d3fbc8;
  0x21e1cde6; 0xc33707d6; 0xf4d50d87; 0x455a14ed;
  0xa9e3e905; 0xfcefa3f8; 0x676f02d9; 0x8d2a4c8a;
  0xfffa3942; 0x8771f681; 0x6d9d6122; 0xfde5380c;
  0xa4beea44; 0x4bdecfa9; 0xf6bb4b60; 0xbebfbc70;
  0x289b7ec6; 0xeaa127fa; 0xd4ef3085; 0x04881d05;
  0xd9d4d039; 0xe6db99e5; 0x1fa27cf8; 0xc4ac5665;
  0xf4292244; 0x432aff97; 0xab9423a7; 0xfc93a039;
  0x655b59c3; 0x8f0ccc92; 0xffeff47d; 0x85845dd1;
  0x6fa87e4f; 0xfe2ce6e0; 0xa3014314; 0x4e0811a1;
  0xf7537e82; 0xbd3af235; 0x2ad7d2bb; 0xeb86d391
].

Definition shifts : list Z :=
  [7; 12; 17; 22; 7; 12; 17; 22; 7; 12; 17; 22; 7; 12; 17; 22;
   5; 9; 14; 20; 5; 9; 14; 20; 5; 9; 14; 20; 5; 9; 14; 20;
   4; 11; 16; 23; 4; 11; 16; 23; 4; 11; 16; 23; 4; 11; 16; 23;
   6; 10; 15; 21; 6; 10; 15; 21; 6; 10; 15; 21; 6; 10; 15; 21].

(** Little-endian bytes of a number, and back. *)
Fixpoint le_bytes (n : nat) (x : Z) : list Z :=
  match n with
  | O => []
  | S n' => Z.land x 0xFF :: le_bytes n' (Z.shiftr x 8)
  end.

Definition le_word (bs : list Z) : Z :=
  fold_right (fun b acc => b + 256 * acc) 0 bs.

Fixpoint words (n : nat) (bs : list Z) : list Z :=
  match n with
  | O => []
  | S n' => le_word (firstn 4 bs) :: words n' (skipn 4 bs)
  end.

Definition pad (msg : list Z) : list Z :=
  let len := Z.of_nat (length msg) in
  let zeros := Z.to_nat ((55 - len) mod 64) in
  msg ++ [0x80] ++ repeat 0 zeros ++ le_bytes 8 (Z.land (8 * len) 0xFFFFFFFFFFFFFFFF).

Definition state := (Z * Z * Z * Z)%type.

Definition round (M : list Z) (st : state) (i : Z) : state :=
  let '(A, B, C, D) := st in
  let nB := Z.lxor B 0xFFFFFFFF in
  let nD := Z.lxor D 0xFFFFFFFF in
  let '(F, g) :=
    if i <? 16 then (Z.lor (Z.land B C) (Z.land nB D), i)
    else if i <? 32 then (Z.lor (Z.land D B) (Z.land nD C), (5 * i + 1) mod 16)
    else if i <? 48 then (Z.lxor (Z.lxor B C) D, (3 * i + 5) mod 16)
    else (Z.lxor C (Z.lor B nD), (7 * i) mod 16) in
  let F := mask32 (F + A + nth (Z.to_nat i) K 0 + nth (Z.to_nat g) M 0) in
  (D, mask32 (B + rotl32 F (nth (Z.to_nat i) shifts 0)), B, C).

Definition block (st : state) (chunk : list Z) : state :=
  let '(a0, b0, c0, d0) := st in
  let '(A, B, C, D) :=
    fold_left (round (words 16 chunk)) (map Z.of_nat (seq 0 64)) st in
  (mask32 (a0 + A), mask32 (b0 + B), mask32 (c0 + C), mask32 (d0 + D)).

Fixpoint blocks (n : nat) (st : state) (bs : list Z) : state :=
  match n with
  | O => st
  | S n' => blocks n' (block st (firstn 64 bs)) (skipn 64 bs)
  end.

(** The 16 bytes of the digest. *)
Definition digest (msg : list Z) : list Z :=
  let p := pad msg in
  let '(a, b, c, d) :=
    blocks (length p / 64) (0x67452301, 0xefcdab89, 0x98badcfe, 0x10325476) p in
  le_bytes 4 a ++ le_bytes 4 b ++ le_bytes 4 c ++ le_bytes 4 d.

Definition hex_char (n : Z) : Z := if n <? 10 then 0x30 + n else 0x61 + n - 10.

Definition hexdigest (msg : list Z) : str :=
  flat_map (fun b => [hex_char (b / 16); hex_char (b mod 16)]) (digest msg).

End MD5.

(** [int(s, 16)] on a string of hexadecimal digits. *)
Definition hex_value (c : Z) : Z :=
  if ascii_digit c then c - 0x30
  else if (0x61 <=? c) && (c <=? 0x66) then c - 0x61 + 10
  else c - 0x41 + 10.

Definition int_base16 (s : str) : N :=
  fold_left (fun acc c => (16 * acc + Z.to_N (hex_value c))%N) s 0%N.

(** [str(n)] for a natural number. *)
Fixpoint uint_chars (d : Decimal.uint) : str :=
  match d with
  | Decimal.Nil => []
  | Decimal.D0 d' => 0x30 :: uint_chars d'
  | Decimal.D1 d' => 0x31 :: uint_chars d'
  | Decimal.D2 d' => 0x32 :: uint_chars d'
  | Decimal.D3 d' => 0x33 :: uint_chars d'
  | Decimal.D4 d' => 0x34 :: uint_chars d'
  | Decimal.D5 d' => 0x35 :: uint_chars d'
  | Decimal.D6 d' => 0x36 :: uint_chars d'
  | Decimal.D7 d' => 0x37 :: uint_chars d'
  | Decimal.D8 d' => 0x38 :: uint_chars d'
  | Decimal.D9 d' => 0x39 :: uint_chars d'
  end.

Definition str_of_int (n : N) : str := uint_chars (N.to_uint n).

(** [s.ljust(width, fill)] *)
Definition ljust (width : nat) (fill : Z) (s : str) : str :=
  s ++ repeat fill (width - length s).

(** [s.encode("utf-8")]; a surrogate has no encoding. *)
Definition utf8_char (c : Z) : outcome (list Z) :=
  if c <? 0x80 then Returns [c]
  else if c <? 0x800 then
    Returns [Z.lor 0xC0 (Z.shiftr c 6); Z.lor 0x80 (Z.land c 0x3F)]
  else if (0xD800 <=? c) && (c <=? 0xDFFF) then Raises UnicodeEncodeError
  else if c <? 0x10000 then
    Returns [Z.lor 0xE0 (Z.shiftr c 12); Z.lor 0x80 (Z.land (Z.shiftr c 6) 0x3F);
             Z.lor 0x80 (Z.land c 0x3F)]
  else
    Returns [Z.lor 0xF0 (Z.shiftr c 18); Z.lor 0x80 (Z.land (Z.shiftr c 12) 0x3F);
             Z.lor 0x80 (Z.land (Z.shiftr c 6) 0x3F); Z.lor 0x80 (Z.land c 0x3F)].

Fixpoint encode_utf8 (s : str) : outcome (list Z) :=
  match s with
  | [] => Returns []
  | c :: s' =>
      bs <- utf8_char c ;;
      rest <- encode_utf8 s' ;;
      Returns (bs ++ rest)
  end.

Definition stable_guid (link : str) : outcome str :=
  data <- encode_utf8 link ;;
  let digest := MD5.hexdigest data in
  let numeric := str_of_int (int_base16 digest) in
  Returns (ljust 16 0x30 (firstn 16 numeric)).

(** ** Dates

    A [datetime] is its wall-clock reading (microseconds on the
    proleptic calendar) and its [tzinfo]: [None] for a naive value,
    the offset from UTC otherwise. *)

Record datetime := { wall : Z; tzinfo : option Z }.

Definition aware (d : datetime) : bool :=
  match tzinfo d with Some _ => true | None => false end.

(** [dt.replace(tzinfo=timezone.utc)] *)
Definition replace_tz_utc (d : datetime) : datetime :=
  {| wall := wall d; tzinfo := Some 0 |}.

(** [datetime.now(timezone.utc)] when the clock reads [t]. *)
Definition now_utc (t : Z) : datetime := {| wall := t; tzinfo := Some 0 |}.

(** The instant that order comparisons of two aware, or two naive,
    values compare. *)
Definition instant (d : datetime) : Z :=
  match tzinfo d with
  | Some offset => wall d - offset
  | None => wall d
  end.

(** ** The libraries and the clock

    [email.utils], [datetime.strptime], [BeautifulSoup] and the system
    clock are outside the program. *)

Record World := {
  parsedate_to_datetime : str -> outcome datetime;
  strptime : str -> str -> outcome datetime;
  format_datetime : datetime -> str;
  get_text : str -> outcome str;   (* BeautifulSoup(html, ...).get_text(...) *)
  clock : nat -> Z                 (* the reading while the n-th listing is handled *)
}.

Definition ISO_FORMATS : list str :=
  [lit "%Y-%m-%dT%H:%M:%S%z"; lit "%Y-%m-%dT%H:%M:%SZ"; lit "%Y-%m-%d"].

Section Program.

Variable u : UCD.
Variable w : World.

Definition strip_html (html : str) : outcome str :=
  match html with
  | [] => Returns []
  | _ => get_text w html
  end.

(** The loop over the ISO-8601 formats of [parse_pub_date]. *)
Fixpoint try_formats (date_str : str) (formats : list str) (t : Z) : outcome datetime :=
  match formats with
  | [] => Returns (now_utc t)
  | fmt :: rest =>
      match strptime w (strip date_str) fmt with
      | Returns dt =>
          Returns (match tzinfo dt with
                   | None => replace_tz_utc dt
                   | Some _ => dt
                   end)
      | Raises ValueError => try_formats date_str rest t
      | Raises e => Raises e
      end
  end.

(** [t] is what the clock reads during the call. *)
Definition parse_pub_date (t : Z) (date_str : option str) : outcome datetime :=
  match date_str with
  | Some ((_ :: _) as s) =>
      match parsedate_to_datetime w s with
      | Returns dt => Returns dt
      | Raises _ => try_formats s ISO_FORMATS t
      end
  | _ => Returns (now_utc t)
  end.

(** ** Listings and items *)

Record raw_item := {
  title : str;
  link : str;
  description : str;
  pub_date_str : str;
  categories : list str
}.

Record item := {
  i_title : str;
  i_link : str;
  i_description : str;
  i_guid : str;
  i_pubDate : str;
  i_pub_dt : datetime;
  i_source_url : str;
  i_source_name : str
}.

Definition build_searchable_text (it : raw_item) : outcome str :=
  text <- strip_html (description it) ;;
  let parts := [title it; text] in
  let parts := parts ++ categories it in
  Returns (join (lit " ") parts).

(** ** Main *)

(** [collections.Counter], keys in the order of their first count. *)
Definition counter := list (reason * nat).

Definition reason_eqb (a b : reason) : bool :=
  match a, b with
  | consultancy, consultancy | excluded_grade, excluded_grade
  | included_grade, included_grade | internship, internship
  | no_grade_match, no_grade_match => true
  | _, _ => false
  end.

(** [c[r] += 1] *)
Fixpoint incr (r : reason) (c : counter) : counter :=
  match c with
  | [] => [(r, 1%nat)]
  | (r', n) :: c' => if reason_eqb r r' then (r', S n) :: c' else (r', n) :: incr r c'
  end.

(** [sum(c.values())] *)
Definition sum_values (c : counter) : nat := fold_right (fun e acc => (snd e + acc)%nat) O c.

(** The loop of [main] over the raw listings, from the [n]-th on. *)
Fixpoint filter_items (source_url : str) (raw_items : list raw_item) (n : nat)
  (included_items : list item) (exclusion_reasons : counter)
  : outcome (list item * counter) :=
  match raw_items with
  | [] => Returns (included_items, exclusion_reasons)
  | it :: rest =>
      searchable <- build_searchable_text it ;;
      match classify_item u searchable with
      | (exclude, reason) =>
          filter_items source_url rest (S n) included_items (incr reason exclusion_reasons)
      | (include, _) =>
          pub_dt <- parse_pub_date (clock w n) (Some (pub_date_str it)) ;;
          text <- strip_html (description it) ;;
          guid <- stable_guid (link it) ;;
          filter_items source_url rest (S n)
            (included_items ++
               [{| i_title := title it;
                   i_link := link it;
                   i_description := text;
                   i_guid := guid;
                   i_pubDate := format_datetime w pub_dt;
                   i_pub_dt := pub_dt;
                   i_source_url := source_url;
                   i_source_name := lit "UNICEF Careers RSS" |}])
            exclusion_reasons
      end
  end.

(** [list.sort(key=..., reverse=True)] is stable: among equal keys the
    earlier item stays first.  Insertion from the right builds that
    order. *)
Fixpoint insert_newest (x : item) (sorted : list item) : list item :=
  match sorted with
  | [] => [x]
  | y :: rest =>
      if instant (i_pub_dt y) <=? instant (i_pub_dt x) then x :: sorted
      else y :: insert_newest x rest
  end.

Definition sorted_newest_first (items : list item) : list item :=
  fold_right insert_newest [] items.

(** Ordering a naive against an aware [datetime] raises [TypeError];
    a sort of a list that holds both meets such a pair. *)
Definition same_awareness (items : list item) : bool :=
  match items with
  | [] => true
  | x :: rest => forallb (fun y => Bool.eqb (aware (i_pub_dt y)) (aware (i_pub_dt x))) rest
  end.

Definition sort_newest_first (items : list item) : outcome (list item) :=
  if same_awareness items then Returns (sorted_newest_first items)
  else Raises TypeError.

(** What a run leaves: the items written to the feed, in order, and the
    figures of the summary.  The helper field [pub_dt], which [main]
    deletes before the feed is built, stays in the items here: the
    properties of the order are stated on it. *)
Record run := {
  written : list item;
  total : nat;
  included_count : nat;
  excluded_count : nat;
  exclusion_reasons : counter
}.

(** [main], after the download and the parse of the feed. *)
Definition main (source_url : str) (raw_items : list raw_item) : outcome run :=
  let total := length raw_items in
  res <- filter_items source_url raw_items O [] [] ;;
  let '(included_items, exclusion_reasons) := res in
  included_items <- sort_newest_first included_items ;;
  let included_items := firstn MAX_ITEMS included_items in
  Returns {| written := included_items;
             total := total;
             included_count := length included_items;
             excluded_count := sum_values exclusion_reasons;
             exclusion_reasons := exclusion_reasons |}.

End Program.

(** ** A small world to run the program in

    The two parsers on a handful of date strings, with the values
    CPython gives for them, and [ValueError] elsewhere; text without
    markup for [get_text]; a clock that advances by a second from one
    listing to the next.  [format_datetime] prints the instant in
    decimal, a stand-in for the RFC-2822 text. *)

Definition lookup {A} (key : str) (table : list (str * A)) : outcome A :=
  match find (fun e => str_eqb key (fst e)) table with
  | Some e => Returns (snd e)
  | None => Raises ValueError
  end.

Definition rfc2822_dates : list (str * datetime) := [
  (lit "Mon, 20 Nov 1995 19:12:08 -0000",
   {| wall := 62952491528000000; tzinfo := None |});
  (lit "Mon, 20 Nov 1995 19:12:08",
   {| wall := 62952491528000000; tzinfo := None |});
  (lit "Mon, 20 Nov 1995 19:12:08 +0000",
   {| wall := 62952491528000000; tzinfo := Some 0 |});
  (lit "Mon, 15 Jan 2024 10:00:00 +0100",
   {| wall := 63840909600000000; tzinfo := Some 3600000000 |})
].

(** The directive [%z] reads [Z] as UTC, so the first format takes
    the date that ends in [Z]; the second format would read it without
    a zone. *)
Definition iso_dates : list ((str * str) * datetime) := [
  ((lit "2024-01-15T10:00:00+0100", lit "%Y-%m-%dT%H:%M:%S%z"),
   {| wall := 63840909600000000; tzinfo := Some 3600000000 |});
  ((lit "2024-01-15T10:00:00Z", lit "%Y-%m-%dT%H:%M:%S%z"),
   {| wall := 63840909600000000; tzinfo := Some 0 |});
  ((lit "2024-01-15T10:00:00Z", lit "%Y-%m-%dT%H:%M:%SZ"),
   {| wall := 63840909600000000; tzinfo := None |});
  ((lit "2024-01-15", lit "%Y-%m-%d"),
   {| wall := 63840873600000000; tzinfo := None |})
].

Definition lookup_format (s fmt : str) (table : list ((str * str) * datetime)) :
  outcome datetime :=
  match find (fun e => str_eqb s (fst (fst e)) && str_eqb fmt (snd (fst e))) table with
  | Some e => Returns (snd e)
  | None => Raises ValueError
  end.

Definition demo_world : World := {|
  parsedate_to_datetime := fun s => lookup s rfc2822_dates;
  strptime := fun s fmt => lookup_format s fmt iso_dates;
  format_datetime := fun d => str_of_int (Z.to_N (instant d));
  get_text := fun html => Returns html;
  clock := fun n => 63852796800000000 + 1000000 * Z.of_nat n
|}.

(** The same world with a reader of markup that gives up on a
    description holding the opening of a marked section. *)
Definition strict_world : World := {|
  parsedate_to_datetime := parsedate_to_datetime demo_world;
  strptime := strptime demo_world;
  format_datetime := format_datetime demo_world;
  get_text := fun html =>
    if contains html (lit "<![") then Raises OtherException else Returns html;
  clock := clock demo_world
|}.

Definition listing (t l d : str) : raw_item :=
  {| title := t; link := l; description := []; pub_date_str := d; categories := [] |}.

(** [n] listings of grade P-4 without a date, and three of other kinds. *)
Definition demo_feed (n : nat) : list raw_item :=
  [listing (lit "Driver, GS-4") (lit "https://jobs.unicef.org/job/gs") [];
   listing (lit "Consultant, Evaluation") (lit "https://jobs.unicef.org/job/c") [];
   listing (lit "Administrative Assistant") (lit "https://jobs.unicef.org/job/a") []]
  ++ map (fun k => listing (lit "Education Specialist, P-4")
                     (lit "https://jobs.unicef.org/job/" ++ str_of_int (N.of_nat k)) [])
         (seq 0 n).

(** A listing is included when its searchable text is built and the
    classifier says so. *)
Definition passes (u : UCD) (w : World) (it : raw_item) : bool :=
  match build_searchable_text w it with
  | Returns searchable =>
      match classify_item u searchable with
      | (include, _) => true
      | (exclude, _) => false
      end
  | Raises _ => false
  end.

Definition excluded_for (u : UCD) (w : World) (r : reason) (it : raw_item) : bool :=
  match build_searchable_text w it with
  | Returns searchable =>
      match classify_item u searchable with
      | (exclude, r') => reason_eqb r r'
      | (include, _) => false
      end
  | Raises _ => false
  end.

(** The markup of the listing's description is read without an
    error. *)
Definition readable (w : World) (it : raw_item) : Prop :=
  exists text, strip_html w (description it) = Returns text.

(** [c[r]] *)
Definition count_of (r : reason) (c : counter) : nat :=
  match find (fun e => reason_eqb r (fst e)) c with
  | Some e => snd e
  | None => O
  end.

(** ** RSS parsing with ElementTree

    An element of [xml.etree.ElementTree]: its tag, its attributes in
    the order in which they were set, its text ([None] when it has
    none) and its children.  A tag of a namespace is written
    [{namespace}tag]. *)

Module ET.

#[local] Set Warnings "-register-all".

Inductive Element :=
| Node (tag : str) (attrib : list (str * str)) (text : option str)
       (children : list Element).

Definition tag (el : Element) : str := let 'Node t _ _ _ := el in t.

Definition attrib (el : Element) : list (str * str) := let 'Node _ a _ _ := el in a.

Definition text (el : Element) : option str := let 'Node _ _ t _ := el in t.

Definition children (el : Element) : list Element := let 'Node _ _ _ cs := el in cs.

(** [el.find(tag)], the path a tag: the first child of that tag. *)
Definition find (t : str) (el : Element) : option Element :=
  List.find (fun c => str_eqb (tag c) t) (children el).

(** [el.findall(tag)]: the children of that tag, in document order. *)
Definition findall (t : str) (el : Element) : list Element :=
  filter (fun c => str_eqb (tag c) t) (children el).

(** The element and all elements below it, in document order. *)
Fixpoint descendants (el : Element) : list Element :=
  match el with
  | Node _ _ _ cs => el :: flat_map descendants cs
  end.

(** [el.iter(tag)] *)
Definition iter (t : str) (el : Element) : list Element :=
  filter (fun c => str_eqb (tag c) t) (descendants el).

End ET.

Definition RSS_NAMESPACES : list str :=
  [lit "{http://purl.org/rss/1.0/}"; lit "{http://purl.org/dc/elements/1.1/}"].

(** The text of an element that is there and has text that is not
    empty: [el is not None and el.text]. *)
Definition text_of (el : option ET.Element) : option str :=
  match el with
  | Some e =>
      match ET.text e with
      | Some ((_ :: _) as t) => Some t
      | _ => None
      end
  | None => None
  end.

(** The loop of [get_item_text] over the namespaces. *)
Fixpoint namespaced_text (item_el : ET.Element) (namespaces : list str) (tag : str) : str :=
  match namespaces with
  | [] => []
  | ns :: rest =>
      match text_of (ET.find (ns ++ tag) item_el) with
      | Some t => t
      | None => namespaced_text item_el rest tag
      end
  end.

Definition get_item_text (item_el : ET.Element) (tag : str) : str :=
  match text_of (ET.find tag item_el) with
  | Some t => t
  | None => namespaced_text item_el RSS_NAMESPACES tag
  end.

(** The body of the loop of [parse_rss_items]: the listing of one
    [item] element. *)
Definition parse_item (item_el : ET.Element) : raw_item :=
  let title := get_item_text item_el (lit "title") in
  let link := get_item_text item_el (lit "link") in
  let description := get_item_text item_el (lit "description") in
  let pub_date := get_item_text item_el (lit "pubDate") in
  let pub_date :=
    match pub_date with
    | [] => get_item_text item_el (lit "date")
    | _ :: _ => pub_date
    end in
  let categories :=
    flat_map (fun cat_el => match ET.text cat_el with
                            | Some ((_ :: _) as t) => [t]
                            | _ => []
                            end)
             (ET.findall (lit "category") item_el) in
  {| title := title;
     link := link;
     description := description;
     pub_date_str := pub_date;
     categories := categories |}.

(** [fromstring] is the XML parser, [ET.fromstring]. *)
Definition parse_rss_items (fromstring : list Z -> outcome ET.Element)
  (xml_bytes : list Z) : outcome (list raw_item) :=
  root <- fromstring xml_bytes ;;
  Returns (map parse_item (ET.iter (lit "item") root)).

(** ** Feed download *)

Definition FEED_URLS : list str := [
  lit "https://careers.pageuppeople.com/671/cw/en/rss";
  lit "http://careers.pageuppeople.com/671/cw/en/rss";
  lit "https://careers.pageuppeople.com/671/cw/en-us/rss";
  lit "http://careers.pageuppeople.com/671/cw/en-us/rss"
].

(** A response of [requests]: the status, the [Content-Type] header
    when there is one, the body as text and as bytes. *)
Module Requests.

Record Response := {
  status_code : Z;
  content_type : option str;
  text : str;
  content : list Z
}.

End Requests.

(** What [requests.get] raises: a [RequestException], which
    [download_feed] catches, or something else, which it does not. *)
Inductive request_error := RequestException | OtherError.

(** How [download_feed] ends when it returns no feed. *)
Inductive download_error := RuntimeError | Uncaught.

Section Download.

Variable lower : str -> str.                                (* [str.lower] *)
Variable get : str -> request_error + Requests.Response.    (* [requests.get] *)

(** The loop of [download_feed] over the addresses. *)
Fixpoint try_urls (urls : list str) : download_error + (list Z * str) :=
  match urls with
  | [] => inl RuntimeError
  | url :: rest =>
      match get url with
      | inr resp =>
          if negb (Requests.status_code resp =? 200) then try_urls rest
          else
            let ct := match Requests.content_type resp with
                      | Some v => v
                      | None => []
                      end in
            let text_preview := lower (firstn 500 (Requests.text resp)) in
            if negb (contains ct (lit "xml")) && negb (contains ct (lit "rss")) &&
               negb (contains text_preview (lit "<rss"))
            then try_urls rest
            else if negb (contains (lower (firstn 5000 (Requests.text resp))) (lit "<item")) &&
                    negb (contains (lower (Requests.text resp)) (lit "<item"))
            then try_urls rest
            else inr (Requests.content resp, url)
      | inl RequestException => try_urls rest
      | inl OtherError => inl Uncaught
      end
  end.

Definition download_feed : download_error + (list Z * str) := try_urls FEED_URLS.

End Download.

(** ** RSS output *)

Definition CHANNEL_TITLE : str := lit "UNICEF Job Vacancies (Filtered)".

Definition CHANNEL_LINK : str := lit "https://jobs.unicef.org/".

Definition SELF_LINK : str := lit "https://cinfoposte.github.io/unicef-jobs/unicef_jobs.xml".

(** The [item] element of one item; every item of [main] has a
    [source_name]. *)
Definition item_element (item_data : item) : ET.Element :=
  ET.Node (lit "item") [] None
    ([ET.Node (lit "title") [] (Some (i_title item_data)) [];
      ET.Node (lit "link") [] (Some (i_link item_data)) [];
      ET.Node (lit "description") [] (Some (i_description item_data)) [];
      ET.Node (lit "guid") [(lit "isPermaLink", lit "false")] (Some (i_guid item_data)) [];
      ET.Node (lit "pubDate") [] (Some (i_pubDate item_data)) []] ++
     match i_source_url item_data with
     | [] => []
     | _ :: _ =>
         [ET.Node (lit "source") [(lit "url", i_source_url item_data)]
                  (Some (i_source_name item_data)) []]
     end).

(** The tree of the feed; [t] is what the clock reads during the
    call. *)
Definition build_output_rss (w : World) (t : Z) (items : list item) : ET.Element :=
  ET.Node (lit "rss")
    [(lit "version", lit "2.0"); (lit "xmlns:atom", lit "http://www.w3.org/2005/Atom")]
    None
    [ET.Node (lit "channel") [] None
       ([ET.Node (lit "title") [] (Some CHANNEL_TITLE) [];
         ET.Node (lit "link") [] (Some CHANNEL_LINK) [];
         ET.Node (lit "description") []
           (Some (lit "Filtered UNICEF job vacancies: Professional (P-1 to P-5), " ++
                  lit "Director (D-1/D-2), internships and fellowships.")) [];
         ET.Node (lit "language") [] (Some (lit "en")) [];
         ET.Node (lit "pubDate") [] (Some (format_datetime w (now_utc t))) [];
         ET.Node (lit "atom:link")
           [(lit "href", SELF_LINK); (lit "rel", lit "self");
            (lit "type", lit "application/rss+xml")]
           None []] ++
        map item_element items)].

(** ** The vocabulary of the properties *)

(** The grade tokens the classifier looks at. *)
Definition grades_of (u : UCD) (text : str) : list str :=
  extract_grades u (normalize_grade u (normalize u text)).

(** A token of the excluded families: a national-officer variant, or
    one that starts with an excluded prefix. *)
Definition excluded_token (g : str) : Prop :=
  In g EXCLUDED_NO_VARIANTS \/
  exists p, In p EXCLUDED_GRADE_PREFIXES /\ startswith g p = true.

(** The listing of the spec: an individual contractor at grade P-3, the
    dash of the title an en dash. *)
Definition contractor_p3 : str :=
  lit "Individual Contractor " ++ [0x2013] ++ lit " P-3".

Definition GRADE_PREFIXES : list str :=
  [lit "GS"; lit "NO"; lit "SB"; lit "LS"; lit "LSC"; lit "P"; lit "D"; lit "G"].

(** A link has an encoding when none of its code points is a
    surrogate. *)
Definition encodable (s : str) : Prop :=
  Forall (fun c => ~ (0xD800 <= c <= 0xDFFF)) s.

Definition no_surrogates (s : str) : bool :=
  forallb (fun c => negb ((0xD800 <=? c) && (c <=? 0xDFFF))) s.

Definition all_digits (s : str) : Prop := Forall (fun c => ascii_digit c = true) s.

Definition DIGITS : list Z := lit "0123456789".

(** The strings of [n] decimal digits. *)
Fixpoint digit_strings (n : nat) : list str :=
  match n with
  | O => [[]]
  | S n' => flat_map (fun s => map (fun d => d :: s) DIGITS) (digit_strings n')
  end.

(** [strptime] raises nothing but [ValueError]. *)
Definition strptime_raises_value_error (w : World) : Prop :=
  forall s fmt e, strptime w s fmt = Raises e -> e = ValueError.

(** What [re.sub] leaves of a text when the pattern is [c+] for a
    class: each run of the class becomes the replacement.  [in_run]
    tells that the previous character was of the run. *)
Fixpoint squeeze (p : Z -> bool) (r : str) (in_run : bool) (s : str) : str :=
  match s with
  | [] => []
  | c :: s' =>
      if p c then (if in_run then squeeze p r true s' else r ++ squeeze p r true s')
      else c :: squeeze p r false s'
  end.

Definition clean_start (s : str) : Prop :=
  match s with
  | c :: _ => is_space c = false
  | [] => True
  end.

Fixpoint tidy (after_space : bool) (s : str) : Prop :=
  match s with
  | [] => True
  | c :: s' =>
      if is_space c then c = 0x20 /\ after_space = false /\ tidy true s'
      else tidy false s'
  end.

Definition dash_to_hyphen (c : Z) : str := if is_dash c then lit "-" else [c].

(** [x] is no older than [y]. *)
Definition newer_or_equal (x y : item) : Prop :=
  instant (i_pub_dt y) <= instant (i_pub_dt x).

(** The item that [main] makes of an included listing. *)
Definition made_from (w : World) (it : raw_item) (x : item) : Prop :=
  i_title x = title it /\
  i_link x = link it /\
  strip_html w (description it) = Returns (i_description x) /\
  stable_guid (link it) = Returns (i_guid x) /\
  i_pubDate x = format_datetime w (i_pub_dt x) /\
  exists t, parse_pub_date w t (Some (pub_date_str it)) = Returns (i_pub_dt x).

Definition has_zone (x : item) : Prop := aware (i_pub_dt x) = true.

(** The feed of the downloads. *)
Definition FEED_URL : str := lit "https://careers.pageuppeople.com/671/cw/en/rss".

(** Two patterns of the same shape whose classes agree on the
    characters of a set [X], and what it takes of positions, captures
    and continuations to stay within [X]. *)
Inductive similar (X : Z -> Prop) : Re.regex -> Re.regex -> Prop :=
| sim_eps : similar X Re.Eps Re.Eps
| sim_chr c : similar X (Re.Chr c) (Re.Chr c)
| sim_cls p q : (forall c, X c -> p c = q c) -> similar X (Re.Cls p) (Re.Cls q)
| sim_wordb : similar X Re.WordB Re.WordB
| sim_cat r1 r2 r1' r2' :
    similar X r1 r1' -> similar X r2 r2' -> similar X (Re.Cat r1 r2) (Re.Cat r1' r2')
| sim_or r1 r2 r1' r2' :
    similar X r1 r1' -> similar X r2 r2' -> similar X (Re.Or r1 r2) (Re.Or r1' r2')
| sim_plus p q : (forall c, X c -> p c = q c) -> similar X (Re.Plus p) (Re.Plus q)
| sim_group i r r' : similar X r r' -> similar X (Re.Group i r) (Re.Group i r').

Definition caps_in (X : Z -> Prop) (cs : Re.caps) : Prop := forall i, Forall X (cs i).

Definition position_in (X : Z -> Prop) (prev : option Z) (s : str) : Prop :=
  match prev with Some c => X c | None => True end /\ Forall X s.

Definition result_in (X : Z -> Prop) (res : option (Re.caps * str)) : Prop :=
  match res with
  | Some (cs, s) => caps_in X cs /\ Forall X s
  | None => True
  end.

Definition konts_agree (X : Z -> Prop) (k1 k2 : Re.kont) : Prop :=
  forall cs prev s,
    caps_in X cs -> position_in X prev s ->
    k1 cs prev s = k2 cs prev s /\ result_in X (k1 cs prev s).

Definition ascii (c : Z) : Prop := 0 <= c < 128.

Definition is_ascii (s : str) : bool := forallb (fun c => (0 <=? c) && (c <? 128)) s.

(** [k in s]: the text [k] stands somewhere in [s]. *)
Definition occurs_in (k s : str) : Prop := exists a b, s = a ++ k ++ b.

(** The shape in which [normalize] leaves a text: upper-cased, without
    a dash of its class, every white-space character a U+0020 that
    does not follow another, none at either end. *)
Definition normal_form (u : UCD) (s : str) : Prop :=
  upper u s = s /\
  (forall c, In c s -> is_dash c = false /\ (is_space c = true -> c = 0x20)) /\
  (forall l1 a b l2, s = l1 ++ a :: b :: l2 -> is_space a = true -> is_space b = false) /\
  (forall c l, s = c :: l -> is_space c = false) /\
  (forall c l, s = l ++ [c] -> is_space c = false).

(** The texts a pattern can match, whatever stands around them. *)
Inductive matches : Re.regex -> str -> Prop :=
| m_eps : matches Re.Eps []
| m_chr c : matches (Re.Chr c) [c]
| m_cls p x : p x = true -> matches (Re.Cls p) [x]
| m_wordb : matches Re.WordB []
| m_cat r1 r2 a b : matches r1 a -> matches r2 b -> matches (Re.Cat r1 r2) (a ++ b)
| m_or_l r1 r2 a : matches r1 a -> matches (Re.Or r1 r2) a
| m_or_r r1 r2 a : matches r2 a -> matches (Re.Or r1 r2) a
| m_plus_one p x : p x = true -> matches (Re.Plus p) [x]
| m_plus_more p x a : p x = true -> matches (Re.Plus p) a -> matches (Re.Plus p) (x :: a)
| m_group i r a : matches r a -> matches (Re.Group i r) a.

(** The prefixes of the first pattern of [extract_grades]. *)
Definition EXTRACTED_PREFIXES : list str :=
  [lit "P"; lit "D"; lit "G"; lit "GS"; lit "NO"; lit "SB"; lit "LSC"; lit "LS"].

(** A text without its ASCII hyphens. *)
Definition without_hyphens (s : str) : str := filter (fun c => negb (c =? 0x2D)) s.

(** The pattern [\b(A)(\d)\b] of [normalize_grade]. *)
Definition grade_pattern (u : UCD) (A : Re.regex) : Re.regex :=
  Re.Cat Re.WordB
    (Re.Cat (Re.Group 1 A) (Re.Cat (Re.Group 2 (Re.Cls (is_decimal u))) Re.WordB)).

(** The prefixes of the first and of the second pattern of
    [normalize_grade]. *)
Definition TWO_LETTER_PREFIXES : list str :=
  [lit "GS"; lit "NO"; lit "SB"; lit "LS"; lit "LSC"].

Definition ONE_LETTER_PREFIXES : list str := [lit "P"; lit "D"; lit "G"].

(** The character before what follows [s], [prev] being the character
    before [s]. *)
Definition after (prev : option Z) (s : str) : option Z :=
  match rev s with
  | c :: _ => Some c
  | [] => prev
  end.

(** [s] ends in a word character; [s] starts with one. *)
Definition ends_in_word (u : UCD) (s : str) : bool :=
  Re.word_at (is_word u) (after None s).

Definition starts_with_word (u : UCD) (s : str) : bool :=
  Re.word_at (is_word u) (hd_error s).

(** A prefix [p] of [P] and a digit [d] stand at the head of [s] as a
    word of their own, [prev] being the character before [s]. *)
Definition grade_at (u : UCD) (P : list str) (prev : option Z) (s p : str) (d : Z) : Prop :=
  In p P /\ is_decimal u d = true /\
  Re.word_at (is_word u) prev = false /\
  exists rest, s = p ++ d :: rest /\ starts_with_word u rest = false.

(** A pattern of [normalize_grade] for the prefixes [P]: the prefixes
    are letters, a match is a prefix and a digit that stand as a word
    of their own, and each of those is matched. *)
Definition finds_grades (u : UCD) (r : Re.regex) (P : list str) : Prop :=
  (forall p, In p P ->
     p <> [] /\ Forall (fun c => is_word u c = true /\ is_decimal u c = false) p) /\
  (forall prev s cs n,
     Re.match_at (is_word u) r prev s = Some (cs, n) ->
     exists p d, grade_at u P prev s p d /\ n = S (length p) /\
                 hyphenate cs = p ++ lit "-" ++ [d]) /\
  (forall prev s p d,
     grade_at u P prev s p d ->
     exists cs, Re.match_at (is_word u) r prev s = Some (cs, S (length p)) /\
                hyphenate cs = p ++ lit "-" ++ [d]).

(** A recognized prefix and one digit stand somewhere in [text] as a
    word of their own, without a hyphen. *)
Definition standalone_grade (u : UCD) (text : str) : Prop :=
  exists pre p d post,
    text = pre ++ p ++ [d] ++ post /\
    In p GRADE_PREFIXES /\ is_decimal u d = true /\
    ends_in_word u pre = false /\ starts_with_word u post = false.

(** A listing whose date the RFC-2822 parser reads, and reads without
    a zone. *)
Definition naive_date (w : World) (it : raw_item) : Prop :=
  pub_date_str it <> [] /\
  exists dt, parsedate_to_datetime w (pub_date_str it) = Returns dt /\ aware dt = false.

(** The items published at the instant [k]. *)
Definition at_instant (k : Z) (x : item) : bool := instant (i_pub_dt x) =? k.

(** The fields that [main] sets to the same value in every item. *)
Definition from_source (source_url : str) (x : item) : Prop :=
  i_source_url x = source_url /\ i_source_name x = lit "UNICEF Careers RSS".

(** A response that [download_feed] takes for the feed: status 200,
    the look of XML or RSS, and an item in it. *)
Definition acceptable (lower : str -> str) (resp : Requests.Response) : bool :=
  (Requests.status_code resp =? 200) &&
  (contains (match Requests.content_type resp with Some v => v | None => [] end) (lit "xml") ||
   contains (match Requests.content_type resp with Some v => v | None => [] end) (lit "rss") ||
   contains (lower (firstn 500 (Requests.text resp))) (lit "<rss")) &&
  (contains (lower (firstn 5000 (Requests.text resp))) (lit "<item") ||
   contains (lower (Requests.text resp)) (lit "<item")).

(** An address that [download_feed] passes over. *)
Definition passed_over (lower : str -> str) (get : str -> request_error + Requests.Response)
  (url : str) : Prop :=
  get url = inl RequestException \/
  exists resp, get url = inr resp /\ acceptable lower resp = false.

(** The listing that stands for an item in the feed written. *)
Definition listing_of (x : item) : raw_item :=
  {| title := i_title x;
     link := i_link x;
     description := i_description x;
     pub_date_str := i_pubDate x;
     categories := [] |}.

(** A listing at which the loop of [main] goes on to the next one:
    its description is read, and its link has an encoding if it
    passes. *)
Definition goes_on (u : UCD) (w : World) (it : raw_item) : Prop :=
  readable w it /\ (passes u w it = true -> no_surrogates (link it) = true).

(** A listing that passes and whose link holds a surrogate. *)
Definition link_without_encoding (u : UCD) (w : World) (raw : list raw_item) : Prop :=
  exists it, In it raw /\ passes u w it = true /\ no_surrogates (link it) = false.

(** Two listings that pass, one with a naive date and one without. *)
Definition mixed_dates (u : UCD) (w : World) (raw : list raw_item) : Prop :=
  exists it1 it2,
    In it1 raw /\ passes u w it1 = true /\ naive_date w it1 /\
    In it2 raw /\ passes u w it2 = true /\ ~ naive_date w it2.

(** * Properties *)

(** ** Substitution of a class and of a run *)

Section Substitution.

Variable w : Z -> bool.
Variable p : Z -> bool.
Variable r : str.

Lemma length_succ_sub (c : Z) (s : str) : (length (c :: s) - length s = 1)%nat.
Proof.
  simpl length. lia.
Qed.

Lemma match_at_cls (prev : option Z) (c : Z) (s : str) :
  Re.match_at w (Re.Cls p) prev (c :: s) =
  if p c then Some (Re.no_caps, 1%nat) else None.
Proof.
  unfold Re.match_at. cbn [Re.rmatch]. destruct (p c); [| reflexivity].
  now rewrite length_succ_sub.
Qed.

Lemma sub_cls (s : str) :
  Re.sub w (Re.Cls p) (fun _ => r) s = flat_map (fun c => if p c then r else [c]) s.
Proof.
  unfold Re.sub. generalize (@None Z) as prev.
  induction s as [|c s IH]; intros prev; [reflexivity |].
  cbn [Re.sub_scan flat_map]. rewrite match_at_cls.
  destruct (p c); now rewrite IH.
Qed.

Lemma drop_while_length (s : str) : (length (drop_while p s) <= length s)%nat.
Proof.
  induction s as [|c s IH]; simpl; [lia |]. destruct (p c); simpl; lia.
Qed.

Lemma plus_loop_step (k : Re.kont) (cs : Re.caps) (prev : option Z) (c : Z) (s : str) :
  Re.plus_loop p k cs prev (c :: s) =
  if p c then
    match Re.plus_loop p k cs (Some c) s with
    | Some res => Some res
    | None => k cs (Some c) s
    end
  else None.
Proof.
  reflexivity.
Qed.

Lemma plus_loop_end (cs : Re.caps) (prev : option Z) (c : Z) (s : str) :
  p c = true ->
  Re.plus_loop p (fun cs' _ s' => Some (cs', s')) cs prev (c :: s) =
  Some (cs, drop_while p s).
Proof.
  revert prev c. induction s as [|d s IH]; intros prev c Hc; rewrite plus_loop_step, Hc.
  - reflexivity.
  - cbn [drop_while]. destruct (p d) eqn:Hd.
    + now rewrite (IH (Some c) d Hd).
    + now rewrite plus_loop_step, Hd.
Qed.

Lemma match_at_plus (prev : option Z) (c : Z) (s : str) :
  Re.match_at w (Re.Plus p) prev (c :: s) =
  if p c then Some (Re.no_caps, S (length s - length (drop_while p s)))
  else None.
Proof.
  unfold Re.match_at. cbn [Re.rmatch]. destruct (p c) eqn:Hc.
  - rewrite plus_loop_end by exact Hc. f_equal. f_equal.
    pose proof (drop_while_length s). simpl length. lia.
  - cbn [Re.plus_loop]. now rewrite Hc.
Qed.

Lemma sub_scan_plus (s : str) :
  forall prev,
    Re.sub_scan w (Re.Plus p) (fun _ => r) prev s O = squeeze p r false s /\
    Re.sub_scan w (Re.Plus p) (fun _ => r) prev s
      (length s - length (drop_while p s)) = squeeze p r true s.
Proof.
  induction s as [|c s IH]; intros prev; [split; reflexivity |].
  destruct (IH (Some c)) as [IH0 IHrun]. split.
  - cbn [Re.sub_scan squeeze]. rewrite match_at_plus.
    destruct (p c); [now rewrite IHrun | now rewrite IH0].
  - cbn [drop_while squeeze]. destruct (p c) eqn:Hc.
    + replace (length (c :: s) - length (drop_while p s))%nat
        with (S (length s - length (drop_while p s))).
      * cbn [Re.sub_scan]. exact IHrun.
      * pose proof (drop_while_length s). simpl length. lia.
    + rewrite Nat.sub_diag. cbn [Re.sub_scan]. rewrite match_at_plus, Hc.
      now rewrite IH0.
Qed.

Lemma sub_plus (s : str) :
  Re.sub w (Re.Plus p) (fun _ => r) s = squeeze p r false s.
Proof.
  apply sub_scan_plus.
Qed.

End Substitution.

(** ** Stripping *)

Lemma lstrip_clean (s : str) : clean_start (lstrip s).
Proof.
  unfold lstrip. induction s as [|c s IH]; simpl; [exact I |].
  destruct (is_space c) eqn:E; [exact IH | exact E].
Qed.

Lemma lstrip_fixed (s : str) : clean_start s -> lstrip s = s.
Proof.
  unfold lstrip. destruct s as [|c s]; simpl; [reflexivity |]. now intros ->.
Qed.

Lemma lstrip_suffix (s : str) : exists sp, s = sp ++ lstrip s.
Proof.
  unfold lstrip. induction s as [|c s [sp IH]]; simpl.
  - now exists [].
  - destruct (is_space c).
    + exists (c :: sp). simpl. now f_equal.
    + now exists [].
Qed.

Lemma rstrip_clean (a : str) : clean_start a -> clean_start (rev (lstrip (rev a))).
Proof.
  intros Ha. destruct (lstrip_suffix (rev a)) as [sp E].
  apply (f_equal (@rev Z)) in E. rewrite rev_involutive, rev_app_distr in E.
  destruct (rev (lstrip (rev a))) as [|x l]; [exact I |].
  subst a. exact Ha.
Qed.

Lemma strip_fixed (s : str) : clean_start s -> clean_start (rev s) -> strip s = s.
Proof.
  intros H1 H2. unfold strip.
  now rewrite (lstrip_fixed s H1), (lstrip_fixed (rev s) H2), rev_involutive.
Qed.

Lemma strip_strip (s : str) : strip (strip s) = strip s.
Proof.
  apply strip_fixed; unfold strip.
  - apply rstrip_clean, lstrip_clean.
  - rewrite rev_involutive. apply lstrip_clean.
Qed.

Lemma strip_infix (s : str) : exists l1 l2, s = l1 ++ strip s ++ l2.
Proof.
  unfold strip. destruct (lstrip_suffix s) as [l1 E1].
  destruct (lstrip_suffix (rev (lstrip s))) as [sp E2].
  exists l1, (rev sp). rewrite <- rev_app_distr, <- E2, rev_involutive. exact E1.
Qed.

(** ** Texts whose spaces are single U+0020 *)

Lemma tidy_squeeze (b : bool) (s : str) : tidy b (squeeze is_space (lit " ") b s).
Proof.
  revert b. induction s as [|c s IH]; intros b; simpl; [exact I |].
  destruct (is_space c) eqn:E.
  - destruct b; [apply IH |]. simpl. repeat split. apply IH.
  - simpl. rewrite E. apply IH.
Qed.

Lemma squeeze_tidy (b : bool) (s : str) :
  tidy b s -> squeeze is_space (lit " ") b s = s.
Proof.
  revert b. induction s as [|c s IH]; intros b; simpl; [reflexivity |].
  destruct (is_space c).
  - intros [-> [-> H]]. simpl. f_equal. now apply IH.
  - intros H. f_equal. now apply IH.
Qed.

Lemma tidy_weaken (b : bool) (s : str) : tidy b s -> tidy false s.
Proof.
  destruct s as [|c s]; simpl; [easy |]. destruct (is_space c); tauto.
Qed.

Lemma tidy_app_r (b : bool) (l1 l2 : str) : tidy b (l1 ++ l2) -> tidy false l2.
Proof.
  revert b. induction l1 as [|c l1 IH]; intros b; simpl.
  - apply tidy_weaken.
  - destruct (is_space c).
    + intros [_ [_ H]]. exact (IH _ H).
    + apply IH.
Qed.

Lemma tidy_app_l (b : bool) (l1 l2 : str) : tidy b (l1 ++ l2) -> tidy b l1.
Proof.
  revert b. induction l1 as [|c l1 IH]; intros b; simpl; [easy |].
  destruct (is_space c).
  - intros [H1 [H2 H]]. split; [exact H1 |]. split; [exact H2 |]. exact (IH _ H).
  - apply IH.
Qed.

Lemma squeeze_In (p : Z -> bool) (r : str) (b : bool) (s : str) (c : Z) :
  In c (squeeze p r b s) -> In c r \/ In c s.
Proof.
  revert b. induction s as [|d s IH]; intros b; simpl; [tauto |].
  destruct (p d).
  - destruct b; [| rewrite in_app_iff]; intros H; [| destruct H as [H|H]; [now left |]];
      destruct (IH _ H); tauto.
  - simpl. intros [H|H]; [tauto |]. destruct (IH _ H); tauto.
Qed.

Lemma flat_map_fixed {A} (f : A -> list A) (s : list A) :
  (forall c, In c s -> f c = [c]) -> flat_map f s = s.
Proof.
  induction s as [|c s IH]; intros H; simpl; [reflexivity |].
  rewrite (H c) by now left. simpl. f_equal. apply IH. intros d Hd. apply H. now right.
Qed.

(** ** Normalization *)

Section Normalize.

Variable u : UCD.

Lemma normalize_eq (text : str) :
  normalize u text =
  strip (squeeze is_space (lit " ") false (flat_map dash_to_hyphen (upper u text))).
Proof.
  unfold normalize. now rewrite sub_cls, sub_plus.
Qed.

(** Where the characters of a normalized text come from. *)
Lemma normalize_In (text : str) (c : Z) :
  In c (normalize u text) ->
  c = 0x20 \/ c = 0x2D \/ (In c (upper u text) /\ is_dash c = false).
Proof.
  rewrite normalize_eq. intros H.
  destruct (strip_infix (squeeze is_space (lit " ") false
                           (flat_map dash_to_hyphen (upper u text)))) as [l1 [l2 E]].
  assert (Hin : In c (squeeze is_space (lit " ") false
                        (flat_map dash_to_hyphen (upper u text)))).
  { rewrite E, !in_app_iff. tauto. }
  apply squeeze_In in Hin. destruct Hin as [Hsp | Hin].
  - cbv in Hsp. destruct Hsp as [<- | []]. now left.
  - apply in_flat_map in Hin. destruct Hin as [d [Hd Hc]].
    unfold dash_to_hyphen in Hc. destruct (is_dash d) eqn:Ed.
    + cbv in Hc. destruct Hc as [<- | []]. right. now left.
    + destruct Hc as [<- | []]. right. right. now split.
Qed.

Hypothesis laws : UCD_laws u.

(** A character of a normalized text is left alone by the upper-casing
    and is no dash. *)
Lemma normalize_chars (text : str) (c : Z) :
  In c (normalize u text) -> to_upper u c = [c] /\ is_dash c = false.
Proof.
  intros H. apply normalize_In in H. destruct H as [-> | [-> | [Hd Ed]]].
  - split; [| reflexivity]. now rewrite (upper_ascii u laws) by lia.
  - split; [| reflexivity]. now rewrite (upper_ascii u laws) by lia.
  - split; [| exact Ed].
    unfold upper in Hd. apply in_flat_map in Hd. destruct Hd as [t [_ Ht]].
    exact (upper_fixed u laws t c Ht).
Qed.

(** C9: normalizing a normalized text changes nothing. *)
Theorem normalize_idempotent (text : str) :
  normalize u (normalize u text) = normalize u text.
Proof.
  rewrite (normalize_eq (normalize u text)).
  assert (U : upper u (normalize u text) = normalize u text).
  { apply flat_map_fixed. intros c Hc. now apply normalize_chars in Hc. }
  assert (D : flat_map dash_to_hyphen (normalize u text) = normalize u text).
  { apply flat_map_fixed. intros c Hc. apply normalize_chars in Hc.
    unfold dash_to_hyphen. now rewrite (proj2 Hc). }
  rewrite U, D.
  assert (W : squeeze is_space (lit " ") false (normalize u text) = normalize u text).
  { apply squeeze_tidy. rewrite normalize_eq.
    destruct (strip_infix (squeeze is_space (lit " ") false
                             (flat_map dash_to_hyphen (upper u text)))) as [l1 [l2 E]].
    pose proof (tidy_squeeze false (flat_map dash_to_hyphen (upper u text))) as Ht.
    rewrite E in Ht. apply tidy_app_r in Ht. now apply tidy_app_l in Ht. }
  rewrite W. rewrite normalize_eq. apply strip_strip.
Qed.

End Normalize.

Lemma latin1_laws : UCD_laws latin1.
Proof.
  split; simpl.
  - intros c H. unfold latin1_upper.
    destruct (Z.ltb_spec c 128); [reflexivity | lia].
  - intros c d. unfold latin1_upper, ascii_upper.
    repeat match goal with
           | |- context [if ?b then _ else _] => destruct b eqn:?
           end;
      simpl; intros H; repeat (destruct H as [H | H]; [subst d | ]); try contradiction;
      repeat match goal with
             | |- context [if ?b then _ else _] => destruct b eqn:?
             end; try reflexivity; exfalso;
      repeat match goal with
             | H : (_ && _) = true |- _ => apply andb_true_iff in H; destruct H
             | H : (_ && _) = false |- _ => apply andb_false_iff in H; destruct H
             | H : negb _ = true |- _ => apply negb_true_iff in H
             | H : negb _ = false |- _ => apply negb_false_iff in H
             end; lia.
  - reflexivity.
  - intros c H. unfold latin1_alnum.
    destruct (Z.ltb_spec c 128); [reflexivity | lia].
  - intros c H. unfold latin1_alnum, ascii_alnum. unfold ascii_digit in *.
    destruct (Z.ltb_spec c 128); [now rewrite H |].
    apply andb_true_iff in H. lia.
Qed.

Lemma normalize_idempotent_witness :
  normalize latin1 (normalize latin1
    (lit "  Chief,  Child  Protection " ++ [0x2014; 0xA0] ++ lit "p-4 "))
  = lit "CHIEF, CHILD PROTECTION - P-4".
Proof.
  rewrite (normalize_idempotent latin1 latin1_laws). reflexivity.
Defined.

(** ** Matching does not look beyond the text

    Two matchers whose word characters and classes agree on the
    characters of a text find the same matches in it. *)

Lemma Forall_first {A} (P : A -> Prop) (n : nat) (l : list A) :
  Forall P l -> Forall P (firstn n l).
Proof.
  intros H. revert n. induction H; intros [|n]; simpl; constructor; auto.
Qed.

Section Agreement.

Variable X : Z -> Prop.
Variables w1 w2 : Z -> bool.
Hypothesis words_agree : forall c, X c -> w1 c = w2 c.

Lemma word_at_agree (c : option Z) :
  match c with Some x => X x | None => True end ->
  Re.word_at w1 c = Re.word_at w2 c.
Proof.
  destruct c; simpl; auto.
Qed.

Lemma plus_loop_agree (p q : Z -> bool) (k1 k2 : Re.kont) :
  (forall c, X c -> p c = q c) ->
  konts_agree X k1 k2 ->
  konts_agree X (Re.plus_loop p k1) (Re.plus_loop q k2).
Proof.
  intros Hpq Hk cs prev s Hcs [_ Hs]. revert prev.
  induction Hs as [|c s Hc Hs IH]; intros prev; cbn [Re.plus_loop].
  - split; [reflexivity | exact I].
  - rewrite <- (Hpq c Hc). destruct (p c); [| split; [reflexivity | exact I]].
    destruct (IH (Some c)) as [E R]. rewrite <- E.
    destruct (Re.plus_loop p k1 cs (Some c) s); [split; [reflexivity | exact R] |].
    apply Hk; [exact Hcs | split; assumption].
Qed.

Lemma rmatch_agree (r1 r2 : Re.regex) :
  similar X r1 r2 ->
  forall k1 k2, konts_agree X k1 k2 ->
  konts_agree X (Re.rmatch w1 r1 k1) (Re.rmatch w2 r2 k2).
Proof.
  induction 1 as [| c | p q Hpq | | r1 r2 r1' r2' _ IH1 _ IH2
                  | r1 r2 r1' r2' _ IH1 _ IH2 | p q Hpq | i r r' _ IH];
    intros k1 k2 Hk cs prev s Hcs Hpos; cbn [Re.rmatch].
  - now apply Hk.
  - destruct Hpos as [_ Hs]. destruct Hs as [|x s Hx Hs]; [split; [reflexivity | exact I] |].
    destruct (x =? c); [| split; [reflexivity | exact I]].
    apply Hk; [exact Hcs | split; assumption].
  - destruct Hpos as [_ Hs]. destruct Hs as [|x s Hx Hs]; [split; [reflexivity | exact I] |].
    rewrite <- (Hpq x Hx). destruct (p x); [| split; [reflexivity | exact I]].
    apply Hk; [exact Hcs | split; assumption].
  - rewrite <- (word_at_agree prev (proj1 Hpos)).
    assert (Hh : Re.word_at w1 (hd_error s) = Re.word_at w2 (hd_error s)).
    { apply word_at_agree. destruct Hpos as [_ Hs]. destruct Hs; simpl; auto. }
    rewrite <- Hh.
    destruct (xorb (Re.word_at w1 prev) (Re.word_at w1 (hd_error s)));
      [now apply Hk | split; [reflexivity | exact I]].
  - apply (IH1 _ _ (IH2 _ _ Hk)); assumption.
  - destruct (IH1 _ _ Hk cs prev s Hcs Hpos) as [E R]. rewrite <- E.
    destruct (Re.rmatch w1 r1 k1 cs prev s); [split; [reflexivity | exact R] |].
    now apply IH2.
  - now apply plus_loop_agree.
  - apply IH; [| exact Hcs | exact Hpos].
    intros cs' prev' s' Hcs' Hpos'. apply Hk; [| exact Hpos'].
    intros j. unfold Re.set_cap. destruct (Nat.eqb i j); [| apply Hcs'].
    apply Forall_first. exact (proj2 Hpos).
Qed.

Lemma match_at_agree (r1 r2 : Re.regex) (prev : option Z) (s : str) :
  similar X r1 r2 -> position_in X prev s ->
  Re.match_at w1 r1 prev s = Re.match_at w2 r2 prev s /\
  match Re.match_at w1 r1 prev s with
  | Some (cs, _) => caps_in X cs
  | None => True
  end.
Proof.
  intros Hr Hpos. unfold Re.match_at.
  assert (Hk : konts_agree X (fun cs _ s' => Some (cs, s')) (fun cs _ s' => Some (cs, s'))).
  { intros cs p s' Hcs [_ Hs']. split; [reflexivity | split; assumption]. }
  assert (H0 : caps_in X Re.no_caps) by (intros i; constructor).
  destruct (rmatch_agree r1 r2 Hr _ _ Hk Re.no_caps prev s H0 Hpos) as [E R].
  rewrite <- E.
  destruct (Re.rmatch w1 r1 (fun cs _ s' => Some (cs, s')) Re.no_caps prev s)
    as [[cs s']|]; [| split; [reflexivity | exact I]].
  split; [reflexivity | exact (proj1 R)].
Qed.

Lemma sub_scan_agree (r1 r2 : Re.regex) (repl : Re.caps -> str) :
  similar X r1 r2 ->
  (forall cs, caps_in X cs -> Forall X (repl cs)) ->
  forall s prev skip,
    position_in X prev s ->
    Re.sub_scan w1 r1 repl prev s skip = Re.sub_scan w2 r2 repl prev s skip /\
    Forall X (Re.sub_scan w1 r1 repl prev s skip).
Proof.
  intros Hr Hrepl s. induction s as [|c s IH]; intros prev skip Hpos; cbn [Re.sub_scan].
  - split; [reflexivity | constructor].
  - assert (Hc : X c) by (destruct Hpos as [_ Hs]; now inversion Hs).
    assert (Hnext : position_in X (Some c) s)
      by (destruct Hpos as [_ Hs]; inversion Hs; split; assumption).
    destruct skip as [|n]; [| now apply IH].
    destruct (match_at_agree r1 r2 prev (c :: s) Hr Hpos) as [E R]. rewrite <- E.
    destruct (Re.match_at w1 r1 prev (c :: s)) as [[cs [|n]]|].
    + destruct (IH (Some c) O Hnext) as [E' R']. rewrite <- E'. split; [reflexivity |].
      apply Forall_app. split; [now apply Hrepl | now constructor].
    + destruct (IH (Some c) n Hnext) as [E' R']. rewrite <- E'. split; [reflexivity |].
      apply Forall_app. split; [now apply Hrepl | exact R'].
    + destruct (IH (Some c) O Hnext) as [E' R']. rewrite <- E'. split; [reflexivity |].
      now constructor.
Qed.

Lemma findall_scan_agree (r1 r2 : Re.regex) :
  similar X r1 r2 ->
  forall s prev skip,
    position_in X prev s ->
    Re.findall_scan w1 r1 prev s skip = Re.findall_scan w2 r2 prev s skip.
Proof.
  intros Hr s. induction s as [|c s IH]; intros prev skip Hpos; cbn [Re.findall_scan].
  - reflexivity.
  - assert (Hnext : position_in X (Some c) s)
      by (destruct Hpos as [_ Hs]; inversion Hs; split; assumption).
    destruct skip as [|n]; [| now apply IH].
    destruct (match_at_agree r1 r2 prev (c :: s) Hr Hpos) as [E _]. rewrite <- E.
    destruct (Re.match_at w1 r1 prev (c :: s)) as [[cs n]|]; [f_equal |]; now apply IH.
Qed.

End Agreement.

(** ** ASCII texts

    On a text of ASCII characters the program does the same under
    every table that is the ASCII one on ASCII. *)

Lemma similar_refl (X : Z -> Prop) (r : Re.regex) : similar X r r.
Proof.
  induction r; constructor; auto.
Qed.

Lemma is_ascii_spec (s : str) : is_ascii s = true -> Forall ascii s.
Proof.
  unfold is_ascii. rewrite forallb_forall, Forall_forall. intros H c Hc.
  specialize (H c Hc). apply andb_true_iff in H. unfold ascii. lia.
Qed.

Lemma ascii_upper_ascii (c : Z) : ascii c -> ascii (ascii_upper c).
Proof.
  unfold ascii, ascii_upper.
  destruct (Z.leb_spec 0x61 c), (Z.leb_spec c 0x7A); simpl; lia.
Qed.

Lemma hyphenate_ascii (cs : Re.caps) : caps_in ascii cs -> Forall ascii (hyphenate cs).
Proof.
  intros H. unfold hyphenate. rewrite !Forall_app. repeat split; try apply H.
  repeat constructor; unfold ascii; simpl; lia.
Qed.

Section AsciiTexts.

Variable u : UCD.
Hypothesis laws : UCD_laws u.

Lemma is_word_ascii (c : Z) : ascii c -> is_word u c = is_word latin1 c.
Proof.
  intros H. unfold is_word. rewrite (alnum_ascii u laws c H). simpl. unfold latin1_alnum.
  unfold ascii in H. destruct (Z.ltb_spec c 128); [reflexivity | lia].
Qed.

Lemma upper_on_ascii (s : str) :
  Forall ascii s -> upper u s = upper latin1 s /\ Forall ascii (upper latin1 s).
Proof.
  unfold upper. induction 1 as [|c s Hc _ [IH1 IH2]]; simpl; [split; [reflexivity | constructor] |].
  rewrite (upper_ascii u laws c Hc), IH1. unfold latin1_upper.
  unfold ascii in Hc. destruct (Z.ltb_spec c 128); [| lia].
  split; [reflexivity |]. simpl. constructor; [now apply ascii_upper_ascii | exact IH2].
Qed.

Lemma normalize_on_ascii (s : str) :
  Forall ascii s ->
  normalize u s = normalize latin1 s /\ Forall ascii (normalize latin1 s).
Proof.
  intros H. destruct (upper_on_ascii s H) as [E Hup]. split.
  - now rewrite !normalize_eq, E.
  - apply Forall_forall. intros c Hc. apply normalize_In in Hc.
    destruct Hc as [-> | [-> | [Hc _]]]; try (unfold ascii; lia).
    rewrite Forall_forall in Hup. now apply Hup.
Qed.

Ltac similar_patterns :=
  repeat first [ apply similar_refl | apply sim_cat | apply sim_or | apply sim_group
               | apply sim_wordb | apply sim_plus | apply sim_cls ];
  intros c Hc; exact (decimal_ascii u laws c Hc).

Lemma two_letter_grade_similar : similar ascii (two_letter_grade u) (two_letter_grade latin1).
Proof.
  unfold two_letter_grade. similar_patterns.
Qed.

Lemma one_letter_grade_similar : similar ascii (one_letter_grade u) (one_letter_grade latin1).
Proof.
  unfold one_letter_grade. similar_patterns.
Qed.

Lemma numbered_grade_similar : similar ascii (numbered_grade u) (numbered_grade latin1).
Proof.
  unfold numbered_grade. similar_patterns.
Qed.

Lemma sub_on_ascii (r1 r2 : Re.regex) (t : str) :
  similar ascii r1 r2 -> Forall ascii t ->
  Re.sub (is_word u) r1 hyphenate t = Re.sub (is_word latin1) r2 hyphenate t /\
  Forall ascii (Re.sub (is_word latin1) r2 hyphenate t).
Proof.
  intros Hr Ht. unfold Re.sub.
  destruct (sub_scan_agree ascii (is_word u) (is_word latin1) is_word_ascii
              r1 r2 hyphenate Hr hyphenate_ascii t None O (conj I Ht)) as [E R].
  rewrite <- E. split; [reflexivity | exact R].
Qed.

Lemma normalize_grade_on_ascii (t : str) :
  Forall ascii t ->
  normalize_grade u t = normalize_grade latin1 t /\
  Forall ascii (normalize_grade latin1 t).
Proof.
  intros Ht. unfold normalize_grade.
  destruct (sub_on_ascii _ _ t two_letter_grade_similar Ht) as [E1 R1]. rewrite E1.
  exact (sub_on_ascii _ _ _ one_letter_grade_similar R1).
Qed.

Lemma extract_grades_on_ascii (t : str) :
  Forall ascii t -> extract_grades u t = extract_grades latin1 t.
Proof.
  intros Ht. unfold extract_grades, Re.findall. f_equal.
  - apply (findall_scan_agree ascii _ _ is_word_ascii);
      [apply numbered_grade_similar | exact (conj I Ht)].
  - apply (findall_scan_agree ascii _ _ is_word_ascii);
      [apply similar_refl | exact (conj I Ht)].
Qed.

(** The classification of an ASCII text does not depend on the table. *)
Lemma classify_item_on_ascii (s : str) :
  Forall ascii s -> classify_item u s = classify_item latin1 s.
Proof.
  intros Hs. unfold classify_item.
  destruct (normalize_on_ascii s Hs) as [En Hn]. rewrite En.
  destruct (normalize_grade_on_ascii _ Hn) as [Eg Hg]. rewrite Eg.
  now rewrite (extract_grades_on_ascii _ Hg).
Qed.

End AsciiTexts.

(** ** The classifier *)

Section Classifier.

Variable u : UCD.

(** C1: a text whose base-normalized form contains a consultancy marker
    is classified EXCLUDE, reason consultancy, whatever grade tokens it
    carries. *)
Theorem consultancy_has_top_precedence (text : str) :
  has_keyword (normalize u text) CONSULTANCY_KEYWORDS = true ->
  classify_item u text = (exclude, consultancy).
Proof.
  intros H. unfold classify_item. rewrite H. reflexivity.
Qed.

Lemma str_eqb_eq (a b : str) : str_eqb a b = true <-> a = b.
Proof.
  revert b. induction a as [|x a IH]; intros [|y b]; simpl; try easy.
  rewrite andb_true_iff, Z.eqb_eq, IH. split.
  - now intros [-> ->].
  - intros E. now inversion E.
Qed.

Lemma mem_In (g : str) (set : list str) : mem g set = true <-> In g set.
Proof.
  unfold mem. rewrite existsb_exists. split.
  - intros [x [Hin E]]. apply str_eqb_eq in E. now subst.
  - intros Hin. exists g. split; [exact Hin | now apply str_eqb_eq].
Qed.

Lemma is_excluded_grade_spec (g : str) :
  is_excluded_grade g = true <-> excluded_token g.
Proof.
  unfold is_excluded_grade, excluded_token.
  rewrite orb_true_iff, existsb_exists, mem_In. tauto.
Qed.

(** C3: without a consultancy marker, one extracted token that is a
    national-officer variant or starts with an excluded prefix decides
    EXCLUDE, reason excluded-grade, whatever other tokens are present;
    the token NOB is one of them. *)
Theorem excluded_grade_precedes_included (text : str) :
  has_keyword (normalize u text) CONSULTANCY_KEYWORDS = false ->
  (exists g, In g (grades_of u text) /\ excluded_token g) \/
  In (lit "NOB") (grades_of u text) ->
  classify_item u text = (exclude, excluded_grade).
Proof.
  intros Hk Hg. unfold classify_item. rewrite Hk.
  assert (E : existsb is_excluded_grade (grades_of u text) = true).
  { apply existsb_exists. destruct Hg as [[g [Hin Hx]] | Hnob].
    - exists g. split; [exact Hin | now apply is_excluded_grade_spec].
    - exists (lit "NOB"). split; [exact Hnob | reflexivity]. }
  unfold grades_of in E. rewrite E. reflexivity.
Qed.

(** C4, amended: without a consultancy marker and without a token of
    the excluded families among the extracted tokens, one token among
    P-1..P-5, D-1, D-2 (P-4, say) decides INCLUDE, reason
    included-grade. *)
Theorem included_grade_after_exclusions (text : str) :
  has_keyword (normalize u text) CONSULTANCY_KEYWORDS = false ->
  (forall g, In g (grades_of u text) -> ~ excluded_token g) ->
  (exists g, In g (grades_of u text) /\ In g INCLUDED_GRADES) ->
  classify_item u text = (include, included_grade).
Proof.
  intros Hk Hno [g [Hin Hg]]. unfold classify_item. rewrite Hk.
  fold (grades_of u text).
  assert (E1 : existsb is_excluded_grade (grades_of u text) = false).
  { apply not_true_is_false. intros E. apply existsb_exists in E.
    destruct E as [x [Hx Ex]]. apply is_excluded_grade_spec in Ex.
    exact (Hno x Hx Ex). }
  assert (E2 : existsb (fun g => mem g INCLUDED_GRADES) (grades_of u text) = true).
  { apply existsb_exists. exists g. split; [exact Hin | now apply mem_In]. }
  rewrite E1, E2. reflexivity.
Qed.

End Classifier.

Lemma consultancy_has_top_precedence_witness :
  In (lit "P-3") (grades_of latin1 contractor_p3) /\
  classify_item latin1 contractor_p3 = (exclude, consultancy).
Proof.
  split.
  - vm_compute. tauto.
  - apply (consultancy_has_top_precedence latin1 contractor_p3). reflexivity.
Defined.

Lemma excluded_grade_precedes_included_witness :
  In (lit "P-4") (grades_of latin1 (lit "Programme Officer NOB / P-4")) /\
  classify_item latin1 (lit "Programme Officer NOB / P-4") = (exclude, excluded_grade).
Proof.
  split.
  - vm_compute. tauto.
  - apply (excluded_grade_precedes_included latin1 (lit "Programme Officer NOB / P-4")).
    + reflexivity.
    + right. vm_compute. tauto.
Defined.

Lemma included_grade_after_exclusions_witness :
  classify_item latin1 (lit "Education Specialist, P-4") = (include, included_grade).
Proof.
  apply (included_grade_after_exclusions latin1 (lit "Education Specialist, P-4")).
  - reflexivity.
  - intros g Hg Hx. apply is_excluded_grade_spec in Hx.
    vm_compute in Hg. destruct Hg as [<- | []]. vm_compute in Hx. discriminate.
  - exists (lit "P-4"). split; vm_compute; tauto.
Defined.

(** C4 as stated fails where an excluded grade stands beside P-4. *)
Lemma p4_beside_gs6_is_excluded :
  has_keyword (normalize latin1 (lit "Officer, P-4 (GS-6)")) CONSULTANCY_KEYWORDS = false /\
  In (lit "P-4") (grades_of latin1 (lit "Officer, P-4 (GS-6)")) /\
  classify_item latin1 (lit "Officer, P-4 (GS-6)") <> (include, included_grade).
Proof.
  split; [reflexivity | split].
  - vm_compute. tauto.
  - vm_compute. discriminate.
Qed.

(** C2: the padded abbreviations are searched as substrings, so ICA
    with a space after it is found at the end of AFRICA, and INTERN with
    a space before it at the start of INTERNATIONAL; the rules fire on
    texts that hold the letters only inside these words. *)
Theorem padded_markers_match_inside_words :
  contains (normalize latin1 (lit "Programme Officer, West Africa Region")) (lit "ICA ") = true /\
  classify_item latin1 (lit "Programme Officer, West Africa Region") = (exclude, consultancy) /\
  contains (normalize latin1 (lit "Chief International Officer")) (lit " INTERN") = true /\
  classify_item latin1 (lit "Chief International Officer") = (include, internship).
Proof.
  repeat split; reflexivity.
Qed.

(** ** Grade hyphens *)

Section EveryTable.

Variable u : UCD.
Hypothesis laws : UCD_laws u.

Lemma normalize_latin1 (s : str) :
  is_ascii s = true -> normalize u s = normalize latin1 s.
Proof.
  intros H. now apply normalize_on_ascii, is_ascii_spec.
Qed.

Lemma normalize_grade_latin1 (s : str) :
  is_ascii s = true -> normalize_grade u s = normalize_grade latin1 s.
Proof.
  intros H. now apply normalize_grade_on_ascii, is_ascii_spec.
Qed.

Lemma extract_grades_latin1 (s : str) :
  is_ascii s = true -> extract_grades u s = extract_grades latin1 s.
Proof.
  intros H. now apply extract_grades_on_ascii, is_ascii_spec.
Qed.

Lemma classify_item_latin1 (s : str) :
  is_ascii s = true -> classify_item u s = classify_item latin1 s.
Proof.
  intros H. now apply classify_item_on_ascii, is_ascii_spec.
Qed.

(** The two texts of C2 and the text of C4, under every table. *)
Lemma padded_markers_under_every_table :
  classify_item u (lit "Programme Officer, West Africa Region") = (exclude, consultancy) /\
  classify_item u (lit "Chief International Officer") = (include, internship) /\
  classify_item u (lit "Officer, P-4 (GS-6)") = (exclude, excluded_grade).
Proof.
  rewrite !classify_item_latin1 by reflexivity. repeat split; reflexivity.
Qed.

End EveryTable.

(** C5 as stated fails where a second digit follows: the prefix
    stands at a word boundary and a digit follows it immediately, and
    no hyphen is put between the two; the text keeps its form, and no
    token is found in it, as one is in the text with the hyphen. *)
Lemma two_digit_grade_keeps_its_form :
  normalize_grade latin1 (lit "GS10") = lit "GS10" /\
  normalize_grade latin1 (lit "DRIVER, LSC12") = lit "DRIVER, LSC12" /\
  normalize_grade latin1 (lit "P10 ANALYST") = lit "P10 ANALYST" /\
  extract_grades latin1 (normalize_grade latin1 (lit "GS10")) = [] /\
  extract_grades latin1 (lit "GS-10") = [lit "GS-10"].
Proof.
  repeat split; reflexivity.
Qed.

(** ** Identifiers *)

Lemma no_surrogates_encodable (s : str) : no_surrogates s = true -> encodable s.
Proof.
  unfold no_surrogates, encodable. rewrite forallb_forall, Forall_forall.
  intros H c Hc. specialize (H c Hc).
  apply negb_true_iff, andb_false_iff in H. lia.
Qed.

Lemma uint_chars_digits (d : Decimal.uint) : all_digits (uint_chars d).
Proof.
  unfold all_digits. induction d; simpl; constructor; auto.
Qed.

Lemma all_digits_firstn (n : nat) (s : str) : all_digits s -> all_digits (firstn n s).
Proof.
  unfold all_digits. intros H. revert n.
  induction H; intros [|n]; simpl; constructor; auto.
Qed.

Lemma all_digits_repeat_zero (n : nat) : all_digits (repeat 0x30 n).
Proof.
  unfold all_digits. induction n; simpl; constructor; auto.
Qed.

Lemma ljust_firstn_length (n : nat) (fill : Z) (s : str) :
  length (ljust n fill (firstn n s)) = n.
Proof.
  unfold ljust. rewrite length_app, repeat_length.
  pose proof (firstn_le_length n s). lia.
Qed.

Lemma utf8_char_returns (c : Z) :
  ~ (0xD800 <= c <= 0xDFFF) -> exists bs, utf8_char c = Returns bs.
Proof.
  intros H. unfold utf8_char.
  destruct (c <? 0x80); [eauto |].
  destruct (c <? 0x800); [eauto |].
  destruct ((0xD800 <=? c) && (c <=? 0xDFFF)) eqn:E.
  - apply andb_true_iff in E. lia.
  - destruct (c <? 0x10000); eauto.
Qed.

Lemma encode_utf8_returns (s : str) :
  encodable s -> exists bs, encode_utf8 s = Returns bs.
Proof.
  induction 1 as [|c s Hc _ [rest IH]]; simpl.
  - eauto.
  - destruct (utf8_char_returns c Hc) as [bs ->]. rewrite IH. simpl. eauto.
Qed.

Lemma Returns_inj {A} (a b : A) : Returns a = Returns b -> a = b.
Proof.
  intros E. now injection E.
Qed.

Lemma guid_text_shape (numeric : str) :
  all_digits numeric ->
  length (ljust 16 0x30 (firstn 16 numeric)) = 16%nat /\
  all_digits (ljust 16 0x30 (firstn 16 numeric)).
Proof.
  intros H. split.
  - apply ljust_firstn_length.
  - apply Forall_app. split.
    + now apply all_digits_firstn.
    + apply all_digits_repeat_zero.
Qed.

Lemma stable_guid_shape (L g : str) :
  stable_guid L = Returns g -> length g = 16%nat /\ all_digits g.
Proof.
  unfold stable_guid. destruct (encode_utf8 L) as [data|e].
  - unfold bind. intros E. apply Returns_inj in E. rewrite <- E.
    apply guid_text_shape, uint_chars_digits.
  - discriminate.
Qed.

Lemma stable_guid_returns (L : str) :
  encodable L ->
  exists g, stable_guid L = Returns g /\ length g = 16%nat /\ all_digits g.
Proof.
  intros H. destruct (encode_utf8_returns L H) as [bs E].
  eexists. split.
  - unfold stable_guid. rewrite E. reflexivity.
  - apply guid_text_shape, uint_chars_digits.
Qed.

(** C6, amended: the guid of a link is a string of exactly 16 ASCII
    digits, and equal links have equal guids. *)
Theorem stable_guid_sixteen_digits (L1 L2 : str) :
  encodable L1 ->
  (exists g, stable_guid L1 = Returns g /\ length g = 16%nat /\ all_digits g) /\
  (L1 = L2 -> stable_guid L1 = stable_guid L2).
Proof.
  intros H. split.
  - now apply stable_guid_returns.
  - now intros ->.
Qed.

Lemma stable_guid_sixteen_digits_witness :
  (exists g, stable_guid (lit "https://jobs.unicef.org/job/1") = Returns g /\
             length g = 16%nat /\ all_digits g) /\
  stable_guid (lit "https://jobs.unicef.org/job/1") = Returns (lit "2080850936909961").
Proof.
  split.
  - apply (stable_guid_sixteen_digits (lit "https://jobs.unicef.org/job/1")
                                      (lit "https://jobs.unicef.org/job/1")).
    apply no_surrogates_encodable. reflexivity.
  - vm_compute. reflexivity.
Defined.

(** There are more links than strings of 16 digits. *)

Lemma ascii_digit_In (d : Z) : ascii_digit d = true -> In d DIGITS.
Proof.
  unfold ascii_digit. rewrite andb_true_iff, !Z.leb_le. intros H.
  assert (C : d = 48 \/ d = 49 \/ d = 50 \/ d = 51 \/ d = 52 \/
              d = 53 \/ d = 54 \/ d = 55 \/ d = 56 \/ d = 57) by lia.
  simpl. intuition (subst; auto).
Qed.

Lemma digit_strings_complete (g : str) :
  all_digits g -> In g (digit_strings (length g)).
Proof.
  induction 1 as [|d g Hd _ IH]; cbn [digit_strings length].
  - now left.
  - apply in_flat_map. exists g. split; [exact IH |].
    apply (in_map (fun d => d :: g)), ascii_digit_In, Hd.
Qed.

Lemma repeat_encodable (n : nat) : encodable (repeat 0x61 n).
Proof.
  unfold encodable. induction n; simpl; constructor; auto. lia.
Qed.

Lemma repeat_injective (c : Z) (m n : nat) : repeat c m = repeat c n -> m = n.
Proof.
  intros E. apply (f_equal (@length Z)) in E. now rewrite !repeat_length in E.
Qed.

(** No function from the naturals into a finite list is injective. *)
Lemma pigeonhole {A} (f : nat -> A) (D : list A) :
  (forall n, In (f n) D) -> ~ (forall m n, f m = f n -> m = n).
Proof.
  intros Hin Hinj.
  assert (Hnd : NoDup (map f (seq 0 (S (length D))))).
  { apply Finite.Injective_map_NoDup; [exact Hinj | apply seq_NoDup]. }
  assert (Hincl : incl (map f (seq 0 (S (length D)))) D).
  { intros x Hx. apply in_map_iff in Hx. destruct Hx as [n [<- _]]. apply Hin. }
  pose proof (NoDup_incl_length Hnd Hincl) as Hlen.
  rewrite length_map, length_seq in Hlen. lia.
Qed.

(** C6 as stated fails in one direction: equal guids do not make the
    links equal. *)
Lemma stable_guid_not_injective :
  ~ (forall L1 L2, encodable L1 -> encodable L2 ->
       stable_guid L1 = stable_guid L2 -> L1 = L2).
Proof.
  intros Hinj.
  apply (pigeonhole (fun n => stable_guid (repeat 0x61 n))
                    (map Returns (digit_strings 16))).
  - intros n.
    destruct (stable_guid_returns (repeat 0x61 n) (repeat_encodable n))
      as [g [E [Hlen Hd]]].
    rewrite E. apply in_map. rewrite <- Hlen. now apply digit_strings_complete.
  - intros m n E. apply (repeat_injective 0x61).
    apply Hinj; auto using repeat_encodable.
Qed.

(** ** Dates *)

Section Dates.

Variable w : World.

Lemma parse_pub_date_absent (t : Z) :
  parse_pub_date w t None = Returns (now_utc t) /\
  parse_pub_date w t (Some []) = Returns (now_utc t).
Proof.
  split; reflexivity.
Qed.

(** The RFC-2822 parse comes first, and its value is returned as it
    is. *)
Lemma parse_pub_date_rfc_first (t : Z) (s : str) (dt : datetime) :
  s <> [] -> parsedate_to_datetime w s = Returns dt ->
  parse_pub_date w t (Some s) = Returns dt.
Proof.
  intros Hs E. destruct s as [|c s]; [easy |].
  unfold parse_pub_date. now rewrite E.
Qed.

(** The value of the loop over the formats is aware of its zone. *)
Lemma try_formats_returns_aware (s : str) (formats : list str) (t : Z) :
  strptime_raises_value_error w ->
  exists dt, try_formats w s formats t = Returns dt /\ aware dt = true.
Proof.
  intros Hv. induction formats as [|fmt rest IH]; simpl.
  - eexists. split; reflexivity.
  - destruct (strptime w (strip s) fmt) as [dt|e] eqn:E.
    + eexists. split; [reflexivity |].
      unfold aware. destruct (tzinfo dt) eqn:Etz; simpl; [now rewrite Etz | reflexivity].
    + rewrite (Hv _ _ _ E). exact IH.
Qed.

(** The parse never raises, whatever the string. *)
Lemma parse_pub_date_returns (t : Z) (date_str : option str) :
  strptime_raises_value_error w ->
  exists dt, parse_pub_date w t date_str = Returns dt.
Proof.
  intros Hv. destruct date_str as [[|c s]|]; unfold parse_pub_date; eauto.
  destruct (parsedate_to_datetime w (c :: s)); eauto.
  destruct (try_formats_returns_aware (c :: s) ISO_FORMATS t Hv) as [dt [E _]].
  eauto.
Qed.

(** When every attempt fails the value is the reading of the clock. *)
Lemma parse_pub_date_falls_back (t : Z) (s : str) :
  s <> [] ->
  (exists e, parsedate_to_datetime w s = Raises e) ->
  (forall fmt, In fmt ISO_FORMATS -> strptime w (strip s) fmt = Raises ValueError) ->
  parse_pub_date w t (Some s) = Returns (now_utc t).
Proof.
  intros Hs [e E] Hf. destruct s as [|c s]; [easy |].
  unfold parse_pub_date. rewrite E. unfold ISO_FORMATS, try_formats.
  rewrite !Hf by (simpl; tauto). reflexivity.
Qed.

End Dates.

(** C7: an RFC-2822 date whose zone is -0000 parses to a naive value,
    and [parse_pub_date] returns it naive: UTC is assumed on the ISO
    path alone. *)
Theorem rfc_date_without_zone_stays_naive (t : Z) :
  parse_pub_date demo_world t (Some (lit "Mon, 20 Nov 1995 19:12:08 -0000")) =
    Returns {| wall := 62952491528000000; tzinfo := None |} /\
  parse_pub_date demo_world t (Some (lit "2024-01-15T10:00:00Z")) =
    Returns {| wall := 63840909600000000; tzinfo := Some 0 |}.
Proof.
  split; reflexivity.
Qed.

(** A feed with such a date beside an ordinary one stops the run at
    the sort. *)
Remark naive_date_stops_the_run :
  main latin1 demo_world (lit "https://careers.pageuppeople.com/671/cw/en/rss")
    [listing (lit "Education Specialist, P-4") (lit "https://jobs.unicef.org/job/1")
       (lit "Mon, 20 Nov 1995 19:12:08 -0000");
     listing (lit "Health Specialist, P-3") (lit "https://jobs.unicef.org/job/2")
       (lit "Mon, 15 Jan 2024 10:00:00 +0100")] = Raises TypeError.
Proof.
  vm_compute. reflexivity.
Qed.

(** ** The run *)

Section Sorting.

Lemma insert_newest_perm (x : item) (l : list item) :
  Permutation (insert_newest x l) (x :: l).
Proof.
  induction l as [|y l IH]; simpl; [reflexivity |].
  destruct (instant (i_pub_dt y) <=? instant (i_pub_dt x)); [reflexivity |].
  rewrite IH. apply perm_swap.
Qed.

Lemma sorted_newest_first_perm (l : list item) :
  Permutation (sorted_newest_first l) l.
Proof.
  induction l as [|x l IH]; simpl; [reflexivity |].
  rewrite insert_newest_perm. now constructor.
Qed.

Lemma insert_newest_sorted (x : item) (l : list item) :
  StronglySorted newer_or_equal l -> StronglySorted newer_or_equal (insert_newest x l).
Proof.
  induction 1 as [|y l Hs IH Hy]; simpl.
  - repeat constructor.
  - destruct (Z.leb_spec (instant (i_pub_dt y)) (instant (i_pub_dt x))) as [Hle | Hlt].
    + constructor; [now constructor |]. constructor; [exact Hle |].
      apply Forall_forall. intros z Hz. rewrite Forall_forall in Hy.
      specialize (Hy z Hz). unfold newer_or_equal in *. lia.
    + constructor; [exact IH |].
      apply (Permutation_Forall (Permutation_sym (insert_newest_perm x l))).
      constructor; [unfold newer_or_equal; lia | exact Hy].
Qed.

Lemma sorted_newest_first_sorted (l : list item) :
  StronglySorted newer_or_equal (sorted_newest_first l).
Proof.
  induction l as [|x l IH]; simpl; [constructor | now apply insert_newest_sorted].
Qed.

Lemma sorted_app_inv (l1 l2 : list item) :
  StronglySorted newer_or_equal (l1 ++ l2) ->
  StronglySorted newer_or_equal l1 /\
  forall x y, In x l1 -> In y l2 -> newer_or_equal x y.
Proof.
  induction l1 as [|a l1 IH]; simpl; intros H.
  - split; [constructor | contradiction].
  - inversion H as [|? ? Hs Ha]; subst. destruct (IH Hs) as [IH1 IH2].
    rewrite Forall_app in Ha. destruct Ha as [Ha1 Ha2]. split.
    + now constructor.
    + intros x y [<- | Hx] Hy; [| now apply IH2].
      rewrite Forall_forall in Ha2. now apply Ha2.
Qed.

End Sorting.

Section Counters.

Lemma reason_eqb_eq (a b : reason) : reason_eqb a b = true <-> a = b.
Proof.
  destruct a, b; simpl; split; congruence.
Qed.

Lemma sum_values_incr (r : reason) (c : counter) :
  sum_values (incr r c) = S (sum_values c).
Proof.
  unfold sum_values. induction c as [|[r' n] c IH]; simpl; [reflexivity |].
  destruct (reason_eqb r r'); simpl; [reflexivity |].
  rewrite IH. lia.
Qed.

Lemma count_of_incr (r r' : reason) (c : counter) :
  count_of r (incr r' c) =
  (count_of r c + if reason_eqb r r' then 1 else 0)%nat.
Proof.
  unfold count_of. induction c as [|[r0 n] c IH]; simpl.
  - destruct (reason_eqb r r'); reflexivity.
  - destruct (reason_eqb r' r0) eqn:E0; simpl.
    + apply reason_eqb_eq in E0. subst r0.
      destruct (reason_eqb r r'); simpl; lia.
    + destruct (reason_eqb r r0) eqn:E1; simpl; [| exact IH].
      apply reason_eqb_eq in E1. subst r0.
      destruct (reason_eqb r r') eqn:E2; [| lia].
      apply reason_eqb_eq in E2. subst r'.
      assert (reason_eqb r r = true) by now apply reason_eqb_eq. congruence.
Qed.

End Counters.

Section Run.

Variable u : UCD.
Variable w : World.
Variable source_url : str.

Lemma split_by_passes (raw : list raw_item) :
  (length (filter (passes u w) raw) +
   length (filter (fun it => negb (passes u w it)) raw) = length raw)%nat.
Proof.
  induction raw as [|it raw IH]; simpl; [reflexivity |].
  destruct (passes u w it); simpl; lia.
Qed.

(** What the loop adds to its two accumulators. *)
Lemma filter_items_spec (raw : list raw_item) :
  forall n inc cnt inc' cnt',
    filter_items u w source_url raw n inc cnt = Returns (inc', cnt') ->
    exists added,
      inc' = inc ++ added /\
      Forall2 (made_from w) (filter (passes u w) raw) added /\
      sum_values cnt' =
        (sum_values cnt + length (filter (fun it => negb (passes u w it)) raw))%nat /\
      forall r, count_of r cnt' =
                (count_of r cnt + length (filter (excluded_for u w r) raw))%nat.
Proof.
  induction raw as [|it raw IH]; intros n inc cnt inc' cnt'.
  - cbn [filter_items]. intros E. apply Returns_inj in E. injection E as <- <-.
    exists []. rewrite app_nil_r. simpl. repeat split; auto using Forall2_nil.
  - cbn [filter_items].
    destruct (build_searchable_text w it) as [searchable|e] eqn:Eb; cbn [bind];
      [| discriminate].
    destruct (classify_item u searchable) as [[|] rs] eqn:Ec.
    + assert (Hp : passes u w it = true) by (unfold passes; now rewrite Eb, Ec).
      assert (Hx : forall r, excluded_for u w r it = false)
        by (intros r; unfold excluded_for; now rewrite Eb, Ec).
      destruct (parse_pub_date w (clock w n) (Some (pub_date_str it)))
        as [pub_dt|e] eqn:Ep; cbn [bind]; [| discriminate].
      destruct (strip_html w (description it)) as [text|e] eqn:Ed; cbn [bind];
        [| discriminate].
      destruct (stable_guid (link it)) as [guid|e] eqn:Eg; cbn [bind]; [| discriminate].
      intros E. destruct (IH _ _ _ _ _ E) as [added [-> [Hm [Hs Hc]]]].
      eexists (_ :: added). rewrite <- app_assoc. split; [reflexivity |].
      cbn [filter]. rewrite Hp. cbn [negb]. split; [| split; [exact Hs |]].
      * constructor; [| exact Hm].
        unfold made_from.
        cbn [i_title i_link i_description i_guid i_pubDate i_pub_dt].
        repeat split; eauto.
      * intros r. now rewrite Hx.
    + assert (Hp : passes u w it = false) by (unfold passes; now rewrite Eb, Ec).
      assert (Hx : forall r, excluded_for u w r it = reason_eqb r rs)
        by (intros r; unfold excluded_for; now rewrite Eb, Ec).
      intros E. destruct (IH _ _ _ _ _ E) as [added [-> [Hm [Hs Hc]]]].
      exists added. split; [reflexivity |].
      cbn [filter]. rewrite Hp. cbn [negb]. split; [exact Hm |]. split.
      * rewrite Hs, sum_values_incr. cbn [length]. lia.
      * intros r. rewrite Hc, count_of_incr, Hx.
        destruct (reason_eqb r rs); cbn [length]; lia.
Qed.

(** The items of a finished run, before the cut. *)
Lemma main_spec (raw : list raw_item) (r : run) :
  main u w source_url raw = Returns r ->
  exists candidates,
    Forall2 (made_from w) (filter (passes u w) raw) candidates /\
    written r = firstn MAX_ITEMS (sorted_newest_first candidates) /\
    total r = length raw /\
    included_count r = length (written r) /\
    excluded_count r = length (filter (fun it => negb (passes u w it)) raw) /\
    forall rs, count_of rs (exclusion_reasons r) =
               length (filter (excluded_for u w rs) raw).
Proof.
  unfold main.
  destruct (filter_items u w source_url raw 0 [] []) as [[inc cnt]|e] eqn:F;
    cbn [bind]; [| discriminate].
  unfold sort_newest_first. destruct (same_awareness inc); cbn [bind]; [| discriminate].
  intros E. apply Returns_inj in E. subst r. cbn.
  destruct (filter_items_spec _ _ _ _ _ _ F) as [added [-> [Hm [Hs Hc]]]].
  exists added. cbn in *. repeat split; auto.
Qed.

(** C8: the items written are the included listings, newest first, cut
    to the first 50: what is left out is no newer than what is kept,
    50 are kept when more than 50 pass, and all when 50 or fewer do. *)
Theorem written_items_are_the_newest_fifty (raw : list raw_item) (r : run) :
  main u w source_url raw = Returns r ->
  exists candidates dropped,
    Forall2 (made_from w) (filter (passes u w) raw) candidates /\
    Permutation (written r ++ dropped) candidates /\
    StronglySorted newer_or_equal (written r) /\
    (forall x y, In x (written r) -> In y dropped -> newer_or_equal x y) /\
    length (written r) = Nat.min MAX_ITEMS (length (filter (passes u w) raw)) /\
    (length (filter (passes u w) raw) <= MAX_ITEMS -> dropped = [])%nat.
Proof.
  intros E. destruct (main_spec raw r E) as [cands [Hm [Hw _]]].
  exists cands, (skipn MAX_ITEMS (sorted_newest_first cands)).
  pose proof (sorted_newest_first_sorted cands) as Hs.
  rewrite <- (firstn_skipn MAX_ITEMS (sorted_newest_first cands)) in Hs.
  apply sorted_app_inv in Hs. destruct Hs as [Hs1 Hs2].
  pose proof (Forall2_length Hm) as Hlen.
  pose proof (Permutation_length (sorted_newest_first_perm cands)) as Hpl.
  rewrite Hw. repeat split; auto.
  - rewrite firstn_skipn. apply sorted_newest_first_perm.
  - rewrite length_firstn. lia.
  - intros Hle. apply skipn_all2. lia.
Qed.

(** C10: the included count of the summary is taken after the cut, and
    the counters of the exclusion reasons count the listings the
    classifier excluded, these alone; with more than 50 included
    listings the counts of the summary do not add up to the total. *)
Theorem summary_counts_after_the_cut (raw : list raw_item) (r : run) :
  main u w source_url raw = Returns r ->
  total r = length raw /\
  included_count r = Nat.min MAX_ITEMS (length (filter (passes u w) raw)) /\
  excluded_count r = length (filter (fun it => negb (passes u w it)) raw) /\
  (forall rs, count_of rs (exclusion_reasons r) =
              length (filter (excluded_for u w rs) raw)) /\
  ((MAX_ITEMS < length (filter (passes u w) raw))%nat ->
   included_count r = MAX_ITEMS /\
   (included_count r + excluded_count r < total r)%nat).
Proof.
  intros E. destruct (main_spec raw r E) as [cands [Hm [Hw [Ht [Hi [He Hc]]]]]].
  pose proof (Forall2_length Hm) as Hlen.
  pose proof (Permutation_length (sorted_newest_first_perm cands)) as Hpl.
  assert (Hinc : included_count r = Nat.min MAX_ITEMS (length (filter (passes u w) raw))).
  { rewrite Hi, Hw, length_firstn. lia. }
  pose proof (split_by_passes raw) as Hsplit.
  repeat split; auto; lia.
Qed.

End Run.

(** ** When the run finishes *)

Section Finishes.

Variable u : UCD.
Variable w : World.
Variable source_url : str.

Hypothesis strptime_ok : strptime_raises_value_error w.
Hypothesis rfc_aware :
  forall s dt, parsedate_to_datetime w s = Returns dt -> aware dt = true.

Lemma parse_pub_date_aware (t : Z) (date_str : option str) :
  exists dt, parse_pub_date w t date_str = Returns dt /\ aware dt = true.
Proof.
  destruct date_str as [[|c s]|]; unfold parse_pub_date;
    try (eexists; split; reflexivity).
  destruct (parsedate_to_datetime w (c :: s)) as [dt|e] eqn:E.
  - exists dt. split; [reflexivity | exact (rfc_aware _ _ E)].
  - apply try_formats_returns_aware, strptime_ok.
Qed.

Lemma filter_items_returns (raw : list raw_item) :
  Forall (fun it => readable w it /\ encodable (link it)) raw ->
  forall n inc cnt,
    Forall has_zone inc ->
    exists inc' cnt',
      filter_items u w source_url raw n inc cnt = Returns (inc', cnt') /\
      Forall has_zone inc'.
Proof.
  induction 1 as [|it raw [[text Hr] Hit] _ IH]; intros n inc cnt Hinc;
    cbn [filter_items].
  - eauto.
  - unfold build_searchable_text. rewrite Hr. cbn [bind].
    destruct (classify_item u _) as [[|] rs].
    + destruct (parse_pub_date_aware (clock w n) (Some (pub_date_str it)))
        as [dt [-> Hdt]].
      destruct (stable_guid_returns (link it) Hit) as [g [-> _]]. cbn [bind].
      apply IH. apply Forall_app. split; [exact Hinc |]. now repeat constructor.
    + apply IH, Hinc.
Qed.

Lemma same_awareness_zones (l : list item) : Forall has_zone l -> same_awareness l = true.
Proof.
  destruct 1 as [|x l Hx Hl]; [reflexivity |]. cbn [same_awareness].
  apply forallb_forall. intros y Hy. rewrite Forall_forall in Hl.
  unfold has_zone in *. now rewrite Hx, (Hl y Hy).
Qed.

(** With parsers that behave, markup that is read and links that have
    an encoding, the run reaches its summary. *)
Lemma main_returns (raw : list raw_item) :
  Forall (fun it => readable w it /\ encodable (link it)) raw ->
  exists r, main u w source_url raw = Returns r.
Proof.
  intros H. destruct (filter_items_returns raw H 0%nat [] [] (Forall_nil _))
    as [inc [cnt [E Hz]]].
  unfold main. rewrite E. cbn [bind]. unfold sort_newest_first.
  rewrite (same_awareness_zones inc Hz). cbn [bind]. eauto.
Qed.

End Finishes.

Lemma written_items_are_the_newest_fifty_witness :
  exists r,
    main latin1 demo_world FEED_URL (demo_feed 51) = Returns r /\
    length (written r) = 50%nat /\
    StronglySorted newer_or_equal (written r) /\
    exists candidates dropped,
      length candidates = 51%nat /\ length dropped = 1%nat /\
      Permutation (written r ++ dropped) candidates /\
      forall x y, In x (written r) -> In y dropped -> newer_or_equal x y.
Proof.
  destruct (main latin1 demo_world FEED_URL (demo_feed 51)) as [r|e] eqn:E.
  - exists r. split; [reflexivity |].
    destruct (written_items_are_the_newest_fifty latin1 demo_world FEED_URL
                (demo_feed 51) r E) as [cands [dropped [Hm [Hp [Hs [Hn [Hl _]]]]]]].
    assert (Hpass : length (filter (passes latin1 demo_world) (demo_feed 51)) = 51%nat)
      by (vm_compute; reflexivity).
    rewrite Hpass in Hl. split; [exact Hl |]. split; [exact Hs |].
    exists cands, dropped.
    pose proof (Forall2_length Hm) as Hc. rewrite Hpass in Hc.
    pose proof (Permutation_length Hp) as Hpl. rewrite length_app, Hl in Hpl.
    repeat split; auto. simpl in Hpl. lia.
  - vm_compute in E. discriminate.
Defined.

Lemma summary_counts_after_the_cut_witness :
  exists r,
    main latin1 demo_world FEED_URL (demo_feed 51) = Returns r /\
    total r = 54%nat /\ included_count r = 50%nat /\ excluded_count r = 3%nat /\
    count_of excluded_grade (exclusion_reasons r) = 1%nat /\
    count_of consultancy (exclusion_reasons r) = 1%nat /\
    count_of no_grade_match (exclusion_reasons r) = 1%nat.
Proof.
  destruct (main latin1 demo_world FEED_URL (demo_feed 51)) as [r|e] eqn:E.
  - exists r. split; [reflexivity |].
    destruct (summary_counts_after_the_cut latin1 demo_world FEED_URL
                (demo_feed 51) r E) as [Ht [Hi [He [Hc _]]]].
    rewrite Ht, Hi, He, !Hc. vm_compute. repeat split; reflexivity.
  - vm_compute in E. discriminate.
Defined.

(** ** Keywords in a text *)

Lemma startswith_spec (s p : str) : startswith s p = true <-> exists b, s = p ++ b.
Proof.
  revert s. induction p as [|x p IH]; intros s; simpl.
  - split; [intros _; now exists s | intros _; now destruct s].
  - destruct s as [|y s]; simpl.
    + split; [discriminate | intros [b E]; discriminate].
    + rewrite andb_true_iff, Z.eqb_eq, IH. split.
      * intros [-> [b ->]]. now exists b.
      * intros [b E]. injection E as -> ->. split; eauto.
Qed.

Lemma contains_spec (text kw : str) : contains text kw = true <-> occurs_in kw text.
Proof.
  unfold occurs_in. induction text as [|c text IH]; cbn [contains].
  - rewrite orb_false_r, startswith_spec. split.
    + intros [b E]. now exists [], b.
    + intros [a [b E]]. destruct a; [| discriminate]. now exists b.
  - rewrite orb_true_iff, startswith_spec, IH. split.
    + intros [[b E] | [a [b E]]].
      * now exists [], b.
      * exists (c :: a), b. simpl. now f_equal.
    + intros [[|x a] [b E]].
      * left. now exists b.
      * right. exists a, b. simpl in E. now injection E.
Qed.

Lemma occurs_in_refl (s : str) : occurs_in s s.
Proof.
  exists [], []. now rewrite app_nil_r.
Qed.

Lemma occurs_in_trans (a b c : str) : occurs_in a b -> occurs_in b c -> occurs_in a c.
Proof.
  intros [x [y ->]] [x' [y' ->]]. exists (x' ++ x), (y ++ y').
  now rewrite <- !app_assoc.
Qed.

Lemma occurs_in_app (k a s b : str) : occurs_in k s -> occurs_in k (a ++ s ++ b).
Proof.
  intros H. apply (occurs_in_trans _ _ _ H). now exists a, b.
Qed.

Lemma has_keyword_evidence (text : str) (keywords : list str) :
  has_keyword text keywords = true <-> exists kw, In kw keywords /\ occurs_in kw text.
Proof.
  unfold has_keyword. rewrite existsb_exists. split.
  - intros [kw [Hin Hc]]. exists kw. split; [exact Hin | now apply contains_spec].
  - intros [kw [Hin Hc]]. exists kw. split; [exact Hin | now apply contains_spec].
Qed.

(** X1: [has_keyword] says whether one of the keywords stands
    somewhere in the text; it finds nothing in any text when there is
    no keyword, and an empty keyword in every text. *)
Theorem has_keyword_finds_substrings (text : str) (keywords : list str) :
  (has_keyword text keywords = true <->
   exists kw, In kw keywords /\ occurs_in kw text) /\
  has_keyword text [] = false /\
  (In [] keywords -> has_keyword text keywords = true).
Proof.
  pose proof (has_keyword_evidence text keywords) as S.
  split; [exact S |]. split; [reflexivity |].
  intros Hin. apply S. exists []. split; [exact Hin |]. now exists [], text.
Qed.

Lemma has_keyword_occurs (k s : str) (keywords : list str) :
  occurs_in k s -> has_keyword k keywords = true -> has_keyword s keywords = true.
Proof.
  unfold has_keyword. rewrite !existsb_exists. intros Hks [kw [Hin Hc]].
  exists kw. split; [exact Hin |]. apply contains_spec.
  apply contains_spec in Hc. exact (occurs_in_trans _ _ _ Hc Hks).
Qed.

(** ** The normal form of a text *)

Lemma tidy_spaces (b : bool) (s : str) (c : Z) :
  tidy b s -> In c s -> is_space c = true -> c = 0x20.
Proof.
  revert b. induction s as [|d s IH]; intros b; simpl; [tauto |].
  destruct (is_space d) eqn:Ed.
  - intros [-> [_ H]] [<- | Hin] Hc; [reflexivity | exact (IH _ H Hin Hc)].
  - intros H [<- | Hin] Hc; [congruence | exact (IH _ H Hin Hc)].
Qed.

Lemma tidy_no_pair (b : bool) (l1 l2 : str) (x y : Z) :
  tidy b (l1 ++ x :: y :: l2) -> is_space x = true -> is_space y = false.
Proof.
  intros H Hx. apply tidy_app_r in H. simpl in H. rewrite Hx in H.
  destruct H as [_ [_ H]]. destruct (is_space y); [| reflexivity].
  destruct H as [_ [H _]]. discriminate.
Qed.

Lemma tidy_of_pairs (s : str) :
  (forall c, In c s -> is_space c = true -> c = 0x20) ->
  (forall l1 x y l2, s = l1 ++ x :: y :: l2 -> is_space x = true -> is_space y = false) ->
  tidy false s.
Proof.
  induction s as [|c s IH]; intros Hsp Hpair; simpl; [exact I |].
  assert (IHs : tidy false s).
  { apply IH.
    - intros d Hd. apply Hsp. now right.
    - intros l1 x y l2 E. apply (Hpair (c :: l1) x y l2). simpl. now f_equal. }
  destruct (is_space c) eqn:Ec; [| exact IHs].
  split; [apply Hsp; [now left | exact Ec] |]. split; [reflexivity |].
  destruct s as [|d s]; [exact I |].
  assert (Ed : is_space d = false) by (apply (Hpair [] c d s); [reflexivity | exact Ec]).
  simpl in *. now rewrite Ed in *.
Qed.

Lemma clean_end_last (s l : str) (c : Z) :
  clean_start (rev s) -> s = l ++ [c] -> is_space c = false.
Proof.
  intros H ->. rewrite rev_app_distr in H. exact H.
Qed.

Lemma clean_end_of_last (s : str) :
  (forall c l, s = l ++ [c] -> is_space c = false) -> clean_start (rev s).
Proof.
  intros H. destruct (rev s) as [|c l] eqn:E; [exact I |].
  simpl. apply (H c (rev l)). apply (f_equal (@rev Z)) in E.
  now rewrite rev_involutive in E.
Qed.

Section NormalForm.

Variable u : UCD.

Lemma normalize_tidy (text : str) : tidy false (normalize u text).
Proof.
  rewrite normalize_eq.
  destruct (strip_infix (squeeze is_space (lit " ") false
                           (flat_map dash_to_hyphen (upper u text)))) as [l1 [l2 E]].
  pose proof (tidy_squeeze false (flat_map dash_to_hyphen (upper u text))) as Ht.
  rewrite E in Ht. apply tidy_app_r in Ht. now apply tidy_app_l in Ht.
Qed.

Lemma normalize_clean (text : str) :
  clean_start (normalize u text) /\ clean_start (rev (normalize u text)).
Proof.
  rewrite normalize_eq. unfold strip. split.
  - apply rstrip_clean, lstrip_clean.
  - rewrite rev_involutive. apply lstrip_clean.
Qed.

Lemma normalize_no_dash (text : str) (c : Z) :
  In c (normalize u text) -> is_dash c = false.
Proof.
  intros H. apply normalize_In in H. destruct H as [-> | [-> | [_ H]]];
    [reflexivity | reflexivity | exact H].
Qed.

(** A text in normal form is left as it is. *)
Lemma normalize_fixed (s : str) :
  upper u s = s ->
  (forall c, In c s -> is_dash c = false) ->
  tidy false s -> clean_start s -> clean_start (rev s) ->
  normalize u s = s.
Proof.
  intros Hu Hd Ht Hs He. rewrite normalize_eq, Hu.
  assert (D : flat_map dash_to_hyphen s = s).
  { apply flat_map_fixed. intros c Hc. unfold dash_to_hyphen. now rewrite (Hd c Hc). }
  rewrite D, (squeeze_tidy false s Ht). now apply strip_fixed.
Qed.

Hypothesis laws : UCD_laws u.

Lemma upper_normalize (text : str) : upper u (normalize u text) = normalize u text.
Proof.
  apply flat_map_fixed. intros c Hc. now apply (normalize_chars u laws) in Hc.
Qed.

Lemma upper_upper (text : str) : upper u (upper u text) = upper u text.
Proof.
  apply flat_map_fixed. intros c Hc. unfold upper in Hc.
  apply in_flat_map in Hc. destruct Hc as [d [_ Hd]].
  exact (upper_fixed u laws d c Hd).
Qed.

(** X2: what [normalize] returns is in normal form (upper-cased, no
    dash of the class left, every white-space character a single
    U+0020, none at the start or the end), and the texts in normal form
    are exactly those that [normalize] leaves as they are. *)
Theorem normalize_normal_forms (text s : str) :
  normal_form u (normalize u text) /\
  (normalize u s = s <-> normal_form u s).
Proof.
  assert (N : forall t, normal_form u (normalize u t)).
  { intros t. pose proof (normalize_tidy t) as Ht.
    destruct (normalize_clean t) as [Hs He].
    split; [apply upper_normalize |]. split; [| split; [| split]].
    - intros c Hc. split; [now apply normalize_no_dash in Hc |].
      now apply (tidy_spaces false (normalize u t)).
    - intros l1 x y l2 E. rewrite E in Ht. exact (tidy_no_pair _ _ _ _ _ Ht).
    - intros c l E. rewrite E in Hs. exact Hs.
    - intros c l E. exact (clean_end_last _ _ _ He E). }
  split; [apply N |]. split.
  - intros E. rewrite <- E. apply N.
  - intros [Hu [Hc [Hp [Hs He]]]]. apply normalize_fixed.
    + exact Hu.
    + intros c Hin. exact (proj1 (Hc c Hin)).
    + apply tidy_of_pairs; [| exact Hp]. intros c Hin. exact (proj2 (Hc c Hin)).
    + destruct s as [|c l]; [exact I | exact (Hs c l eq_refl)].
    + now apply clean_end_of_last.
Qed.

Lemma normalize_twice (text : str) : normalize u (normalize u text) = normalize u text.
Proof.
  apply normalize_fixed.
  - apply upper_normalize.
  - intros c. apply normalize_no_dash.
  - apply normalize_tidy.
  - apply normalize_clean.
  - apply normalize_clean.
Qed.

Lemma normalize_upper (text : str) : normalize u (upper u text) = normalize u text.
Proof.
  now rewrite !normalize_eq, upper_upper.
Qed.

(** X3: the classification looks at the normal form alone: a text, its
    upper-cased form and its normal form are classified alike. *)
Theorem classification_ignores_case_and_spacing (text : str) :
  classify_item u (upper u text) = classify_item u text /\
  classify_item u (normalize u text) = classify_item u text.
Proof.
  unfold classify_item. now rewrite normalize_upper, normalize_twice.
Qed.

End NormalForm.

Lemma normalize_normal_forms_witness :
  normal_form latin1 (lit "CHIEF, CHILD PROTECTION - P-4") /\
  normalize latin1 (lit "CHIEF, CHILD PROTECTION - P-4") = lit "CHIEF, CHILD PROTECTION - P-4".
Proof.
  destruct (normalize_normal_forms latin1 latin1_laws
              (lit "Chief,  Child Protection - p-4 ")
              (lit "CHIEF, CHILD PROTECTION - P-4")) as [N F].
  split; [exact N | apply F; exact N].
Defined.

Lemma classification_ignores_case_and_spacing_witness :
  classify_item latin1 (lit "EDUCATION SPECIALIST, P4") =
    classify_item latin1 (lit "Education   specialist, p4 ") /\
  classify_item latin1 (lit "Education   specialist, p4 ") = (include, included_grade).
Proof.
  destruct (classification_ignores_case_and_spacing latin1 latin1_laws
              (lit "Education   specialist, p4 ")) as [_ E].
  split; [exact E | reflexivity].
Defined.

(** ** A text inside a longer one *)

Lemma squeeze_app (p : Z -> bool) (r : str) (b : bool) (l1 l2 : str) :
  exists b', squeeze p r b (l1 ++ l2) = squeeze p r b l1 ++ squeeze p r b' l2.
Proof.
  revert b. induction l1 as [|c l1 IH]; intros b; simpl.
  - now exists b.
  - destruct (p c).
    + destruct (IH true) as [b' E]. exists b'. rewrite E.
      destruct b; [reflexivity | now rewrite app_assoc].
    + destruct (IH false) as [b' E]. exists b'. now rewrite E.
Qed.

(** Whether a run of spaces was under way changes at most a leading
    space of the result. *)
Lemma squeeze_lead (b : bool) (s : str) :
  exists pad, Forall (fun c => is_space c = true) pad /\
              squeeze is_space (lit " ") false s = pad ++ squeeze is_space (lit " ") b s.
Proof.
  destruct b; [| exists []; split; [constructor | reflexivity]].
  destruct s as [|c s]; simpl; [exists []; split; [constructor | reflexivity] |].
  destruct (is_space c).
  - exists (lit " "). split; [repeat constructor | reflexivity].
  - exists []. split; [constructor | reflexivity].
Qed.

Lemma lstrip_spaces (pad s : str) :
  Forall (fun c => is_space c = true) pad -> lstrip (pad ++ s) = lstrip s.
Proof.
  unfold lstrip. induction 1 as [|c pad Hc _ IH]; simpl; [reflexivity |].
  now rewrite Hc.
Qed.

Lemma lstrip_app (x z : str) :
  z <> [] -> clean_start z -> lstrip (x ++ z) = lstrip x ++ z.
Proof.
  intros Hz Hc. unfold lstrip. induction x as [|c x IH]; simpl.
  - destruct z as [|d z]; [easy |]. simpl in *. now rewrite Hc.
  - destruct (is_space c); [exact IH | reflexivity].
Qed.

Lemma clean_start_app (k y : str) : k <> [] -> clean_start k -> clean_start (k ++ y).
Proof.
  destruct k; [easy | now simpl].
Qed.

(** Stripping keeps a text that starts and ends with a character that
    is no space, wherever it stands. *)
Lemma strip_keeps (x k y : str) :
  k <> [] -> clean_start k -> clean_start (rev k) ->
  exists x' y', strip (x ++ k ++ y) = x' ++ k ++ y'.
Proof.
  intros Hk Hs He. unfold strip.
  rewrite (lstrip_app x (k ++ y)) by
    (first [now apply clean_start_app | destruct k; [easy | discriminate]]).
  rewrite !rev_app_distr, <- app_assoc.
  assert (Hr : rev k <> []).
  { intros E. apply (f_equal (@rev Z)) in E. now rewrite rev_involutive in E. }
  rewrite (lstrip_app (rev y) (rev k ++ rev (lstrip x))) by
    (first [now apply clean_start_app | destruct (rev k); [easy | discriminate]]).
  rewrite !rev_app_distr, !rev_involutive, <- app_assoc.
  now exists (lstrip x), (rev (lstrip (rev y))).
Qed.

Section Parts.

Variable u : UCD.

(** The normal form of a text that holds a part holds the normal form
    of the part: what stands around a part changes nothing inside it. *)
Lemma normalize_part (pre part post : str) :
  occurs_in (normalize u part) (normalize u (pre ++ part ++ post)).
Proof.
  destruct (normalize u part) as [|k0 k] eqn:Ek.
  { exists (normalize u (pre ++ part ++ post)), []. now rewrite !app_nil_r. }
  rewrite <- Ek. clear k0 k Ek.
  rewrite !normalize_eq. unfold upper. rewrite !flat_map_app.
  fold (upper u pre) (upper u part) (upper u post).
  set (P := flat_map dash_to_hyphen (upper u pre)).
  set (W := flat_map dash_to_hyphen (upper u part)).
  set (Q := flat_map dash_to_hyphen (upper u post)).
  destruct (squeeze_app is_space (lit " ") false P (W ++ Q)) as [b1 E1].
  destruct (squeeze_app is_space (lit " ") b1 W Q) as [b2 E2].
  rewrite E1, E2.
  destruct (squeeze_lead b1 W) as [pad [Hpad E3]].
  assert (E4 : strip (squeeze is_space (lit " ") false W) =
               strip (squeeze is_space (lit " ") b1 W)).
  { rewrite E3. unfold strip. now rewrite lstrip_spaces. }
  rewrite E4.
  set (S := squeeze is_space (lit " ") b1 W).
  destruct (strip S) as [|k0 k] eqn:Ek.
  { eexists _, []. now rewrite !app_nil_r. }
  assert (Hs : clean_start (strip S)).
  { unfold strip. apply rstrip_clean, lstrip_clean. }
  assert (He : clean_start (rev (strip S))).
  { unfold strip. rewrite rev_involutive. apply lstrip_clean. }
  destruct (strip_infix S) as [l1 [l2 E]].
  rewrite Ek in Hs, He, E. rewrite E.
  replace (squeeze is_space (lit " ") false P ++
           (l1 ++ (k0 :: k) ++ l2) ++ squeeze is_space (lit " ") b2 Q)
    with ((squeeze is_space (lit " ") false P ++ l1) ++ (k0 :: k) ++
          (l2 ++ squeeze is_space (lit " ") b2 Q))
    by (now rewrite <- !app_assoc).
  destruct (strip_keeps (squeeze is_space (lit " ") false P ++ l1) (k0 :: k)
              (l2 ++ squeeze is_space (lit " ") b2 Q)) as [x' [y' ->]];
    [discriminate | exact Hs | exact He |].
  now exists x', y'.
Qed.

Lemma consultancy_iff (text : str) :
  classify_item u text = (exclude, consultancy) <->
  has_keyword (normalize u text) CONSULTANCY_KEYWORDS = true.
Proof.
  unfold classify_item.
  destruct (has_keyword (normalize u text) CONSULTANCY_KEYWORDS); [easy |].
  destruct (existsb is_excluded_grade _); [easy |].
  destruct (existsb _ _); [easy |].
  destruct (has_keyword _ _); easy.
Qed.

(** X4: a text holding a part that is classified as a consultancy on
    its own is classified as a consultancy, whatever stands around the
    part. *)
Theorem consultancy_of_a_part (pre part post : str) :
  classify_item u part = (exclude, consultancy) ->
  classify_item u (pre ++ part ++ post) = (exclude, consultancy).
Proof.
  rewrite !consultancy_iff. apply has_keyword_occurs, normalize_part.
Qed.

Lemma join_occurs (sep p : str) (parts : list str) :
  In p parts -> occurs_in p (join sep parts).
Proof.
  induction parts as [|q rest IH]; [easy |].
  intros [-> | Hin].
  - destruct rest as [|q' rest]; [apply occurs_in_refl |].
    exists [], (sep ++ join sep (q' :: rest)). reflexivity.
  - destruct rest as [|q' rest]; [easy |].
    destruct (IH Hin) as [a [b E]].
    exists (q ++ sep ++ a), b. cbn [join] in *. rewrite E. now rewrite <- !app_assoc.
Qed.

Variable w : World.

(** X5: a listing whose description is read to a text, and whose
    title, whose description without its markup, or one of whose
    categories is classified as a consultancy on its own, has a
    searchable text that is classified as a consultancy, and does not
    pass. *)
Theorem consultancy_in_any_field (it : raw_item) (text part : str) :
  strip_html w (description it) = Returns text ->
  In part (title it :: text :: categories it) ->
  classify_item u part = (exclude, consultancy) ->
  exists searchable,
    build_searchable_text w it = Returns searchable /\
    classify_item u searchable = (exclude, consultancy) /\
    passes u w it = false.
Proof.
  intros Hr Hin Hc.
  assert (Eb : build_searchable_text w it =
               Returns (join (lit " ") (title it :: text :: categories it))).
  { unfold build_searchable_text. now rewrite Hr. }
  assert (E : classify_item u (join (lit " ") (title it :: text :: categories it)) =
              (exclude, consultancy)).
  { destruct (join_occurs (lit " ") part _ Hin) as [a [b E]]. rewrite E.
    apply consultancy_iff. apply consultancy_iff in Hc.
    exact (has_keyword_occurs _ _ _ (normalize_part a part b) Hc). }
  eexists. split; [exact Eb |]. split; [exact E |].
  unfold passes. now rewrite Eb, E.
Qed.

End Parts.

Lemma consultancy_of_a_part_witness :
  classify_item latin1 (lit "consultant") = (exclude, consultancy) /\
  classify_item latin1 (lit "Senior consultants (P-4), Geneva") = (exclude, consultancy).
Proof.
  split; [reflexivity |].
  apply (consultancy_of_a_part latin1 (lit "Senior ") (lit "consultant")
           (lit "s (P-4), Geneva")).
  reflexivity.
Defined.

Lemma consultancy_in_any_field_witness :
  exists searchable,
    build_searchable_text demo_world
      {| title := lit "Education Specialist, P-4";
         link := lit "https://jobs.unicef.org/job/7";
         description := [];
         pub_date_str := [];
         categories := [lit "Programme"; lit "Consultancy"] |} = Returns searchable /\
    classify_item latin1 searchable = (exclude, consultancy) /\
    passes latin1 demo_world
      {| title := lit "Education Specialist, P-4";
         link := lit "https://jobs.unicef.org/job/7";
         description := [];
         pub_date_str := [];
         categories := [lit "Programme"; lit "Consultancy"] |} = false.
Proof.
  apply (consultancy_in_any_field latin1 demo_world _ [] (lit "Consultancy")).
  - reflexivity.
  - simpl. tauto.
  - reflexivity.
Defined.

(** ** What a pattern matches *)

Lemma firstn_matched (m s' : str) :
  firstn (length (m ++ s') - length s') (m ++ s') = m.
Proof.
  rewrite length_app, Nat.add_sub. rewrite firstn_app, Nat.sub_diag, firstn_all.
  simpl. apply app_nil_r.
Qed.

Section Soundness.

Variable w : Z -> bool.

Lemma plus_loop_sound (p : Z -> bool) (k : Re.kont) (cs : Re.caps) (s : str) :
  forall prev res,
    Re.plus_loop p k cs prev s = Some res ->
    exists m s' prev', s = m ++ s' /\ matches (Re.Plus p) m /\ k cs prev' s' = Some res.
Proof.
  induction s as [|x s IH]; intros prev res; cbn [Re.plus_loop]; [discriminate |].
  destruct (p x) eqn:Hx; [| discriminate].
  destruct (Re.plus_loop p k cs (Some x) s) as [res'|] eqn:E.
  - intros H. injection H as <-.
    destruct (IH _ _ E) as [m [s' [prev' [-> [Hm Hk]]]]].
    exists (x :: m), s', prev'. repeat split; [now constructor | exact Hk].
  - intros H. exists [x], s, (Some x). repeat split; [now constructor | exact H].
Qed.

(** A successful match consumed a text of the pattern, and went on
    with the rest. *)
Lemma rmatch_sound (r : Re.regex) :
  forall k cs prev s res,
    Re.rmatch w r k cs prev s = Some res ->
    exists m s' cs' prev', s = m ++ s' /\ matches r m /\ k cs' prev' s' = Some res.
Proof.
  induction r as [| c | p | | r1 IH1 r2 IH2 | r1 IH1 r2 IH2 | p | i r IH];
    intros k cs prev s res; cbn [Re.rmatch].
  - intros H. exists [], s, cs, prev. repeat split; [constructor | exact H].
  - destruct s as [|x s]; [discriminate |].
    destruct (Z.eqb_spec x c) as [-> |]; [| discriminate].
    intros H. exists [c], s, cs, (Some c). repeat split; [constructor | exact H].
  - destruct s as [|x s]; [discriminate |].
    destruct (p x) eqn:Hx; [| discriminate].
    intros H. exists [x], s, cs, (Some x). repeat split; [now constructor | exact H].
  - destruct (xorb _ _); [| discriminate].
    intros H. exists [], s, cs, prev. repeat split; [constructor | exact H].
  - intros H. destruct (IH1 _ _ _ _ _ H) as [m1 [s1 [cs1 [prev1 [-> [Hm1 H1]]]]]].
    destruct (IH2 _ _ _ _ _ H1) as [m2 [s2 [cs2 [prev2 [-> [Hm2 H2]]]]]].
    exists (m1 ++ m2), s2, cs2, prev2. rewrite <- app_assoc.
    repeat split; [now constructor | exact H2].
  - destruct (Re.rmatch w r1 k cs prev s) as [res'|] eqn:E.
    + intros H. injection H as <-.
      destruct (IH1 _ _ _ _ _ E) as [m [s' [cs' [prev' [-> [Hm Hk]]]]]].
      exists m, s', cs', prev'. repeat split; [now apply m_or_l | exact Hk].
    + intros H. destruct (IH2 _ _ _ _ _ H) as [m [s' [cs' [prev' [-> [Hm Hk]]]]]].
      exists m, s', cs', prev'. repeat split; [now apply m_or_r | exact Hk].
  - intros H. destruct (plus_loop_sound _ _ _ _ _ _ H) as [m [s' [prev' [-> [Hm Hk]]]]].
    now exists m, s', cs, prev'.
  - intros H. destruct (IH _ _ _ _ _ H) as [m [s' [cs' [prev' [-> [Hm Hk]]]]]].
    rewrite firstn_matched in Hk.
    exists m, s', (Re.set_cap i m cs'), prev'. repeat split; [now constructor | exact Hk].
Qed.

Lemma match_at_sound (r : Re.regex) (prev : option Z) (s : str) (cs : Re.caps) (n : nat) :
  Re.match_at w r prev s = Some (cs, n) ->
  exists rest, s = firstn n s ++ rest /\ matches r (firstn n s).
Proof.
  unfold Re.match_at.
  destruct (Re.rmatch w r (fun cs _ s' => Some (cs, s')) Re.no_caps prev s)
    as [[cs0 s0]|] eqn:E; [| discriminate].
  intros H. injection H as <- <-.
  destruct (rmatch_sound r _ _ _ _ _ E) as [m [s' [cs' [prev' [-> [Hm Hk]]]]]].
  injection Hk as _ <-. rewrite firstn_matched. now exists s'.
Qed.

(** What [re.findall] returns are texts of the pattern that stand in
    the text searched. *)
Lemma findall_scan_sound (r : Re.regex) (g : str) (s : str) :
  forall prev skip,
    In g (Re.findall_scan w r prev s skip) -> occurs_in g s /\ matches r g.
Proof.
  induction s as [|c s IH]; intros prev skip; cbn [Re.findall_scan]; [easy |].
  assert (Hrest : forall prev' skip', In g (Re.findall_scan w r prev' s skip') ->
                                       occurs_in g (c :: s) /\ matches r g).
  { intros prev' skip' H. destruct (IH _ _ H) as [[a [b E]] Hm].
    split; [| exact Hm]. exists (c :: a), b. simpl. now f_equal. }
  destruct skip as [|n]; [| apply Hrest].
  destruct (Re.match_at w r prev (c :: s)) as [[cs n]|] eqn:E; [| apply Hrest].
  intros [<- | H]; [| exact (Hrest _ _ H)].
  destruct (match_at_sound _ _ _ _ _ E) as [rest [Es Hm]].
  split; [| exact Hm]. exists [], rest. exact Es.
Qed.

End Soundness.

Lemma matches_text (t m : str) : matches (Re.text t) m -> m = t.
Proof.
  revert m. induction t as [|c t IH]; intros m H; cbn in H.
  - now inversion H.
  - inversion H as [| | | | r1 r2 a b Ha Hb | | | | |]; subst.
    inversion Ha; subst. simpl. f_equal. now apply IH.
Qed.

Lemma matches_alt (rs : list Re.regex) (m : str) :
  matches (Re.alt rs) m -> exists r, In r rs /\ matches r m.
Proof.
  induction rs as [|r rs IH]; cbn [Re.alt].
  - intros H. inversion H; subst. discriminate.
  - destruct rs as [|r' rs].
    + intros H. exists r. split; [now left | exact H].
    + intros H. inversion H; subst.
      * exists r. split; [now left | assumption].
      * destruct IH as [r0 [Hin Hm]]; [assumption |].
        exists r0. split; [now right | exact Hm].
Qed.

Lemma matches_alt_text (ts : list str) (m : str) :
  matches (Re.alt (map Re.text ts)) m -> In m ts.
Proof.
  intros H. apply matches_alt in H. destruct H as [r [Hin Hm]].
  apply in_map_iff in Hin. destruct Hin as [t [<- Ht]].
  apply matches_text in Hm. now subst.
Qed.

Lemma matches_plus (p : Z -> bool) (m : str) :
  matches (Re.Plus p) m -> m <> [] /\ Forall (fun c => p c = true) m.
Proof.
  remember (Re.Plus p) as r eqn:Er. induction 1; try discriminate; injection Er as ->.
  - split; [discriminate | now repeat constructor].
  - split; [discriminate |]. constructor; [assumption |]. now apply IHmatches.
Qed.

(** ** The grade tokens *)

Section Tokens.

Variable u : UCD.

Lemma numbered_grade_shape (g : str) :
  matches (numbered_grade u) g ->
  exists p ds, In p EXTRACTED_PREFIXES /\ ds <> [] /\
               Forall (fun c => is_decimal u c = true) ds /\
               g = p ++ lit "-" ++ ds.
Proof.
  unfold numbered_grade. intros H.
  inversion H as [| | | | ? ? a1 b1 Ha1 Hb1 | | | | |]; subst.
  inversion Ha1; subst.
  inversion Hb1 as [| | | | ? ? a2 b2 Ha2 Hb2 | | | | |]; subst.
  inversion Hb2 as [| | | | ? ? a3 b3 Ha3 Hb3 | | | | |]; subst.
  inversion Ha3; subst.
  inversion Hb3 as [| | | | ? ? a4 b4 Ha4 Hb4 | | | | |]; subst.
  inversion Hb4; subst.
  pose proof (matches_alt_text EXTRACTED_PREFIXES a2 Ha2) as Hp.
  apply matches_plus in Ha4. destruct Ha4 as [Hne Hd].
  exists a2, a4. rewrite app_nil_r. now repeat split.
Qed.

Lemma lettered_grade_shape (g : str) :
  matches lettered_grade g -> In g EXCLUDED_NO_VARIANTS.
Proof.
  unfold lettered_grade. intros H.
  inversion H as [| | | | ? ? a1 b1 Ha1 Hb1 | | | | |]; subst.
  inversion Ha1; subst.
  inversion Hb1 as [| | | | ? ? a2 b2 Ha2 Hb2 | | | | |]; subst.
  inversion Hb2; subst. rewrite app_nil_r. cbn [app].
  assert (L : forall x, is_A_to_D x = true -> x = 0x41 \/ x = 0x42 \/ x = 0x43 \/ x = 0x44).
  { intros x Hx. unfold is_A_to_D in Hx. apply andb_true_iff in Hx. lia. }
  inversion Ha2 as [| | | | | ? ? a Hl | ? ? a Hr | | |]; subst.
  - inversion Hl as [| | | | ? ? a3 b3 Ha3 Hb3 | | | | |]; subst.
    pose proof (matches_text (lit "NO-") a3 Ha3) as ->.
    inversion Hb3 as [| | ? x Hx | | | | | | |]; subst.
    destruct (L x Hx) as [-> | [-> | [-> | ->]]]; cbv; tauto.
  - inversion Hr as [| | | | ? ? a3 b3 Ha3 Hb3 | | | | |]; subst.
    pose proof (matches_text (lit "NO") a3 Ha3) as ->.
    inversion Hb3 as [| | ? x Hx | | | | | | |]; subst.
    destruct (L x Hx) as [-> | [-> | [-> | ->]]]; cbv; tauto.
Qed.

(** X6: every token that [extract_grades] returns stands in the text,
    and is a prefix of the list, a hyphen and one or more decimal
    digits, or one of the eight national-officer variants; nothing else
    is ever taken for a grade. *)
Theorem extracted_tokens_are_grades_of_the_text (text g : str) :
  In g (extract_grades u text) ->
  occurs_in g text /\
  ((exists p ds, In p EXTRACTED_PREFIXES /\ ds <> [] /\
                 Forall (fun c => is_decimal u c = true) ds /\
                 g = p ++ lit "-" ++ ds) \/
   In g EXCLUDED_NO_VARIANTS).
Proof.
  unfold extract_grades, Re.findall. rewrite in_app_iff. intros [H | H];
    apply findall_scan_sound in H; destruct H as [Ho Hm]; (split; [exact Ho |]).
  - left. now apply numbered_grade_shape.
  - right. now apply lettered_grade_shape.
Qed.

End Tokens.

Lemma extracted_tokens_are_grades_of_the_text_witness :
  occurs_in (lit "GS-6") (lit "OFFICER, P-4 (GS-6)") /\
  In (lit "GS") EXTRACTED_PREFIXES.
Proof.
  destruct (extracted_tokens_are_grades_of_the_text latin1
              (lit "OFFICER, P-4 (GS-6)") (lit "GS-6")) as [Ho _].
  - vm_compute. tauto.
  - split; [exact Ho | vm_compute; tauto].
Defined.

(** ** The hyphens of [normalize_grade] *)

Section Hyphens.

Variable u : UCD.

(** A match of [\b(A)(\d)\b]: the text of [A], one decimal digit, and
    the replacement with the hyphen between the two. *)
Lemma grade_pattern_match (A : Re.regex) (prev : option Z) (s : str)
  (cs : Re.caps) (n : nat) :
  Re.match_at (is_word u) (grade_pattern u A) prev s = Some (cs, n) ->
  exists m d rest,
    s = m ++ d :: rest /\ n = S (length m) /\ is_decimal u d = true /\
    hyphenate cs = m ++ lit "-" ++ [d].
Proof.
  unfold Re.match_at, grade_pattern. cbn [Re.rmatch].
  destruct (xorb _ _); [| discriminate].
  destruct (Re.rmatch (is_word u) A _ Re.no_caps prev s) as [[cs0 s0]|] eqn:E;
    [| discriminate].
  intros H. injection H as <- <-.
  destruct (rmatch_sound _ A _ _ _ _ _ E) as [m [s1 [cs1 [prev1 [-> [_ Hk]]]]]].
  rewrite firstn_matched in Hk.
  destruct s1 as [|d s2]; [discriminate |].
  destruct (is_decimal u d) eqn:Hd; [| discriminate].
  destruct (xorb _ _); [| discriminate].
  injection Hk as <- <-.
  exists m, d, s2. repeat split.
  - rewrite length_app. simpl. lia.
  - exact Hd.
  - unfold hyphenate, Re.set_cap. cbn [Nat.eqb].
    change (firstn _ (d :: s2)) with (firstn (S (length s2) - length s2) (d :: s2)).
    now rewrite Nat.sub_succ_l, Nat.sub_diag by lia.
Qed.

Lemma without_hyphens_app (a b : str) :
  without_hyphens (a ++ b) = without_hyphens a ++ without_hyphens b.
Proof.
  apply filter_app.
Qed.

Lemma sub_keeps_the_rest (A : Re.regex) (s : str) :
  forall prev skip,
    without_hyphens (Re.sub_scan (is_word u) (grade_pattern u A) hyphenate prev s skip) =
    without_hyphens (skipn skip s).
Proof.
  induction s as [|c s IH]; intros prev skip; cbn [Re.sub_scan].
  - now destruct skip.
  - destruct skip as [|n]; [| apply IH].
    cbn [skipn].
    destruct (Re.match_at (is_word u) (grade_pattern u A) prev (c :: s))
      as [[cs n]|] eqn:E.
    + destruct (grade_pattern_match _ _ _ _ _ E) as [m [d [rest [Es [-> [_ Eh]]]]]].
      rewrite without_hyphens_app, IH, Eh.
      assert (Ek : skipn (length m) s = rest).
      { change (skipn (length m) s) with (skipn (S (length m)) (c :: s)).
        rewrite Es. replace (S (length m)) with (length (m ++ [d]))
          by (rewrite length_app; simpl; lia).
        change (m ++ d :: rest) with (m ++ [d] ++ rest). rewrite app_assoc.
        now rewrite skipn_app, skipn_all, Nat.sub_diag. }
      rewrite Ek, Es. change (d :: rest) with ([d] ++ rest).
      rewrite !without_hyphens_app. change (without_hyphens (lit "-")) with (@nil Z).
      cbn [app]. now rewrite <- app_assoc.
    + change (c :: Re.sub_scan (is_word u) (grade_pattern u A) hyphenate (Some c) s 0)
        with ([c] ++ Re.sub_scan (is_word u) (grade_pattern u A) hyphenate (Some c) s 0).
      change (c :: s) with ([c] ++ s).
      now rewrite !without_hyphens_app, IH.
Qed.

(** X7: [normalize_grade] changes a text by inserting hyphens and in
    no other way: without their hyphens the text and the result are the
    same. *)
Theorem normalize_grade_only_inserts_hyphens (text : str) :
  without_hyphens (normalize_grade u text) = without_hyphens text.
Proof.
  unfold normalize_grade, Re.sub.
  change (one_letter_grade u)
    with (grade_pattern u (Re.Cls (fun c => mem [c] [lit "P"; lit "D"; lit "G"]))).
  change (two_letter_grade u)
    with (grade_pattern u (Re.alt (map Re.text
            [lit "GS"; lit "NO"; lit "SB"; lit "LS"; lit "LSC"]))).
  rewrite sub_keeps_the_rest. cbn [skipn]. now rewrite sub_keeps_the_rest.
Qed.

Lemma sub_without_digit (A : Re.regex) (s : str) :
  Forall (fun c => is_decimal u c = false) s ->
  forall prev,
    Re.sub_scan (is_word u) (grade_pattern u A) hyphenate prev s O = s.
Proof.
  induction 1 as [|c s Hc Hs IH]; intros prev; cbn [Re.sub_scan]; [reflexivity |].
  destruct (Re.match_at (is_word u) (grade_pattern u A) prev (c :: s))
    as [[cs n]|] eqn:E.
  - exfalso. destruct (grade_pattern_match _ _ _ _ _ E) as [m [d [rest [Es [_ [Hd _]]]]]].
    assert (Hin : In d (c :: s)) by (rewrite Es; apply in_elt).
    assert (Hall : Forall (fun c => is_decimal u c = false) (c :: s)) by now constructor.
    rewrite Forall_forall in Hall. specialize (Hall d Hin). congruence.
  - now rewrite IH.
Qed.

(** X8: a text without a decimal digit is returned as it is. *)
Theorem normalize_grade_needs_a_digit (text : str) :
  Forall (fun c => is_decimal u c = false) text ->
  normalize_grade u text = text.
Proof.
  intros H. unfold normalize_grade, Re.sub.
  change (one_letter_grade u)
    with (grade_pattern u (Re.Cls (fun c => mem [c] [lit "P"; lit "D"; lit "G"]))).
  change (two_letter_grade u)
    with (grade_pattern u (Re.alt (map Re.text
            [lit "GS"; lit "NO"; lit "SB"; lit "LS"; lit "LSC"]))).
  rewrite (sub_without_digit _ text H). now apply sub_without_digit.
Qed.

End Hyphens.

Lemma normalize_grade_needs_a_digit_witness :
  normalize_grade latin1 (lit "GS, NO, P AND D, NOA") = lit "GS, NO, P AND D, NOA".
Proof.
  apply (normalize_grade_needs_a_digit latin1 (lit "GS, NO, P AND D, NOA")).
  repeat (constructor; [reflexivity |]). constructor.
Defined.

(** ** Where a date comes from *)

Section DateSources.

Variable w : World.

Lemma try_formats_aware (s : str) (formats : list str) (t : Z) (dt : datetime) :
  try_formats w s formats t = Returns dt -> aware dt = true.
Proof.
  induction formats as [|fmt rest IH]; cbn [try_formats].
  - intros E. apply Returns_inj in E. now subst.
  - destruct (strptime w (strip s) fmt) as [d|e].
    + intros E. apply Returns_inj in E. subst dt.
      unfold aware. destruct (tzinfo d) eqn:Etz; simpl; [now rewrite Etz | reflexivity].
    + destruct e; try discriminate. exact IH.
Qed.

(** X9: a date without a zone comes from the RFC-2822 parser, and is
    what that parser returned for the string as it stands in the feed:
    the ISO-8601 formats and the fallback give dates with a zone. *)
Theorem naive_dates_come_from_the_rfc_parser (t : Z) (date_str : option str)
  (dt : datetime) :
  parse_pub_date w t date_str = Returns dt ->
  aware dt = false ->
  exists s, date_str = Some s /\ s <> [] /\ parsedate_to_datetime w s = Returns dt.
Proof.
  destruct date_str as [[|c s]|]; unfold parse_pub_date.
  - intros E. apply Returns_inj in E. now subst.
  - destruct (parsedate_to_datetime w (c :: s)) as [d|e] eqn:Ep.
    + intros E _. apply Returns_inj in E. subst d.
      exists (c :: s). repeat split; [discriminate | exact Ep].
    + intros E Hn. apply try_formats_aware in E. congruence.
  - intros E. apply Returns_inj in E. now subst.
Qed.

Lemma try_formats_first (s : str) (before after : list str) (fmt : str) (t : Z)
  (dt : datetime) :
  (forall f, In f before -> strptime w (strip s) f = Raises ValueError) ->
  strptime w (strip s) fmt = Returns dt ->
  try_formats w s (before ++ fmt :: after) t =
  Returns (match tzinfo dt with None => replace_tz_utc dt | Some _ => dt end).
Proof.
  intros Hb Hf. induction before as [|f before IH]; cbn [app try_formats].
  - now rewrite Hf.
  - rewrite (Hb f) by now left. apply IH. intros f' Hin. apply Hb. now right.
Qed.

(** X10: when the RFC-2822 parser rejects the string, the first
    ISO-8601 format under which [strptime] reads the stripped string
    gives the date; a value without a zone is set to UTC, one with a
    zone is kept. *)
Theorem first_iso_format_gives_the_date (t : Z) (s : str) (e : exn)
  (before after : list str) (fmt : str) (dt : datetime) :
  s <> [] ->
  parsedate_to_datetime w s = Raises e ->
  ISO_FORMATS = before ++ fmt :: after ->
  (forall f, In f before -> strptime w (strip s) f = Raises ValueError) ->
  strptime w (strip s) fmt = Returns dt ->
  parse_pub_date w t (Some s) =
    Returns (match tzinfo dt with None => replace_tz_utc dt | Some _ => dt end) /\
  aware (match tzinfo dt with None => replace_tz_utc dt | Some _ => dt end) = true.
Proof.
  intros Hs Ep Ef Hb Hf. destruct s as [|c s]; [easy |].
  unfold parse_pub_date. rewrite Ep, Ef. split.
  - now apply try_formats_first.
  - unfold aware. destruct (tzinfo dt) eqn:Etz; simpl; [now rewrite Etz | reflexivity].
Qed.

End DateSources.

Lemma naive_dates_come_from_the_rfc_parser_witness :
  parsedate_to_datetime demo_world (lit "Mon, 20 Nov 1995 19:12:08 -0000") =
    Returns {| wall := 62952491528000000; tzinfo := None |}.
Proof.
  destruct (naive_dates_come_from_the_rfc_parser demo_world 0
              (Some (lit "Mon, 20 Nov 1995 19:12:08 -0000"))
              {| wall := 62952491528000000; tzinfo := None |})
    as [s [Es [_ Ep]]]; [reflexivity | reflexivity |].
  injection Es as <-. exact Ep.
Defined.

Lemma first_iso_format_gives_the_date_witness :
  parse_pub_date demo_world 0 (Some (lit " 2024-01-15 ")) =
    Returns {| wall := 63840873600000000; tzinfo := Some 0 |}.
Proof.
  apply (first_iso_format_gives_the_date demo_world 0 (lit " 2024-01-15 ") ValueError
           [lit "%Y-%m-%dT%H:%M:%S%z"; lit "%Y-%m-%dT%H:%M:%SZ"] [] (lit "%Y-%m-%d")
           {| wall := 63840873600000000; tzinfo := None |}).
  - discriminate.
  - reflexivity.
  - reflexivity.
  - intros f [<- | [<- | []]]; reflexivity.
  - reflexivity.
Defined.

(** ** What a run writes and counts *)

Lemma Forall2_In_r {A B} (R : A -> B -> Prop) (l : list A) (l' : list B) (y : B) :
  Forall2 R l l' -> In y l' -> exists x, In x l /\ R x y.
Proof.
  induction 1 as [|a b l l' Hab _ IH]; [easy |].
  intros [<- | Hin].
  - exists a. split; [now left | exact Hab].
  - destruct (IH Hin) as [x [Hx HR]]. exists x. split; [now right | exact HR].
Qed.

Lemma Forall2_In_l {A B} (R : A -> B -> Prop) (l : list A) (l' : list B) (x : A) :
  Forall2 R l l' -> In x l -> exists y, In y l' /\ R x y.
Proof.
  induction 1 as [|a b l l' Hab _ IH]; [easy |].
  intros [<- | Hin].
  - exists b. split; [now left | exact Hab].
  - destruct (IH Hin) as [y [Hy HR]]. exists y. split; [now right | exact HR].
Qed.

Lemma In_firstn {A} (n : nat) (l : list A) (x : A) : In x (firstn n l) -> In x l.
Proof.
  intros H. rewrite <- (firstn_skipn n l). apply in_or_app. now left.
Qed.

Section Counting.

Variable u : UCD.

(** The five answers of the classifier. *)
Lemma classify_item_answers (text : str) :
  In (classify_item u text)
     [(exclude, consultancy); (exclude, excluded_grade); (include, included_grade);
      (include, internship); (exclude, no_grade_match)].
Proof.
  unfold classify_item.
  destruct (has_keyword (normalize u text) CONSULTANCY_KEYWORDS); [simpl; tauto |].
  destruct (existsb is_excluded_grade _); [simpl; tauto |].
  destruct (existsb _ _); [simpl; tauto |].
  destruct (has_keyword _ _); simpl; tauto.
Qed.

Variable w : World.

Lemma excluded_for_cases (raw : list raw_item) :
  Forall (fun it => exists searchable, build_searchable_text w it = Returns searchable) raw ->
  (length (filter (fun it => negb (passes u w it)) raw) =
   length (filter (excluded_for u w consultancy) raw) +
   length (filter (excluded_for u w excluded_grade) raw) +
   length (filter (excluded_for u w no_grade_match) raw))%nat /\
  length (filter (excluded_for u w included_grade) raw) = O /\
  length (filter (excluded_for u w internship) raw) = O.
Proof.
  induction 1 as [|it raw [searchable Eb] _ [IH1 [IH2 IH3]]]; [easy |].
  cbn [filter].
  assert (Hcase :
    (passes u w it = true /\ forall r, excluded_for u w r it = false) \/
    (passes u w it = false /\
     exists r0, In r0 [consultancy; excluded_grade; no_grade_match] /\
                forall r, excluded_for u w r it = reason_eqb r r0)).
  { unfold passes, excluded_for. rewrite Eb.
    pose proof (classify_item_answers searchable) as H.
    destruct (classify_item u searchable) as [a r0].
    simpl in H.
    destruct H as [H | [H | [H | [H | [H | []]]]]]; injection H as <- <-;
      first [ left; split; [reflexivity | intros r; reflexivity]
            | right; split; [reflexivity |]; eexists; split;
              [| intros r; reflexivity]; simpl; tauto ]. }
  destruct Hcase as [[Hp Hx] | [Hp [r0 [Hr0 Hx]]]]; rewrite Hp, !Hx; cbn [negb].
  - repeat split; assumption.
  - destruct Hr0 as [<- | [<- | [<- | []]]]; cbn [reason_eqb length];
      repeat split; try assumption; lia.
Qed.

Variable source_url : str.

Lemma filter_items_sources (raw : list raw_item) :
  forall n inc cnt inc' cnt',
    filter_items u w source_url raw n inc cnt = Returns (inc', cnt') ->
    Forall (from_source source_url) inc -> Forall (from_source source_url) inc'.
Proof.
  induction raw as [|it raw IH]; intros n inc cnt inc' cnt'; cbn [filter_items].
  - intros E. apply Returns_inj in E. now injection E as <- <-.
  - destruct (build_searchable_text w it) as [searchable|e]; cbn [bind];
      [| discriminate].
    destruct (classify_item u searchable) as [[|] rs].
    + destruct (parse_pub_date w (clock w n) (Some (pub_date_str it)));
        cbn [bind]; [| discriminate].
      destruct (strip_html w (description it)); cbn [bind]; [| discriminate].
      destruct (stable_guid (link it)); cbn [bind]; [| discriminate].
      intros E H. apply (IH _ _ _ _ _ E). apply Forall_app. split; [exact H |].
      now repeat constructor.
    + apply IH.
Qed.

(** A run that finishes has built the searchable text of every
    listing. *)
Lemma filter_items_built (raw : list raw_item) :
  forall n inc cnt res,
    filter_items u w source_url raw n inc cnt = Returns res ->
    Forall (fun it => exists searchable, build_searchable_text w it = Returns searchable)
           raw.
Proof.
  induction raw as [|it raw IH]; intros n inc cnt res; cbn [filter_items];
    [constructor |].
  destruct (build_searchable_text w it) as [searchable|e] eqn:Eb; cbn [bind];
    [| discriminate].
  intros E. constructor; [now exists searchable |]. revert E.
  destruct (classify_item u searchable) as [[|] rs].
  - destruct (parse_pub_date w (clock w n) (Some (pub_date_str it)));
      cbn [bind]; [| discriminate].
    destruct (strip_html w (description it)); cbn [bind]; [| discriminate].
    destruct (stable_guid (link it)); cbn [bind]; [| discriminate].
    apply IH.
  - apply IH.
Qed.

Lemma main_built (raw : list raw_item) (r : run) :
  main u w source_url raw = Returns r ->
  Forall (fun it => exists searchable, build_searchable_text w it = Returns searchable)
         raw.
Proof.
  unfold main.
  destruct (filter_items u w source_url raw 0 [] []) as [res|e] eqn:F;
    cbn [bind]; [| discriminate].
  intros _. exact (filter_items_built _ _ _ _ _ F).
Qed.

(** The candidates of a finished run: the items made of the listings
    that pass, in the order of the feed. *)
Lemma main_candidates (raw : list raw_item) (r : run) :
  main u w source_url raw = Returns r ->
  exists candidates,
    Forall2 (made_from w) (filter (passes u w) raw) candidates /\
    Forall (from_source source_url) candidates /\
    same_awareness candidates = true /\
    written r = firstn MAX_ITEMS (sorted_newest_first candidates).
Proof.
  unfold main.
  destruct (filter_items u w source_url raw 0 [] []) as [[inc cnt]|e] eqn:F;
    cbn [bind]; [| discriminate].
  unfold sort_newest_first. destruct (same_awareness inc) eqn:Sa; cbn [bind]; [| discriminate].
  intros E. apply Returns_inj in E. subst r. cbn [written].
  pose proof (filter_items_sources _ _ _ _ _ _ F (Forall_nil _)) as Hsrc.
  destruct (filter_items_spec _ _ _ _ _ _ _ _ _ F) as [added [E [Hm _]]].
  cbn [app] in E. subst added. now exists inc.
Qed.

(** X11: every item that a run writes is made of a listing of the feed
    that passes the filter: it has the title and the link of the
    listing and its description without markup, its guid is the guid
    of the link, 16 decimal digits, its date text is the formatted
    date, and its source is the address of the download under the name
    UNICEF Careers RSS. *)
Theorem written_items_come_from_passing_listings (raw : list raw_item) (r : run)
  (x : item) :
  main u w source_url raw = Returns r ->
  In x (written r) ->
  (exists it, In it raw /\ passes u w it = true /\ made_from w it x) /\
  length (i_guid x) = 16%nat /\ all_digits (i_guid x) /\
  i_source_url x = source_url /\
  i_source_name x = lit "UNICEF Careers RSS".
Proof.
  intros E Hx. destruct (main_candidates raw r E) as [cands [Hm [Hsrc [_ Hw]]]].
  assert (Hc : In x cands).
  { rewrite Hw in Hx. apply In_firstn in Hx.
    exact (Permutation_in x (sorted_newest_first_perm cands) Hx). }
  destruct (Forall2_In_r _ _ _ _ Hm Hc) as [it [Hit Hmade]].
  apply filter_In in Hit. destruct Hit as [Hraw Hpass].
  rewrite Forall_forall in Hsrc. destruct (Hsrc x Hc) as [Hu Hn].
  destruct (stable_guid_shape _ _ (proj1 (proj2 (proj2 (proj2 Hmade))))) as [Hlen Hdig].
  split; [now exists it |]. now repeat split.
Qed.

(** X12: the excluded count of the summary is the sum of the counters
    of the reasons consultancy, excluded-grade and no-grade-match; the
    reasons included-grade and internship are never counted; and the
    listings that pass and the excluded ones make up the total. *)
Theorem exclusion_counters_add_up (raw : list raw_item) (r : run) :
  main u w source_url raw = Returns r ->
  (excluded_count r =
   count_of consultancy (exclusion_reasons r) +
   count_of excluded_grade (exclusion_reasons r) +
   count_of no_grade_match (exclusion_reasons r))%nat /\
  count_of included_grade (exclusion_reasons r) = O /\
  count_of internship (exclusion_reasons r) = O /\
  (total r = length (filter (passes u w) raw) + excluded_count r)%nat.
Proof.
  intros E. destruct (main_spec u w source_url raw r E) as [cands [_ [_ [Ht [_ [He Hc]]]]]].
  destruct (excluded_for_cases raw (main_built raw r E)) as [H1 [H2 H3]].
  pose proof (split_by_passes u w raw) as Hs.
  rewrite !Hc, He, Ht. repeat split; try assumption; lia.
Qed.

End Counting.

Lemma written_items_come_from_passing_listings_witness :
  exists r x,
    main latin1 demo_world FEED_URL (demo_feed 2) = Returns r /\
    In x (written r) /\
    i_title x = lit "Education Specialist, P-4" /\
    i_source_url x = FEED_URL /\ length (i_guid x) = 16%nat.
Proof.
  destruct (main latin1 demo_world FEED_URL (demo_feed 2)) as [r|e] eqn:E;
    [| vm_compute in E; discriminate].
  destruct (written r) as [|x l] eqn:Ew.
  - exfalso. vm_compute in E. apply Returns_inj in E. subst r. discriminate.
  - exists r, x.
    assert (Hx : In x (written r)) by (rewrite Ew; now left).
    destruct (written_items_come_from_passing_listings latin1 demo_world FEED_URL
                (demo_feed 2) r x E Hx) as [_ [Hlen [_ [Hu _]]]].
    split; [reflexivity |]. split; [exact Hx |]. split; [| split; assumption].
    vm_compute in E. apply Returns_inj in E. subst r.
    injection Ew as <- _. reflexivity.
Defined.

Lemma exclusion_counters_add_up_witness :
  exists r,
    main latin1 demo_world FEED_URL (demo_feed 51) = Returns r /\
    excluded_count r = 3%nat /\ total r = 54%nat /\
    count_of internship (exclusion_reasons r) = O.
Proof.
  destruct (main latin1 demo_world FEED_URL (demo_feed 51)) as [r|e] eqn:E;
    [| vm_compute in E; discriminate].
  exists r. split; [reflexivity |].
  destruct (exclusion_counters_add_up latin1 demo_world FEED_URL (demo_feed 51) r E)
    as [H1 [_ [H3 H4]]].
  destruct (main_spec latin1 demo_world FEED_URL (demo_feed 51) r E)
    as [_ [_ [_ [_ [_ [He _]]]]]].
  assert (Hx : excluded_count r = 3%nat) by (rewrite He; vm_compute; reflexivity).
  split; [exact Hx |]. split; [| exact H3].
  rewrite H4, Hx. vm_compute. reflexivity.
Defined.

(** ** The order of equal dates *)

Lemma at_instant_insert (k : Z) (x : item) (l : list item) :
  filter (at_instant k) (insert_newest x l) = filter (at_instant k) (x :: l).
Proof.
  induction l as [|y l IH]; [reflexivity |].
  cbn [insert_newest].
  destruct (Z.leb_spec (instant (i_pub_dt y)) (instant (i_pub_dt x))) as [Hle | Hlt];
    [reflexivity |].
  cbn [filter] in *. rewrite IH. unfold at_instant.
  destruct (Z.eqb_spec (instant (i_pub_dt y)) k), (Z.eqb_spec (instant (i_pub_dt x)) k);
    try reflexivity.
  lia.
Qed.

Lemma at_instant_sorted (k : Z) (l : list item) :
  filter (at_instant k) (sorted_newest_first l) = filter (at_instant k) l.
Proof.
  induction l as [|x l IH]; [reflexivity |].
  cbn [sorted_newest_first fold_right]. fold (sorted_newest_first l).
  rewrite at_instant_insert. cbn [filter]. now rewrite IH.
Qed.

Section Order.

Variable u : UCD.
Variable w : World.
Variable source_url : str.

(** X13: the sort keeps the order of the feed among items of the same
    instant: the written items of an instant are the first of the
    candidates of that instant, in the order in which their listings
    stand in the feed. *)
Theorem equal_dates_keep_the_order_of_the_feed (raw : list raw_item) (r : run) (k : Z) :
  main u w source_url raw = Returns r ->
  exists candidates cut,
    Forall2 (made_from w) (filter (passes u w) raw) candidates /\
    filter (at_instant k) candidates = filter (at_instant k) (written r) ++ cut /\
    ((length (filter (passes u w) raw) <= MAX_ITEMS)%nat -> cut = []).
Proof.
  intros E. destruct (main_spec u w source_url raw r E) as [cands [Hm [Hw _]]].
  exists cands, (filter (at_instant k) (skipn MAX_ITEMS (sorted_newest_first cands))).
  split; [exact Hm |]. split.
  - rewrite Hw, <- filter_app, firstn_skipn. symmetry. apply at_instant_sorted.
  - intros Hle. rewrite skipn_all2; [reflexivity |].
    pose proof (Forall2_length Hm) as Hlen.
    pose proof (Permutation_length (sorted_newest_first_perm cands)) as Hpl. lia.
Qed.

End Order.

Lemma equal_dates_keep_the_order_of_the_feed_witness :
  exists r,
    main latin1 demo_world FEED_URL
      [listing (lit "Education Specialist, P-4") (lit "https://jobs.unicef.org/job/1")
         (lit "Mon, 15 Jan 2024 10:00:00 +0100");
       listing (lit "Health Specialist, P-3") (lit "https://jobs.unicef.org/job/2")
         (lit "2024-01-15T10:00:00+0100")] = Returns r /\
    map i_title (written r) =
      [lit "Education Specialist, P-4"; lit "Health Specialist, P-3"].
Proof.
  set (raw := [listing (lit "Education Specialist, P-4") (lit "https://jobs.unicef.org/job/1")
                 (lit "Mon, 15 Jan 2024 10:00:00 +0100");
               listing (lit "Health Specialist, P-3") (lit "https://jobs.unicef.org/job/2")
                 (lit "2024-01-15T10:00:00+0100")]).
  destruct (main latin1 demo_world FEED_URL raw) as [r|e] eqn:E;
    [| vm_compute in E; discriminate].
  exists r. split; [reflexivity |].
  destruct (equal_dates_keep_the_order_of_the_feed latin1 demo_world FEED_URL raw r
              63840906000000000 E) as [cands [cut [Hm [Hf Hcut]]]].
  rewrite Hcut in Hf by (vm_compute; lia). rewrite app_nil_r in Hf.
  vm_compute in E. apply Returns_inj in E. subst r. reflexivity.
Defined.

(** ** Links without an encoding *)

Lemma utf8_char_raises (c : Z) (e : exn) :
  utf8_char c = Raises e -> e = UnicodeEncodeError /\ 0xD800 <= c <= 0xDFFF.
Proof.
  unfold utf8_char.
  destruct (c <? 0x80); [discriminate |].
  destruct (c <? 0x800); [discriminate |].
  destruct ((0xD800 <=? c) && (c <=? 0xDFFF)) eqn:E.
  - intros H. injection H as <-. apply andb_true_iff in E. split; [reflexivity | lia].
  - destruct (c <? 0x10000); discriminate.
Qed.

Lemma utf8_char_returns_inv (c : Z) (bs : list Z) :
  utf8_char c = Returns bs -> ~ (0xD800 <= c <= 0xDFFF).
Proof.
  unfold utf8_char. intros H Hr.
  destruct (c <? 0x80) eqn:E1; [lia |]. destruct (c <? 0x800) eqn:E2; [lia |].
  destruct ((0xD800 <=? c) && (c <=? 0xDFFF)) eqn:E3; [discriminate |].
  apply andb_false_iff in E3. lia.
Qed.

Lemma encode_utf8_raises (s : str) (e : exn) :
  encode_utf8 s = Raises e ->
  e = UnicodeEncodeError /\ exists c, In c s /\ 0xD800 <= c <= 0xDFFF.
Proof.
  induction s as [|c s IH]; cbn [encode_utf8]; [discriminate |].
  destruct (utf8_char c) as [bs|e'] eqn:Ec; cbn [bind].
  - destruct (encode_utf8 s) as [rest|e'']; cbn [bind]; [discriminate |].
    intros H. injection H as <-. destruct (IH eq_refl) as [-> [d [Hd Hr]]].
    split; [reflexivity |]. exists d. split; [now right | exact Hr].
  - intros H. injection H as <-. destruct (utf8_char_raises _ _ Ec) as [-> Hr].
    split; [reflexivity |]. exists c. split; [now left | exact Hr].
Qed.

Lemma encode_utf8_returns_inv (s : str) (data : list Z) :
  encode_utf8 s = Returns data -> encodable s.
Proof.
  revert data. induction s as [|c s IH]; intros data; [constructor |].
  cbn [encode_utf8]. destruct (utf8_char c) as [bs|] eqn:Ec; cbn [bind]; [| discriminate].
  destruct (encode_utf8 s) as [rest|]; cbn [bind]; [| discriminate].
  intros _. constructor; [exact (utf8_char_returns_inv _ _ Ec) | now apply (IH rest)].
Qed.

Lemma stable_guid_raises (L : str) (e : exn) :
  stable_guid L = Raises e ->
  e = UnicodeEncodeError /\ exists c, In c L /\ 0xD800 <= c <= 0xDFFF.
Proof.
  unfold stable_guid. destruct (encode_utf8 L) as [data|e'] eqn:E; cbn [bind]; [discriminate |].
  intros H. injection H as <-. exact (encode_utf8_raises _ _ E).
Qed.

Lemma stable_guid_returns_inv (L g : str) : stable_guid L = Returns g -> encodable L.
Proof.
  unfold stable_guid. destruct (encode_utf8 L) as [data|e'] eqn:E; [| discriminate].
  intros _. exact (encode_utf8_returns_inv _ _ E).
Qed.

(** X14: [stable_guid] raises nothing but [UnicodeEncodeError]; it
    raises it exactly for a link that holds a surrogate code point,
    and returns a guid for every other link, and for no other. *)
Theorem stable_guid_fails_on_surrogates_only (L : str) :
  (forall e, stable_guid L = Raises e -> e = UnicodeEncodeError) /\
  (stable_guid L = Raises UnicodeEncodeError <->
   exists c, In c L /\ 0xD800 <= c <= 0xDFFF) /\
  ((exists g, stable_guid L = Returns g) <-> encodable L).
Proof.
  split; [intros e H; exact (proj1 (stable_guid_raises L e H)) |]. split; split.
  - intros H. exact (proj2 (stable_guid_raises L _ H)).
  - intros [c [Hc Hr]]. destruct (stable_guid L) as [g|e] eqn:E.
    + apply stable_guid_returns_inv in E. unfold encodable in E.
      rewrite Forall_forall in E. now destruct (E c Hc).
    + now rewrite (proj1 (stable_guid_raises L e E)).
  - intros [g E]. exact (stable_guid_returns_inv L g E).
  - intros H. destruct (stable_guid_returns L H) as [g [E _]]. now exists g.
Qed.

(** ** When the run stops *)

Lemma same_awareness_spec (l : list item) :
  same_awareness l = true <->
  forall x y, In x l -> In y l -> aware (i_pub_dt x) = aware (i_pub_dt y).
Proof.
  destruct l as [|a l]; cbn [same_awareness]; [easy |].
  rewrite forallb_forall. split.
  - intros H x y Hx Hy.
    assert (Ha : forall z, In z (a :: l) -> aware (i_pub_dt z) = aware (i_pub_dt a)).
    { intros z [<- | Hz]; [reflexivity |]. now apply eqb_prop, H. }
    now rewrite (Ha x Hx), (Ha y Hy).
  - intros H y Hy. rewrite (H y a); [apply eqb_reflx | now right | now left].
Qed.

Lemma mixed_awareness (l : list item) :
  same_awareness l = false ->
  exists x y, In x l /\ In y l /\ aware (i_pub_dt x) = false /\ aware (i_pub_dt y) = true.
Proof.
  destruct l as [|a l]; [discriminate |]. cbn [same_awareness]. intros Sa.
  assert (Hex : existsb (fun y => negb (Bool.eqb (aware (i_pub_dt y))
                                                  (aware (i_pub_dt a)))) l = true).
  { induction l as [|b l IH]; [discriminate |].
    cbn [forallb existsb] in *.
    destruct (Bool.eqb (aware (i_pub_dt b)) (aware (i_pub_dt a))); [| reflexivity].
    now apply IH. }
  apply existsb_exists in Hex. destruct Hex as [y [Hy Hne]].
  destruct (aware (i_pub_dt y)) eqn:Ey, (aware (i_pub_dt a)) eqn:Ea; try discriminate.
  - exists a, y. repeat split; [now left | now right | exact Ea | exact Ey].
  - exists y, a. repeat split; [now right | now left | exact Ey | exact Ea].
Qed.

Section Stops.

Variable u : UCD.
Variable w : World.
Variable source_url : str.

Hypothesis strptime_ok : strptime_raises_value_error w.

Lemma build_searchable_text_read (it : raw_item) (text : str) :
  strip_html w (description it) = Returns text ->
  build_searchable_text w it =
  Returns (join (lit " ") (title it :: text :: categories it)).
Proof.
  intros H. unfold build_searchable_text. now rewrite H.
Qed.

Lemma passes_readable (it : raw_item) : passes u w it = true -> readable w it.
Proof.
  unfold passes, build_searchable_text, readable.
  destruct (strip_html w (description it)) as [text|e]; cbn [bind];
    [eauto | discriminate].
Qed.

(** The loop stops at a description that is not read, with the error
    of the reader. *)
Lemma filter_items_unreadable (it : raw_item) (rest : list raw_item) (e : exn) :
  strip_html w (description it) = Raises e ->
  forall n inc cnt, filter_items u w source_url (it :: rest) n inc cnt = Raises e.
Proof.
  intros H n inc cnt. cbn [filter_items]. unfold build_searchable_text.
  now rewrite H.
Qed.

(** The loop stops at a listing that passes and has a link without an
    encoding. *)
Lemma filter_items_bad_link (it : raw_item) (rest : list raw_item) :
  passes u w it = true -> no_surrogates (link it) = false ->
  forall n inc cnt,
    filter_items u w source_url (it :: rest) n inc cnt = Raises UnicodeEncodeError.
Proof.
  intros Hp Hs n inc cnt. destruct (passes_readable it Hp) as [text Hr].
  cbn [filter_items]. unfold passes in Hp.
  rewrite (build_searchable_text_read it text Hr) in *. cbn [bind].
  destruct (classify_item u _) as [[|] rs]; [| discriminate].
  destruct (parse_pub_date_returns w (clock w n) (Some (pub_date_str it)) strptime_ok)
    as [dt ->]. rewrite Hr. cbn [bind].
  destruct (stable_guid (link it)) as [g|e] eqn:Eg.
  - apply stable_guid_returns_inv in Eg. exfalso.
    unfold no_surrogates in Hs. unfold encodable in Eg.
    rewrite Forall_forall in Eg.
    assert (Ht : forallb (fun c => negb ((0xD800 <=? c) && (c <=? 0xDFFF))) (link it) = true).
    { apply forallb_forall. intros c Hc. specialize (Eg c Hc).
      apply negb_true_iff, andb_false_iff. lia. }
    congruence.
  - cbn [bind]. now rewrite (proj1 (stable_guid_raises _ _ Eg)).
Qed.

(** The loop goes on at every other listing. *)
Lemma filter_items_goes_on (before rest : list raw_item) :
  Forall (goes_on u w) before ->
  forall n inc cnt,
    exists n' inc' cnt',
      filter_items u w source_url (before ++ rest) n inc cnt =
      filter_items u w source_url rest n' inc' cnt'.
Proof.
  induction 1 as [|it before [[text Hr] Hl] _ IH]; intros n inc cnt; cbn [app].
  - now exists n, inc, cnt.
  - cbn [filter_items]. unfold passes in Hl.
    rewrite (build_searchable_text_read it text Hr) in *. cbn [bind].
    destruct (classify_item u _) as [[|] rs]; [| apply IH].
    destruct (parse_pub_date_returns w (clock w n) (Some (pub_date_str it)) strptime_ok)
      as [dt ->]. rewrite Hr. cbn [bind].
    destruct (stable_guid_returns (link it) (no_surrogates_encodable _ (Hl eq_refl)))
      as [g [-> _]]. cbn [bind]. apply IH.
Qed.

(** With every description read, the loop stops at the first listing
    that passes and has a link without an encoding, and at nothing
    else. *)
Lemma filter_items_outcome (raw : list raw_item) :
  Forall (readable w) raw ->
  forall n inc cnt,
    if existsb (fun it => passes u w it && negb (no_surrogates (link it))) raw
    then filter_items u w source_url raw n inc cnt = Raises UnicodeEncodeError
    else exists inc' cnt', filter_items u w source_url raw n inc cnt = Returns (inc', cnt').
Proof.
  induction 1 as [|it raw Hr _ IH]; intros n inc cnt; cbn [existsb].
  - cbn [filter_items]. eauto.
  - destruct (passes u w it && negb (no_surrogates (link it))) eqn:Hb; cbn [orb].
    + apply andb_true_iff in Hb. destruct Hb as [Hp Hs]. apply negb_true_iff in Hs.
      now apply filter_items_bad_link.
    + assert (Hg : Forall (goes_on u w) [it]).
      { constructor; [| constructor]. split; [exact Hr |]. intros Hp.
        rewrite Hp in Hb. cbn [andb] in Hb. now apply negb_false_iff in Hb. }
      destruct (filter_items_goes_on [it] raw Hg n inc cnt) as [n' [inc' [cnt' E]]].
      cbn [app] in E. rewrite E. apply IH.
Qed.

Lemma main_stops (raw : list raw_item) (e : exn) :
  filter_items u w source_url raw 0 [] [] = Raises e -> main u w source_url raw = Raises e.
Proof.
  intros H. unfold main. now rewrite H.
Qed.

(** The item of a listing has no zone when the listing has a naive
    date, and then only. *)
Lemma made_from_naive (it : raw_item) (x : item) :
  made_from w it x -> (aware (i_pub_dt x) = false <-> naive_date w it).
Proof.
  intros [_ [_ [_ [_ [_ [t Ep]]]]]]. unfold naive_date. split.
  - intros Hn. destruct (pub_date_str it) as [|c s]; unfold parse_pub_date in Ep.
    + apply Returns_inj in Ep. rewrite <- Ep in Hn. discriminate.
    + split; [discriminate |].
      destruct (parsedate_to_datetime w (c :: s)) as [d|e].
      * apply Returns_inj in Ep. subst d. now exists (i_pub_dt x).
      * apply try_formats_aware in Ep. congruence.
  - intros [Hs [dt [Er Hn]]].
    rewrite (parse_pub_date_rfc_first w t _ dt Hs Er) in Ep.
    apply Returns_inj in Ep. now subst.
Qed.

(** X15: when [strptime] raises nothing but [ValueError], a run ends
    in one of four ways.  It ends in the error of the reader of markup
    at the first listing whose description is not read, whether the
    listing would pass or not, when the loop went on at every listing
    before it; in the [UnicodeEncodeError] of [stable_guid] at the
    first listing that passes and has a link with a surrogate in it,
    likewise.  When every description is read, it ends in the
    [UnicodeEncodeError] exactly when a listing that passes has such a
    link; in the [TypeError] of the sort exactly when the links are in
    order and two listings that pass differ in that one has a naive
    date, one that the RFC-2822 parser reads without a zone, and the
    other has not; and in its summary otherwise.  A run that reaches
    its summary has read every description. *)
Theorem the_run_ends_in_one_of_four_ways (raw : list raw_item) :
  (forall before it after e,
     raw = before ++ it :: after ->
     Forall (goes_on u w) before ->
     strip_html w (description it) = Raises e ->
     main u w source_url raw = Raises e) /\
  (forall before it after,
     raw = before ++ it :: after ->
     Forall (goes_on u w) before ->
     passes u w it = true -> no_surrogates (link it) = false ->
     main u w source_url raw = Raises UnicodeEncodeError) /\
  (Forall (readable w) raw ->
   (main u w source_url raw = Raises UnicodeEncodeError <->
    link_without_encoding u w raw) /\
   (main u w source_url raw = Raises TypeError <->
    ~ link_without_encoding u w raw /\ mixed_dates u w raw) /\
   ((exists r, main u w source_url raw = Returns r) <->
    ~ link_without_encoding u w raw /\ ~ mixed_dates u w raw)) /\
  (forall r, main u w source_url raw = Returns r -> Forall (readable w) raw).
Proof.
  split; [| split; [| split]].
  - intros before it after e -> Hb He. apply main_stops.
    destruct (filter_items_goes_on before (it :: after) Hb 0%nat [] [])
      as [n [inc [cnt ->]]].
    now apply filter_items_unreadable.
  - intros before it after -> Hb Hp Hs. apply main_stops.
    destruct (filter_items_goes_on before (it :: after) Hb 0%nat [] [])
      as [n [inc [cnt ->]]].
    now apply filter_items_bad_link.
  - intros Hread.
    pose proof (filter_items_outcome raw Hread 0%nat [] []) as F.
    destruct (existsb (fun it => passes u w it && negb (no_surrogates (link it))) raw) eqn:B.
    + assert (Hbad : link_without_encoding u w raw).
      { apply existsb_exists in B. destruct B as [it [Hin Hb]].
        apply andb_true_iff in Hb. destruct Hb as [Hp Hs]. apply negb_true_iff in Hs.
        now exists it. }
      unfold main. rewrite F. cbn [bind].
      split; [tauto |]. split; (split; [| tauto]).
      * discriminate.
      * intros [r E]. discriminate.
    + assert (Hgood : ~ link_without_encoding u w raw).
      { intros [it [Hin [Hp Hs]]].
        assert (Ht : existsb (fun it => passes u w it && negb (no_surrogates (link it))) raw
                     = true).
        { apply existsb_exists. exists it. split; [exact Hin |]. now rewrite Hp, Hs. }
        congruence. }
      destruct F as [inc [cnt F]].
      destruct (filter_items_spec _ _ _ _ _ _ _ _ _ F) as [added [E [Hm _]]].
      cbn [app] in E. subst added.
      unfold main. rewrite F. cbn [bind]. unfold sort_newest_first.
      destruct (same_awareness inc) eqn:Sa; cbn [bind].
      * assert (Hsame : ~ mixed_dates u w raw).
        { intros [it1 [it2 [H1 [P1 [N1 [H2 [P2 N2]]]]]]].
          destruct (Forall2_In_l _ _ _ it1 Hm) as [x1 [Hx1 M1]]; [now apply filter_In |].
          destruct (Forall2_In_l _ _ _ it2 Hm) as [x2 [Hx2 M2]]; [now apply filter_In |].
          apply N2. apply (made_from_naive it2 x2 M2).
          rewrite <- (proj1 (same_awareness_spec inc) Sa x1 x2 Hx1 Hx2).
          now apply (made_from_naive it1 x1 M1). }
        split; [split; [discriminate | tauto] |].
        split; [split; [discriminate | tauto] |].
        split; [tauto | intros _; eauto].
      * assert (Hmixed : mixed_dates u w raw).
        { destruct (mixed_awareness inc Sa) as [x [y [Hx [Hy [Nx Ay]]]]].
          destruct (Forall2_In_r _ _ _ _ Hm Hx) as [it1 [H1 M1]].
          destruct (Forall2_In_r _ _ _ _ Hm Hy) as [it2 [H2 M2]].
          apply filter_In in H1, H2.
          exists it1, it2.
          split; [tauto |]. split; [tauto |].
          split; [now apply (made_from_naive it1 x M1) |].
          split; [tauto |]. split; [tauto |].
          intros N2. apply (made_from_naive it2 y M2) in N2. congruence. }
        split; [split; [discriminate | tauto] |].
        split; [split; [tauto | reflexivity] |].
        split; [intros [r E]; discriminate | tauto].
  - intros r E. unfold main in E.
    destruct (filter_items u w source_url raw 0 [] []) as [res|e] eqn:F;
      cbn [bind] in E; [| discriminate].
    clear E. revert F. generalize 0%nat, (@nil item), (@nil (reason * nat)).
    induction raw as [|it raw IH]; intros n inc cnt; [constructor |].
    cbn [filter_items]. unfold build_searchable_text at 1.
    destruct (strip_html w (description it)) as [text|e] eqn:Hr; cbn [bind];
      [| discriminate].
    intros F. constructor; [now exists text |]. revert F.
    destruct (classify_item u _) as [[|] rs]; [| apply IH].
    destruct (parse_pub_date w (clock w n) (Some (pub_date_str it)));
      cbn [bind]; [| discriminate].
    destruct (stable_guid (link it)); cbn [bind]; [| discriminate].
    apply IH.
Qed.

End Stops.

Lemma demo_world_strptime : strptime_raises_value_error demo_world.
Proof.
  intros s fmt e. simpl. unfold lookup_format.
  destruct (find _ iso_dates); congruence.
Qed.

Lemma the_run_ends_in_one_of_four_ways_witness :
  main latin1 demo_world FEED_URL
    [listing (lit "Education Specialist, P-4") (lit "https://jobs.unicef.org/job/1")
       (lit "Mon, 20 Nov 1995 19:12:08 -0000");
     listing (lit "Health Specialist, P-3") (lit "https://jobs.unicef.org/job/2")
       (lit "Mon, 15 Jan 2024 10:00:00 +0100")] = Raises TypeError /\
  main latin1 demo_world FEED_URL
    [listing (lit "Education Specialist, P-4") (0xD800 :: lit "/job/1") []] =
    Raises UnicodeEncodeError /\
  main latin1 strict_world FEED_URL
    [listing (lit "Education Specialist, P-4") (lit "https://jobs.unicef.org/job/1") [];
     {| title := lit "Driver, GS-4";
        link := lit "https://jobs.unicef.org/job/2";
        description := lit "<![x ";
        pub_date_str := [];
        categories := [] |}] = Raises OtherException.
Proof.
  split; [| split].
  - apply (the_run_ends_in_one_of_four_ways latin1 demo_world FEED_URL demo_world_strptime).
    + repeat (apply Forall_cons; [exists []; reflexivity |]). apply Forall_nil.
    + split.
      * intros [it [Hin [_ Hs]]].
        destruct Hin as [<- | [<- | []]]; vm_compute in Hs; discriminate.
      * eexists _, _. split; [left; reflexivity |]. split; [reflexivity |]. split.
        -- split; [discriminate |]. eexists. split; reflexivity.
        -- split; [right; left; reflexivity |]. split; [reflexivity |].
           intros [_ [dt [Er Hn]]]. vm_compute in Er. apply Returns_inj in Er.
           subst dt. discriminate.
  - apply (the_run_ends_in_one_of_four_ways latin1 demo_world FEED_URL demo_world_strptime).
    + repeat (apply Forall_cons; [exists []; reflexivity |]). apply Forall_nil.
    + eexists. split; [left; reflexivity |]. split; reflexivity.
  - set (a := listing (lit "Education Specialist, P-4")
                (lit "https://jobs.unicef.org/job/1") []).
    set (b := {| title := lit "Driver, GS-4"; link := _; description := _;
                 pub_date_str := _; categories := _ |}).
    apply (proj1 (the_run_ends_in_one_of_four_ways latin1 strict_world FEED_URL
                    demo_world_strptime [a; b])
             [a] b [] OtherException).
    + reflexivity.
    + apply Forall_cons; [| apply Forall_nil].
      split; [exists []; reflexivity | intros _; reflexivity].
    + reflexivity.
Defined.

(** ** The download *)

Section Downloads.

Variable lower : str -> str.
Variable get : str -> request_error + Requests.Response.

(** What the loop does at one address. *)
Lemma try_urls_step (url : str) (rest : list str) :
  try_urls lower get (url :: rest) =
  match get url with
  | inr resp =>
      if acceptable lower resp then inr (Requests.content resp, url)
      else try_urls lower get rest
  | inl RequestException => try_urls lower get rest
  | inl OtherError => inl Uncaught
  end.
Proof.
  cbn [try_urls]. destruct (get url) as [[|]|resp]; try reflexivity.
  unfold acceptable.
  destruct (Requests.status_code resp =? 200); [| reflexivity]. cbn [negb andb].
  destruct (contains _ (lit "xml")), (contains _ (lit "rss")),
    (contains _ (lit "<rss")); cbn [negb andb orb]; try reflexivity;
    destruct (contains (lower (firstn 5000 _)) (lit "<item")),
      (contains (lower (Requests.text resp)) (lit "<item")); reflexivity.
Qed.

Lemma try_urls_passed_over (before rest : list str) :
  Forall (passed_over lower get) before ->
  try_urls lower get (before ++ rest) = try_urls lower get rest.
Proof.
  induction 1 as [|url before Hu _ IH]; [reflexivity |].
  cbn [app]. rewrite try_urls_step.
  destruct Hu as [-> | [resp [-> ->]]]; exact IH.
Qed.

Lemma try_urls_spec (urls : list str) :
  match try_urls lower get urls with
  | inr (body, url) =>
      exists before after resp,
        urls = before ++ url :: after /\ Forall (passed_over lower get) before /\
        get url = inr resp /\ acceptable lower resp = true /\
        body = Requests.content resp
  | inl RuntimeError => Forall (passed_over lower get) urls
  | inl Uncaught =>
      exists before url after,
        urls = before ++ url :: after /\ Forall (passed_over lower get) before /\
        get url = inl OtherError
  end.
Proof.
  induction urls as [|url urls IH]; [constructor |].
  rewrite try_urls_step.
  destruct (get url) as [[|]|resp] eqn:G.
  - assert (Hp : passed_over lower get url) by now left.
    destruct (try_urls lower get urls) as [[|]|[body url']].
    + now constructor.
    + destruct IH as [before [url' [after [-> [Hb Hg]]]]].
      exists (url :: before), url', after. repeat split; [now constructor | exact Hg].
    + destruct IH as [before [after [resp [-> [Hb [Hg [Ha Hc]]]]]]].
      exists (url :: before), after, resp. repeat split; try assumption. now constructor.
  - exists [], url, urls. repeat split; [constructor | exact G].
  - destruct (acceptable lower resp) eqn:A.
    + exists [], urls, resp. repeat split; try assumption. constructor.
    + assert (Hp : passed_over lower get url) by (right; now exists resp).
      destruct (try_urls lower get urls) as [[|]|[body url']].
      * now constructor.
      * destruct IH as [before [url' [after [-> [Hb Hg]]]]].
        exists (url :: before), url', after. repeat split; [now constructor | exact Hg].
      * destruct IH as [before [after [resp' [-> [Hb [Hg [Ha Hc]]]]]]].
        exists (url :: before), after, resp'. repeat split; try assumption.
        now constructor.
Qed.

(** X16: [download_feed] returns the body and the address of the
    first of the four addresses, in their order, whose response is
    acceptable (status 200, the look of XML or RSS, an item in it),
    having passed over the addresses before it, each for a
    [RequestException] or a response that is not acceptable; it raises
    [RuntimeError] exactly when it passes over all four; another
    exception of [requests.get] is not caught. *)
Theorem download_feed_takes_the_first_acceptable_response :
  (forall body url,
     download_feed lower get = inr (body, url) <->
     exists before after resp,
       FEED_URLS = before ++ url :: after /\ Forall (passed_over lower get) before /\
       get url = inr resp /\ acceptable lower resp = true /\
       body = Requests.content resp) /\
  (download_feed lower get = inl RuntimeError <->
   Forall (passed_over lower get) FEED_URLS) /\
  (download_feed lower get = inl Uncaught <->
   exists before url after,
     FEED_URLS = before ++ url :: after /\ Forall (passed_over lower get) before /\
     get url = inl OtherError).
Proof.
  unfold download_feed. pose proof (try_urls_spec FEED_URLS) as H.
  split; [| split].
  - intros body url. split.
    + intros E. rewrite E in H. exact H.
    + intros [before [after [resp [-> [Hb [Hg [Ha ->]]]]]]].
      rewrite (try_urls_passed_over before _ Hb), try_urls_step, Hg, Ha. reflexivity.
  - split.
    + intros E. rewrite E in H. exact H.
    + intros Hall. rewrite <- (app_nil_r FEED_URLS).
      now rewrite (try_urls_passed_over FEED_URLS [] Hall).
  - split.
    + intros E. rewrite E in H. exact H.
    + intros [before [url [after [-> [Hb Hg]]]]].
      rewrite (try_urls_passed_over before _ Hb), try_urls_step, Hg. reflexivity.
Qed.

End Downloads.

(** ** Reading items *)

Lemma text_of_find (t s : str) (el : ET.Element) :
  text_of (ET.find t el) = Some s ->
  s <> [] /\
  exists child, In child (ET.children el) /\ ET.tag child = t /\ ET.text child = Some s.
Proof.
  unfold text_of, ET.find.
  destruct (find _ (ET.children el)) as [child|] eqn:F; [| discriminate].
  apply find_some in F. destruct F as [Hin Ht]. apply str_eqb_eq in Ht.
  destruct (ET.text child) as [[|c s']|] eqn:E; try discriminate.
  intros H. injection H as <-. split; [discriminate |]. now exists child.
Qed.

Lemma namespaced_text_child (el : ET.Element) (namespaces : list str) (t : str) :
  namespaced_text el namespaces t <> [] ->
  exists ns child,
    In ns namespaces /\ In child (ET.children el) /\ ET.tag child = ns ++ t /\
    ET.text child = Some (namespaced_text el namespaces t).
Proof.
  induction namespaces as [|ns rest IH]; cbn [namespaced_text]; [easy |].
  destruct (text_of (ET.find (ns ++ t) el)) as [s|] eqn:E.
  - intros _. destruct (text_of_find _ _ _ E) as [_ [child [Hin [Ht Hs]]]].
    exists ns, child. repeat split; [now left | assumption ..].
  - intros H. destruct (IH H) as [ns' [child [Hns [Hin [Ht Hs]]]]].
    exists ns', child. repeat split; [now right | assumption ..].
Qed.

(** X17: [get_item_text] returns a string in every case; when it is
    not empty it is the text of a child of the element whose tag is
    the tag asked for, plain or under the RSS 1.0 or the Dublin Core
    namespace; and the plain tag comes first: the text of the first
    child of the plain tag, when it has one that is not empty, is the
    answer. *)
Theorem get_item_text_is_the_text_of_a_child (item_el : ET.Element) (tag : str) :
  (get_item_text item_el tag <> [] ->
   exists child,
     In child (ET.children item_el) /\
     ET.text child = Some (get_item_text item_el tag) /\
     (ET.tag child = tag \/
      ET.tag child = lit "{http://purl.org/rss/1.0/}" ++ tag \/
      ET.tag child = lit "{http://purl.org/dc/elements/1.1/}" ++ tag)) /\
  (forall before child after c s,
     ET.children item_el = before ++ child :: after ->
     Forall (fun e => ET.tag e <> tag) before ->
     ET.tag child = tag -> ET.text child = Some (c :: s) ->
     get_item_text item_el tag = c :: s).
Proof.
  split.
  - unfold get_item_text.
    destruct (text_of (ET.find tag item_el)) as [s|] eqn:E.
    + intros _. destruct (text_of_find _ _ _ E) as [_ [child [Hin [Ht Hs]]]].
      exists child. tauto.
    + intros H. destruct (namespaced_text_child _ _ _ H) as [ns [child [Hns [Hin [Ht Hs]]]]].
      exists child. split; [exact Hin |]. split; [exact Hs |].
      destruct Hns as [<- | [<- | []]]; tauto.
  - intros before child after c s Ec Hb Ht Hs. unfold get_item_text, ET.find.
    rewrite Ec.
    assert (F : find (fun e => str_eqb (ET.tag e) tag) (before ++ child :: after) =
                Some child).
    { clear Ec. induction Hb as [|e before He _ IH]; cbn [app find].
      - rewrite Ht. now rewrite (proj2 (str_eqb_eq tag tag) eq_refl).
      - destruct (str_eqb (ET.tag e) tag) eqn:Ee; [| exact IH].
        apply str_eqb_eq in Ee. contradiction. }
    rewrite F. cbn [text_of]. now rewrite Hs.
Qed.

(** ** The feed written *)

Lemma item_element_descendants (x : item) :
  filter (fun c => str_eqb (ET.tag c) (lit "item")) (ET.descendants (item_element x)) =
  [item_element x].
Proof.
  unfold item_element. destruct (i_source_url x); reflexivity.
Qed.

Lemma item_elements_found (items : list item) :
  filter (fun c => str_eqb (ET.tag c) (lit "item"))
         (flat_map ET.descendants (map item_element items)) =
  map item_element items.
Proof.
  induction items as [|x items IH]; [reflexivity |].
  cbn [map flat_map]. rewrite filter_app, item_element_descendants, IH. reflexivity.
Qed.

Lemma iter_build_output_rss (w : World) (t : Z) (items : list item) :
  ET.iter (lit "item") (build_output_rss w t items) = map item_element items.
Proof.
  unfold ET.iter, build_output_rss. cbn [ET.descendants flat_map].
  rewrite app_nil_r, flat_map_app. cbn [filter ET.tag].
  change (str_eqb (lit "rss") (lit "item")) with false.
  change (str_eqb (lit "channel") (lit "item")) with false.
  rewrite filter_app, item_elements_found. reflexivity.
Qed.

Lemma findall_item_elements (head : list ET.Element) (items : list item) :
  Forall (fun c => str_eqb (ET.tag c) (lit "item") = false) head ->
  filter (fun c => str_eqb (ET.tag c) (lit "item")) (head ++ map item_element items) =
  map item_element items.
Proof.
  intros H. rewrite filter_app.
  assert (Eh : filter (fun c => str_eqb (ET.tag c) (lit "item")) head = []).
  { induction H as [|c head Hc _ IH]; [reflexivity |]. cbn [filter]. now rewrite Hc. }
  rewrite Eh. cbn [app].
  induction items as [|x items IH]; [reflexivity |].
  cbn [map filter]. now rewrite IH.
Qed.

(** The loop body of [parse_rss_items] reads an [item] element built
    of an item as the listing of the item. *)
Lemma parse_item_element (x : item) : parse_item (item_element x) = listing_of x.
Proof.
  destruct x as [ti li de gu pd dt su sn]. unfold listing_of.
  cbn [i_title i_link i_description i_pubDate].
  destruct ti, li, de, pd, su; reflexivity.
Qed.

(** X18: the tree that [build_output_rss] builds of the items of a
    finished run, the download address not empty: its root is [rss]
    with version 2.0 and one child, the channel; the [item] elements
    of the channel, and of the whole tree, are one for each item
    written, in their order, as many as the summary counts and at most
    fifty; and each holds the title, the link, the description, the
    guid marked as no permalink, the date text, and the source, whose
    [url] is the download address and whose text is UNICEF Careers
    RSS, and nothing else. *)
Theorem the_feed_holds_the_items_of_the_run (u : UCD) (w : World) (source_url : str)
  (t : Z) (raw : list raw_item) (r : run) :
  main u w source_url raw = Returns r ->
  source_url <> [] ->
  (exists channel,
     build_output_rss w t (written r) =
       ET.Node (lit "rss")
         [(lit "version", lit "2.0"); (lit "xmlns:atom", lit "http://www.w3.org/2005/Atom")]
         None [channel] /\
     ET.tag channel = lit "channel" /\
     ET.findall (lit "item") channel = map item_element (written r)) /\
  ET.iter (lit "item") (build_output_rss w t (written r)) = map item_element (written r) /\
  length (ET.iter (lit "item") (build_output_rss w t (written r))) = included_count r /\
  (included_count r <= MAX_ITEMS)%nat /\
  (forall x, In x (written r) ->
     item_element x =
     ET.Node (lit "item") [] None
       [ET.Node (lit "title") [] (Some (i_title x)) [];
        ET.Node (lit "link") [] (Some (i_link x)) [];
        ET.Node (lit "description") [] (Some (i_description x)) [];
        ET.Node (lit "guid") [(lit "isPermaLink", lit "false")] (Some (i_guid x)) [];
        ET.Node (lit "pubDate") [] (Some (i_pubDate x)) [];
        ET.Node (lit "source") [(lit "url", source_url)]
          (Some (lit "UNICEF Careers RSS")) []]).
Proof.
  intros E Hne.
  destruct (main_candidates u w source_url raw r E) as [cands [_ [Hsrc [_ Hw]]]].
  destruct (main_spec u w source_url raw r E) as [cands' [_ [_ [_ [Hi _]]]]].
  split; [| split; [| split; [| split]]].
  - eexists. split; [reflexivity |]. split; [reflexivity |].
    unfold ET.findall. cbn [ET.children]. apply findall_item_elements.
    repeat (apply Forall_cons; [reflexivity |]). apply Forall_nil.
  - apply iter_build_output_rss.
  - rewrite iter_build_output_rss, length_map. symmetry. exact Hi.
  - rewrite Hi, Hw, length_firstn. lia.
  - intros x Hx.
    assert (Hc : In x cands).
    { rewrite Hw in Hx. apply In_firstn in Hx.
      exact (Permutation_in x (sorted_newest_first_perm cands) Hx). }
    rewrite Forall_forall in Hsrc. destruct (Hsrc x Hc) as [Hu Hn].
    unfold item_element. rewrite Hu, Hn.
    destruct source_url as [|c s]; [contradiction | reflexivity].
Qed.

Lemma the_feed_holds_the_items_of_the_run_witness :
  exists r,
    main latin1 demo_world FEED_URL (demo_feed 2) = Returns r /\
    length (ET.iter (lit "item") (build_output_rss demo_world 0 (written r))) = 2%nat.
Proof.
  destruct (main latin1 demo_world FEED_URL (demo_feed 2)) as [r|e] eqn:E;
    [| vm_compute in E; discriminate].
  exists r. split; [reflexivity |].
  destruct (the_feed_holds_the_items_of_the_run latin1 demo_world FEED_URL 0
              (demo_feed 2) r E) as [_ [_ [Hl _]]]; [discriminate |].
  rewrite Hl. vm_compute in E. apply Returns_inj in E. subst r. reflexivity.
Defined.

(** ** A grade standing alone *)

Section Standalone.

Variable u : UCD.
Hypothesis laws : UCD_laws u.

Lemma is_word_latin1 (c : Z) : 0 <= c < 128 -> is_word u c = is_word latin1 c.
Proof.
  intros H. now apply is_word_ascii.
Qed.

Lemma decimal_is_word (c : Z) : is_decimal u c = true -> is_word u c = true.
Proof.
  intros H. unfold is_word. now rewrite (decimal_alnum u laws c H).
Qed.

Lemma prefix_letters (p : str) (c : Z) :
  In p EXTRACTED_PREFIXES -> In c p ->
  is_word u c = true /\ is_decimal u c = false.
Proof.
  intros Hp Hc.
  assert (Ha : 0 <= c < 128 /\ is_word latin1 c = true /\ ascii_digit c = false).
  { cbv in Hp.
    repeat (destruct Hp as [<- | Hp]; [cbv in Hc; intuition (subst; cbv; intuition congruence) |]).
    contradiction. }
  destruct Ha as [Hr [Hw Hd]].
  now rewrite (is_word_latin1 c Hr), (decimal_ascii u laws c Hr).
Qed.

Lemma hyphen_is_no_word : is_word u 0x2D = false.
Proof.
  now rewrite is_word_latin1 by lia.
Qed.

(** The digits are taken to the last, and the boundary after them
    holds. *)
Lemma digits_to_the_boundary (ds post : str) (cs : Re.caps) :
  ds <> [] -> Forall (fun c => is_decimal u c = true) ds ->
  (forall c l, post = c :: l -> is_word u c = false) ->
  forall prev,
    Re.plus_loop (is_decimal u)
      (Re.rmatch (is_word u) Re.WordB (fun cs' _ s' => Some (cs', s')))
      cs prev (ds ++ post) = Some (cs, post).
Proof.
  intros Hne Hd Hpost. induction Hd as [|d ds Hd Hds IH]; [easy |].
  intros prev. cbn [app]. rewrite plus_loop_step, Hd.
  destruct ds as [|d' ds].
  - cbn [app].
    assert (Hstop : Re.plus_loop (is_decimal u)
                      (Re.rmatch (is_word u) Re.WordB (fun cs' _ s' => Some (cs', s')))
                      cs (Some d) post = None).
    { destruct post as [|c l]; [reflexivity |]. rewrite plus_loop_step.
      destruct (is_decimal u c) eqn:Ec; [| reflexivity].
      apply decimal_is_word in Ec. rewrite (Hpost c l eq_refl) in Ec. discriminate. }
    rewrite Hstop. cbn [Re.rmatch Re.word_at]. rewrite (decimal_is_word d Hd).
    destruct post as [|c l]; cbn [hd_error Re.word_at]; [reflexivity |].
    now rewrite (Hpost c l eq_refl).
  - now rewrite IH.
Qed.

(** The pattern matches a grade that stands alone, all of it. *)
Lemma numbered_grade_matches (p ds post : str) (prev : option Z) :
  In p EXTRACTED_PREFIXES ->
  ds <> [] -> Forall (fun c => is_decimal u c = true) ds ->
  (forall c l, post = c :: l -> is_word u c = false) ->
  Re.word_at (is_word u) prev = false ->
  exists cs,
    Re.match_at (is_word u) (numbered_grade u) prev ((p ++ lit "-" ++ ds) ++ post) =
    Some (cs, length (p ++ lit "-" ++ ds)).
Proof.
  intros Hp Hne Hd Hpost Hprev. exists Re.no_caps. unfold Re.match_at.
  pose proof (digits_to_the_boundary ds post Re.no_caps Hne Hd Hpost) as T.
  cbn in T.
  assert (M : Re.rmatch (is_word u) (numbered_grade u) (fun cs' _ s' => Some (cs', s'))
                Re.no_caps prev ((p ++ lit "-" ++ ds) ++ post) = Some (Re.no_caps, post)).
  { unfold numbered_grade. cbn [Re.rmatch].
    assert (Hfirst : Re.word_at (is_word u) (hd_error ((p ++ lit "-" ++ ds) ++ post)) = true).
    { destruct p as [|c p'].
      - cbv in Hp. intuition discriminate.
      - cbn [app hd_error Re.word_at]. apply (prefix_letters (c :: p') c Hp). now left. }
    rewrite Hprev, Hfirst. cbn [xorb].
    rewrite <- !app_assoc. change (lit "-" ++ ds ++ post) with (0x2D :: ds ++ post).
    cbv in Hp.
    repeat (destruct Hp as [<- | Hp];
            [cbn; rewrite !T; reflexivity |]).
    contradiction. }
  rewrite M. f_equal. f_equal. rewrite length_app. lia.
Qed.


(** A match that starts before a grade standing alone ends before
    it. *)
Lemma match_ends_before (pre rest : str) (c0 : Z) (prev : option Z)
  (cs : Re.caps) (n : nat) :
  pre <> [] ->
  (forall l c, pre = l ++ [c] -> is_word u c = false) ->
  is_decimal u c0 = false ->
  Re.match_at (is_word u) (numbered_grade u) prev (pre ++ c0 :: rest) = Some (cs, n) ->
  (n <= length pre)%nat.
Proof.
  intros Hne Hlast Hd0 E.
  destruct (match_at_sound _ _ _ _ _ _ E) as [tail [Es Hm]].
  destruct (Nat.le_gt_cases n (length pre)) as [Hle | Hgt]; [exact Hle | exfalso].
  apply numbered_grade_shape in Hm. destruct Hm as [p [ds [Hp [_ [Hd Eg]]]]].
  assert (Ef : firstn n (pre ++ c0 :: rest) = pre ++ c0 :: firstn (n - S (length pre)) rest).
  { rewrite firstn_app. rewrite firstn_all2 by lia. f_equal.
    replace (n - length pre)%nat with (S (n - S (length pre))) by lia. reflexivity. }
  rewrite Ef in Eg. clear Ef Es E.
  destruct (exists_last Hne) as [l [c El]]. pose proof (Hlast l c El) as Hc. subst pre.
  rewrite <- app_assoc in Eg. cbn [app] in Eg.
  change (lit "-" ++ ds) with (0x2D :: ds) in Eg.
  assert (Hds : forall x, In x ds -> is_word u x = true /\ is_decimal u x = true).
  { intros x Hx. rewrite Forall_forall in Hd. split; [apply decimal_is_word |]; now apply Hd. }
  assert (Hpw : forall x, In x p -> is_word u x = true).
  { intros x Hx. now apply (prefix_letters p x Hp). }
  apply app_eq_app in Eg. destruct Eg as [m [[E1 E2] | [E1 E2]]].
  - destruct m as [|x m]; cbn [app] in E2; injection E2 as Ex Et.
    + destruct (Hds c0) as [_ H]; [rewrite Et; now left | congruence].
    + destruct (Hds c) as [H _]; [rewrite Et; apply in_elt | congruence].
  - destruct m as [|x m]; cbn [app] in E2; injection E2 as Ex Et.
    + destruct (Hds c0) as [_ H]; [rewrite <- Et; now left | congruence].
    + assert (H : is_word u c = true) by (apply Hpw; rewrite E1, Ex; apply in_elt).
      congruence.
Qed.

(** The search reaches a grade standing alone with nothing to pass
    over. *)
Lemma scan_reaches (rest : str) (c0 : Z) (pre : str) :
  is_decimal u c0 = false ->
  (forall l c, pre = l ++ [c] -> is_word u c = false) ->
  forall prev skip,
    (pre = [] -> Re.word_at (is_word u) prev = false) ->
    (skip <= length pre)%nat ->
    exists found prev',
      Re.word_at (is_word u) prev' = false /\
      Re.findall_scan (is_word u) (numbered_grade u) prev (pre ++ c0 :: rest) skip =
      found ++ Re.findall_scan (is_word u) (numbered_grade u) prev' (c0 :: rest) 0.
Proof.
  intros Hd0. induction pre as [|c pre IH]; intros Hlast prev skip Hprev Hskip.
  - exists [], prev. split; [now apply Hprev |].
    cbn [length] in Hskip. now replace skip with 0%nat by lia.
  - assert (Hlast' : forall l c', pre = l ++ [c'] -> is_word u c' = false).
    { intros l c' ->. now apply (Hlast (c :: l) c'). }
    assert (Hprev' : pre = [] -> Re.word_at (is_word u) (Some c) = false).
    { intros ->. exact (Hlast [] c eq_refl). }
    cbn [app Re.findall_scan]. destruct skip as [|k].
    + destruct (Re.match_at (is_word u) (numbered_grade u) prev (c :: pre ++ c0 :: rest))
        as [[cs n]|] eqn:E.
      * assert (Hn : (n <= length (c :: pre))%nat).
        { apply (match_ends_before (c :: pre) rest c0 prev cs n);
            [discriminate | exact Hlast | exact Hd0 | exact E]. }
        destruct (IH Hlast' (Some c) (n - 1)%nat Hprev') as [found [prev' [Hw Ef]]].
        { cbn [length] in Hn. lia. }
        rewrite Ef. now exists (firstn n (c :: pre ++ c0 :: rest) :: found), prev'.
      * exact (IH Hlast' (Some c) 0%nat Hprev' (Nat.le_0_l _)).
    + apply (IH Hlast' (Some c) k Hprev'). cbn [length] in Hskip. lia.
Qed.

(** X19: a grade standing alone is found: a prefix of the list, a
    hyphen and one or more decimal digits, with no word character
    before it and none after it, is among the tokens that
    [extract_grades] returns. *)
Theorem standalone_grades_are_extracted (pre p ds post : str) :
  In p EXTRACTED_PREFIXES ->
  ds <> [] -> Forall (fun c => is_decimal u c = true) ds ->
  (forall l c, pre = l ++ [c] -> is_word u c = false) ->
  (forall c l, post = c :: l -> is_word u c = false) ->
  In (p ++ lit "-" ++ ds) (extract_grades u (pre ++ (p ++ lit "-" ++ ds) ++ post)).
Proof.
  intros Hp Hne Hd Hpre Hpost. unfold extract_grades. apply in_or_app. left.
  unfold Re.findall.
  destruct p as [|c0 p']; [cbv in Hp; intuition discriminate |].
  destruct (prefix_letters (c0 :: p') c0 Hp (or_introl eq_refl)) as [_ Hd0].
  destruct (scan_reaches ((p' ++ lit "-" ++ ds) ++ post) c0 pre Hd0 Hpre None 0%nat
              (fun _ => eq_refl) (Nat.le_0_l _)) as [found [prev' [Hw Ef]]].
  change (pre ++ ((c0 :: p') ++ lit "-" ++ ds) ++ post)
    with (pre ++ c0 :: (p' ++ lit "-" ++ ds) ++ post).
  rewrite Ef. apply in_or_app. right.
  destruct (numbered_grade_matches (c0 :: p') ds post prev' Hp Hne Hd Hpost Hw) as [cs E].
  change (c0 :: (p' ++ lit "-" ++ ds) ++ post)
    with (((c0 :: p') ++ lit "-" ++ ds) ++ post).
  set (g := (c0 :: p') ++ lit "-" ++ ds) in *.
  assert (Hg : exists x t, g ++ post = x :: t) by (now exists c0, ((p' ++ lit "-" ++ ds) ++ post)).
  destruct Hg as [x [t Hg]]. rewrite Hg in *. cbn [Re.findall_scan]. rewrite E.
  left. rewrite <- Hg. rewrite firstn_app, Nat.sub_diag, firstn_all. cbn [firstn].
  apply app_nil_r.
Qed.

End Standalone.

Lemma standalone_grades_are_extracted_witness :
  In (lit "P-4") (extract_grades latin1 (lit "OFFICER, P-4 (GS-6)")).
Proof.
  apply (standalone_grades_are_extracted latin1 latin1_laws
           (lit "OFFICER, ") (lit "P") (lit "4") (lit " (GS-6)")).
  - vm_compute. tauto.
  - discriminate.
  - repeat constructor.
  - intros l c E.
    assert (Hc : c = 0x20).
    { apply (f_equal (@rev Z)) in E. rewrite rev_app_distr in E.
      vm_compute in E. now injection E. }
    now subst c.
  - intros c l E. vm_compute in E. injection E as <- _. reflexivity.
Defined.

(** ** The evidence of an answer *)

Section Evidence.

Variable u : UCD.

Lemma extract_grades_occur (text g : str) :
  In g (extract_grades u text) -> occurs_in g text.
Proof.
  unfold extract_grades, Re.findall. rewrite in_app_iff.
  intros [H | H]; now apply findall_scan_sound in H.
Qed.

(** X20: every answer of the classifier but the default has its
    evidence in the text: a consultancy keyword in the normalized text
    for consultancy; a token of the excluded families in the
    normalized, hyphenated text for excluded-grade; one of P-1 to P-5,
    D-1, D-2 in that text for included-grade, and then no consultancy
    keyword; an internship keyword in the normalized text for
    internship; and the default answer is given only to a text whose
    normal form holds no keyword of either list. *)
Theorem every_answer_has_its_evidence (text : str) :
  (classify_item u text = (exclude, consultancy) ->
   exists kw, In kw CONSULTANCY_KEYWORDS /\ occurs_in kw (normalize u text)) /\
  (classify_item u text = (exclude, excluded_grade) ->
   exists g, excluded_token g /\ occurs_in g (normalize_grade u (normalize u text))) /\
  (classify_item u text = (include, included_grade) ->
   (exists g, In g INCLUDED_GRADES /\ occurs_in g (normalize_grade u (normalize u text))) /\
   forall kw, In kw CONSULTANCY_KEYWORDS -> ~ occurs_in kw (normalize u text)) /\
  (classify_item u text = (include, internship) ->
   exists kw, In kw INTERNSHIP_KEYWORDS /\ occurs_in kw (normalize u text)) /\
  (classify_item u text = (exclude, no_grade_match) ->
   forall kw, In kw (CONSULTANCY_KEYWORDS ++ INTERNSHIP_KEYWORDS) ->
              ~ occurs_in kw (normalize u text)).
Proof.
  unfold classify_item.
  destruct (has_keyword (normalize u text) CONSULTANCY_KEYWORDS) eqn:Hc.
  { apply has_keyword_evidence in Hc.
    split; [| split; [| split; [| split]]]; intros E; try discriminate E. exact Hc. }
  assert (Nc : forall kw, In kw CONSULTANCY_KEYWORDS -> ~ occurs_in kw (normalize u text)).
  { intros kw Hin Ho.
    assert (H : has_keyword (normalize u text) CONSULTANCY_KEYWORDS = true)
      by (apply has_keyword_evidence; now exists kw).
    congruence. }
  destruct (existsb is_excluded_grade _) eqn:Hx.
  { apply existsb_exists in Hx. destruct Hx as [g [Hin Hg]].
    apply is_excluded_grade_spec in Hg. apply extract_grades_occur in Hin.
    split; [| split; [| split; [| split]]]; intros E; try discriminate E. now exists g. }
  destruct (existsb (fun g => mem g INCLUDED_GRADES) _) eqn:Hi.
  { apply existsb_exists in Hi. destruct Hi as [g [Hin Hg]].
    apply mem_In in Hg. apply extract_grades_occur in Hin.
    split; [| split; [| split; [| split]]]; intros E; try discriminate E.
    split; [now exists g | exact Nc]. }
  destruct (has_keyword (normalize u text) INTERNSHIP_KEYWORDS) eqn:Hn.
  { apply has_keyword_evidence in Hn.
    split; [| split; [| split; [| split]]]; intros E; try discriminate E. exact Hn. }
  split; [| split; [| split; [| split]]]; intros E; try discriminate E.
  intros kw Hin Ho.
  apply in_app_iff in Hin. destruct Hin as [Hin | Hin]; [exact (Nc kw Hin Ho) |].
  assert (H : has_keyword (normalize u text) INTERNSHIP_KEYWORDS = true)
    by (apply has_keyword_evidence; now exists kw).
  congruence.
Qed.

End Evidence.

(** ** Hyphens at every grade that stands alone *)

Lemma after_cons (prev : option Z) (c : Z) (s : str) :
  after prev (c :: s) = after (Some c) s.
Proof.
  unfold after. cbn [rev]. destruct (rev s) as [|x l]; reflexivity.
Qed.

Lemma after_last (prev : option Z) (l : str) (c : Z) : after prev (l ++ [c]) = Some c.
Proof.
  unfold after. now rewrite rev_app_distr.
Qed.

Lemma after_app (prev : option Z) (a b : str) :
  after prev (a ++ b) = after (after prev a) b.
Proof.
  revert prev. induction a as [|c a IH]; intros prev; [reflexivity |].
  cbn [app]. rewrite !after_cons. apply IH.
Qed.

Section Pass.

Variable u : UCD.
Hypothesis laws : UCD_laws u.

Variable r : Re.regex.
Variable P : list str.

Hypothesis pass : finds_grades u r P.

Lemma prefix_shape (p : str) :
  In p P ->
  p <> [] /\ Forall (fun c => is_word u c = true /\ is_decimal u c = false) p.
Proof.
  exact (proj1 pass p).
Qed.

Lemma match_sound (prev : option Z) (s : str) (cs : Re.caps) (n : nat) :
  Re.match_at (is_word u) r prev s = Some (cs, n) ->
  exists p d, grade_at u P prev s p d /\ n = S (length p) /\
              hyphenate cs = p ++ lit "-" ++ [d].
Proof.
  exact (proj1 (proj2 pass) prev s cs n).
Qed.

Lemma match_complete (prev : option Z) (s p : str) (d : Z) :
  grade_at u P prev s p d ->
  exists cs, Re.match_at (is_word u) r prev s = Some (cs, S (length p)) /\
             hyphenate cs = p ++ lit "-" ++ [d].
Proof.
  exact (proj2 (proj2 pass) prev s p d).
Qed.

Lemma grade_is_a_word (p : str) (d : Z) :
  In p P -> is_decimal u d = true ->
  Forall (fun c => is_word u c = true) (p ++ [d]).
Proof.
  intros Hp Hd. apply Forall_app. split.
  - destruct (prefix_shape p Hp) as [_ H]. eapply Forall_impl; [| exact H].
    now intros c [Hc _].
  - constructor; [| constructor]. unfold is_word.
    now rewrite (decimal_alnum u laws d Hd).
Qed.

Lemma grade_at_head (prev : option Z) (c : Z) (s p : str) (d : Z) :
  grade_at u P prev (c :: s) p d -> is_word u c = true /\ is_decimal u c = false.
Proof.
  intros [Hp [_ [_ [rest [E _]]]]]. destruct (prefix_shape p Hp) as [Hne H].
  destruct p as [|c0 p']; [contradiction |]. injection E as -> _.
  now inversion H.
Qed.

Lemma grade_at_prev (prev prev' : option Z) (s p : str) (d : Z) :
  Re.word_at (is_word u) prev = Re.word_at (is_word u) prev' ->
  grade_at u P prev s p d -> grade_at u P prev' s p d.
Proof.
  intros E [Hp [Hd [Hprev H]]]. repeat split; try assumption. congruence.
Qed.

Lemma grade_or_not (prev : option Z) (s : str) :
  (exists p d, grade_at u P prev s p d) \/ (forall p d, ~ grade_at u P prev s p d).
Proof.
  destruct (Re.match_at (is_word u) r prev s) as [[cs n]|] eqn:E.
  - left. destruct (match_sound _ _ _ _ E) as [p [d [G _]]]. now exists p, d.
  - right. intros p d G. destruct (match_complete _ _ _ _ G) as [cs [E' _]]. congruence.
Qed.

(** The scan at a grade, and elsewhere. *)
Lemma scan_here (prev : option Z) (c : Z) (s p : str) (d : Z) :
  grade_at u P prev (c :: s) p d ->
  Re.sub_scan (is_word u) r hyphenate prev (c :: s) 0 =
  (p ++ lit "-" ++ [d]) ++ Re.sub_scan (is_word u) r hyphenate (Some c) s (length p).
Proof.
  intros G. destruct (match_complete _ _ _ _ G) as [cs [E H]].
  cbn [Re.sub_scan]. now rewrite E, H.
Qed.

Lemma scan_on (prev : option Z) (c : Z) (s : str) :
  (forall p d, ~ grade_at u P prev (c :: s) p d) ->
  Re.sub_scan (is_word u) r hyphenate prev (c :: s) 0 =
  c :: Re.sub_scan (is_word u) r hyphenate (Some c) s 0.
Proof.
  intros N. cbn [Re.sub_scan].
  destruct (Re.match_at (is_word u) r prev (c :: s)) as [[cs n]|] eqn:E; [| reflexivity].
  destruct (match_sound _ _ _ _ E) as [p [d [G _]]]. now destruct (N p d).
Qed.

Lemma scan_skip (a b : str) :
  forall prev,
    Re.sub_scan (is_word u) r hyphenate prev (a ++ b) (length a) =
    Re.sub_scan (is_word u) r hyphenate (after prev a) b 0.
Proof.
  induction a as [|c a IH]; intros prev; [reflexivity |].
  cbn [app length Re.sub_scan]. rewrite after_cons. apply IH.
Qed.

Lemma scan_prev (prev prev' : option Z) (s : str) :
  Re.word_at (is_word u) prev = Re.word_at (is_word u) prev' ->
  Re.sub_scan (is_word u) r hyphenate prev s 0 =
  Re.sub_scan (is_word u) r hyphenate prev' s 0.
Proof.
  intros E. destruct s as [|c s]; [reflexivity |].
  destruct (grade_or_not prev (c :: s)) as [[p [d G]] | N].
  - rewrite (scan_here _ _ _ _ _ G).
    now rewrite (scan_here _ _ _ _ _ (grade_at_prev _ prev' _ _ _ E G)).
  - rewrite !scan_on; [reflexivity | | exact N].
    intros p d G. apply (N p d). now apply (grade_at_prev prev' prev).
Qed.

Lemma scan_not_a_letter (prev : option Z) (c : Z) (s : str) :
  is_word u c = false \/ is_decimal u c = true ->
  Re.sub_scan (is_word u) r hyphenate prev (c :: s) 0 =
  c :: Re.sub_scan (is_word u) r hyphenate (Some c) s 0.
Proof.
  intros H. apply scan_on. intros p d G. apply grade_at_head in G.
  destruct G as [Hw Hd]. destruct H; congruence.
Qed.

Lemma scan_from_a_boundary (prev : option Z) (s : str) :
  starts_with_word u s = false ->
  Re.sub_scan (is_word u) r hyphenate prev s 0 =
  Re.sub_scan (is_word u) r hyphenate None s 0.
Proof.
  destruct s as [|c s]; [reflexivity |]. unfold starts_with_word. cbn [hd_error Re.word_at].
  intros H. now rewrite !scan_not_a_letter by now left.
Qed.

(** A grade of a text that is followed by more text. *)
Lemma grade_at_within (prev : option Z) (s1 s2 p : str) (d : Z) :
  s1 <> [] ->
  Re.word_at (is_word u) (after prev s1) = false \/ starts_with_word u s2 = false ->
  grade_at u P prev (s1 ++ s2) p d -> grade_at u P prev s1 p d.
Proof.
  intros Hne J [Hp [Hd [Hprev [rest [E Hrest]]]]].
  pose proof (grade_is_a_word p d Hp Hd) as Hw. rewrite Forall_forall in Hw.
  change (p ++ d :: rest) with (p ++ [d] ++ rest) in E. rewrite app_assoc in E.
  apply app_eq_app in E. destruct E as [m [[E1 E2] | [E1 E2]]].
  - repeat split; try assumption. exists m. split; [now rewrite E1, <- app_assoc |].
    destruct m as [|x m]; [reflexivity |]. now rewrite E2 in Hrest.
  - destruct m as [|x m].
    + rewrite app_nil_r in E1. repeat split; try assumption. exists [].
      split; [now rewrite <- E1 | reflexivity].
    + exfalso. destruct (exists_last Hne) as [l [c El]]. subst s1.
      rewrite after_last in J. subst s2. unfold starts_with_word in J.
      cbn [app hd_error Re.word_at] in J.
      rewrite (Hw c), (Hw x) in J.
      * destruct J; discriminate.
      * rewrite E1. apply in_or_app. right. now left.
      * rewrite E1. apply in_or_app. left. apply in_or_app. right. now left.
Qed.

Lemma grade_at_extends (prev : option Z) (s1 s2 p : str) (d : Z) :
  Re.word_at (is_word u) (after prev s1) = false \/ starts_with_word u s2 = false ->
  grade_at u P prev s1 p d -> grade_at u P prev (s1 ++ s2) p d.
Proof.
  intros J [Hp [Hd [Hprev [rest [E Hrest]]]]]. repeat split; try assumption.
  exists (rest ++ s2). split.
  - rewrite E, <- app_assoc. reflexivity.
  - destruct rest as [|x rest]; [| exact Hrest]. cbn [app].
    destruct J as [J | J]; [| exact J]. exfalso.
    change (p ++ [d]) with (p ++ [d]) in E. rewrite E, after_last in J.
    cbn [Re.word_at] in J. unfold is_word in J.
    rewrite (decimal_alnum u laws d Hd) in J. discriminate.
Qed.

Lemma grade_at_length (prev : option Z) (c : Z) (s p : str) (d : Z) :
  grade_at u P prev (c :: s) p d -> (length p <= length s)%nat.
Proof.
  intros [_ [_ [_ [rest [E _]]]]].
  apply (f_equal (@length Z)) in E. rewrite length_app in E. simpl in E. lia.
Qed.

(** The scan of a text in two parts that meet at a word boundary. *)
Lemma scan_split (s1 s2 : str) :
  forall prev k,
    (k <= length s1)%nat ->
    Re.word_at (is_word u) (after prev s1) = false \/ starts_with_word u s2 = false ->
    Re.sub_scan (is_word u) r hyphenate prev (s1 ++ s2) k =
    Re.sub_scan (is_word u) r hyphenate prev s1 k ++
    Re.sub_scan (is_word u) r hyphenate (after prev s1) s2 0.
Proof.
  induction s1 as [|c s1 IH]; intros prev k Hk J.
  - destruct k; [reflexivity | simpl in Hk; lia].
  - rewrite after_cons in *. destruct k as [|k].
    + destruct (grade_or_not prev ((c :: s1) ++ s2)) as [[p [d G]] | N].
      * assert (G' : grade_at u P prev (c :: s1) p d).
        { apply (grade_at_within prev (c :: s1) s2); [discriminate | | exact G].
          now rewrite after_cons. }
        cbn [app] in G |- *.
        rewrite (scan_here _ _ _ _ _ G), (scan_here _ _ _ _ _ G').
        rewrite <- (app_assoc (p ++ lit "-" ++ [d]) _ _).
        f_equal. apply IH; [exact (grade_at_length _ _ _ _ _ G') | exact J].
      * assert (N' : forall p d, ~ grade_at u P prev (c :: s1) p d).
        { intros p d G. apply (N p d). apply grade_at_extends; [| exact G].
          now rewrite after_cons. }
        cbn [app] in N |- *. rewrite (scan_on _ _ _ N), (scan_on _ _ _ N').
        cbn [app]. f_equal. apply IH; [lia | exact J].
    + cbn [app Re.sub_scan]. apply IH; [simpl in Hk; lia | exact J].
Qed.

(** A text without a grade of its own is left as it is. *)
Lemma scan_unchanged (s : str) :
  forall prev,
    (forall a b p d, s = a ++ b -> ~ grade_at u P (after prev a) b p d) ->
    Re.sub_scan (is_word u) r hyphenate prev s 0 = s.
Proof.
  induction s as [|c s IH]; intros prev N; [reflexivity |].
  rewrite scan_on by (intros p d; exact (N [] (c :: s) p d eq_refl)).
  f_equal. apply IH. intros a b p d E.
  rewrite <- (after_cons prev). apply N. now rewrite E.
Qed.

(** The pass at a grade that stands alone in the text. *)
Lemma pass_at_a_grade (pre p : str) (d : Z) (post : str) :
  In p P -> is_decimal u d = true ->
  ends_in_word u pre = false -> starts_with_word u post = false ->
  Re.sub_scan (is_word u) r hyphenate None (pre ++ p ++ [d] ++ post) 0 =
  Re.sub_scan (is_word u) r hyphenate None pre 0 ++ p ++ lit "-" ++ [d] ++
  Re.sub_scan (is_word u) r hyphenate None post 0.
Proof.
  intros Hp Hd Hpre Hpost.
  rewrite (scan_split pre (p ++ [d] ++ post) None 0 (Nat.le_0_l _) (or_introl Hpre)).
  f_equal.
  assert (G : grade_at u P (after None pre) (p ++ [d] ++ post) p d).
  { repeat split; try assumption. now exists post. }
  destruct (prefix_shape p Hp) as [Hne _]. destruct p as [|c p']; [contradiction |].
  assert (Es : Re.sub_scan (is_word u) r hyphenate (Some c) (p' ++ d :: post)
                 (length (c :: p')) =
               Re.sub_scan (is_word u) r hyphenate None post 0).
  { replace (length (c :: p')) with (length (p' ++ [d]))
      by (rewrite length_app; simpl; lia).
    change (p' ++ d :: post) with (p' ++ [d] ++ post).
    rewrite app_assoc, scan_skip, after_last.
    now apply scan_from_a_boundary. }
  cbn [app] in G |- *.
  rewrite (scan_here _ _ _ _ _ G), Es. cbn [app]. now rewrite <- !app_assoc.
Qed.

(** The pass at a piece of text that it keeps wherever it stands. *)
Lemma pass_at_a_kept_piece (pre t post : str) :
  (forall prev s,
     Re.sub_scan (is_word u) r hyphenate prev (t ++ s) 0 =
     t ++ Re.sub_scan (is_word u) r hyphenate (after prev t) s 0) ->
  ends_in_word u pre = false -> starts_with_word u post = false ->
  Re.sub_scan (is_word u) r hyphenate None (pre ++ t ++ post) 0 =
  Re.sub_scan (is_word u) r hyphenate None pre 0 ++ t ++
  Re.sub_scan (is_word u) r hyphenate None post 0.
Proof.
  intros Ht Hpre Hpost.
  rewrite (scan_split pre (t ++ post) None 0 (Nat.le_0_l _) (or_introl Hpre)).
  rewrite Ht. do 2 f_equal. now apply scan_from_a_boundary.
Qed.

(** The pass keeps the boundaries at the two ends of a text. *)
Lemma pass_keeps_the_end (s : str) :
  ends_in_word u s = false ->
  ends_in_word u (Re.sub_scan (is_word u) r hyphenate None s 0) = false.
Proof.
  intros H. destruct s as [|x s]; [reflexivity |].
  destruct (@exists_last _ (x :: s)) as [l [c E]]; [discriminate |].
  rewrite E in *. unfold ends_in_word in *. rewrite after_last in H.
  cbn [Re.word_at] in H.
  rewrite (scan_split l [c] None 0 (Nat.le_0_l _) (or_intror H)).
  rewrite scan_not_a_letter by now left.
  now rewrite after_last.
Qed.

Lemma pass_keeps_the_start (s : str) :
  starts_with_word u s = false ->
  starts_with_word u (Re.sub_scan (is_word u) r hyphenate None s 0) = false.
Proof.
  destruct s as [|c s]; [reflexivity |]. unfold starts_with_word.
  cbn [hd_error Re.word_at]. intros H.
  now rewrite scan_not_a_letter by now left.
Qed.

(** A text without a grade that stands alone is left as it is. *)
Lemma pass_without_a_grade (text : str) :
  (forall pre p d post,
     text = pre ++ p ++ [d] ++ post ->
     In p P -> is_decimal u d = true ->
     ends_in_word u pre = false -> starts_with_word u post = false -> False) ->
  Re.sub_scan (is_word u) r hyphenate None text 0 = text.
Proof.
  intros N. apply scan_unchanged.
  intros a b p d E [Hp [Hd [Hprev [rest [Eb Hrest]]]]].
  apply (N a p d rest); try assumption. now rewrite E, Eb.
Qed.

(** The pass does not shorten a text. *)
Lemma pass_length (s : str) :
  forall prev k,
    (length (skipn k s) <= length (Re.sub_scan (is_word u) r hyphenate prev s k))%nat.
Proof.
  induction s as [|c s IH]; intros prev k.
  - destruct k; simpl; lia.
  - destruct k as [|k]; [| cbn [skipn Re.sub_scan]; apply IH].
    cbn [skipn]. destruct (grade_or_not prev (c :: s)) as [[p [d G]] | N].
    + rewrite (scan_here _ _ _ _ _ G).
      destruct G as [_ [_ [_ [rest [E _]]]]].
      specialize (IH (Some c) (length p)).
      assert (Ek : length (skipn (length p) s) = length rest).
      { apply (f_equal (@length Z)) in E. rewrite length_app in E. simpl in E.
        rewrite length_skipn. lia. }
      rewrite E, !length_app. simpl. lia.
    + rewrite (scan_on _ _ _ N). simpl. specialize (IH (Some c) 0%nat).
      cbn [skipn] in IH. lia.
Qed.

End Pass.

Section Grades.

Variable u : UCD.
Hypothesis laws : UCD_laws u.

Lemma grade_prefix_shape (p : str) :
  In p GRADE_PREFIXES ->
  p <> [] /\ Forall (fun c => is_word u c = true /\ is_decimal u c = false) p.
Proof.
  intros Hp. unfold GRADE_PREFIXES in Hp. cbn [In] in Hp.
  repeat (destruct Hp as [<- | Hp];
          [split; [discriminate |];
           repeat (apply Forall_cons;
                   [split;
                    [rewrite (is_word_latin1 u laws) by (cbv; intuition discriminate)
                    | rewrite (decimal_ascii u laws) by (cbv; intuition discriminate)];
                    reflexivity |]);
           apply Forall_nil |]).
  contradiction.
Qed.

Lemma grade_prefixes :
  forall p, In p GRADE_PREFIXES <-> In p TWO_LETTER_PREFIXES \/ In p ONE_LETTER_PREFIXES.
Proof.
  intros p. unfold GRADE_PREFIXES, TWO_LETTER_PREFIXES, ONE_LETTER_PREFIXES.
  cbn [In]. tauto.
Qed.

Lemma grade_pattern_sound (A : Re.regex) (P : list str) :
  (forall m, matches A m -> In m P) ->
  (forall p, In p P -> In p GRADE_PREFIXES) ->
  forall prev s cs n,
    Re.match_at (is_word u) (grade_pattern u A) prev s = Some (cs, n) ->
    exists p d, grade_at u P prev s p d /\ n = S (length p) /\
                hyphenate cs = p ++ lit "-" ++ [d].
Proof.
  intros HA HP prev s cs n.
  unfold Re.match_at, grade_pattern. cbn [Re.rmatch].
  destruct (xorb _ _) eqn:X1; [| discriminate].
  destruct (Re.rmatch (is_word u) A _ Re.no_caps prev s) as [[cs0 s0]|] eqn:E;
    [| discriminate].
  intros H. injection H as <- <-.
  destruct (rmatch_sound _ A _ _ _ _ _ E) as [m [s1 [cs1 [prev1 [-> [Hm Hk]]]]]].
  rewrite firstn_matched in Hk.
  destruct s1 as [|d s2]; [discriminate |].
  destruct (is_decimal u d) eqn:Hd; [| discriminate].
  destruct (xorb (Re.word_at (is_word u) (Some d)) _) eqn:X2; [| discriminate].
  injection Hk as <- <-.
  assert (Hw : is_word u d = true).
  { unfold is_word. now rewrite (decimal_alnum u laws d Hd). }
  pose proof (HA m Hm) as Hin.
  destruct (grade_prefix_shape m (HP m Hin)) as [Hne Hall].
  exists m, d. split; [| split].
  - split; [exact Hin |]. split; [exact Hd |]. split.
    + destruct m as [|c0 m']; [contradiction |]. inversion Hall as [|? ? [Hc _] _]; subst.
      cbn [app hd_error Re.word_at] in X1. rewrite Hc in X1.
      now destruct (Re.word_at (is_word u) prev).
    + exists s2. split; [reflexivity |]. unfold starts_with_word.
      cbn [Re.word_at] in X2. rewrite Hw in X2.
      now destruct (Re.word_at (is_word u) (hd_error s2)).
  - rewrite length_app. simpl. lia.
  - unfold hyphenate, Re.set_cap. cbn [Nat.eqb].
    change (firstn _ (d :: s2)) with (firstn (S (length s2) - length s2) (d :: s2)).
    now rewrite Nat.sub_succ_l, Nat.sub_diag by lia.
Qed.

Lemma grade_pattern_complete (A : Re.regex) (P : list str) :
  (forall k cs prev p s res,
     In p P ->
     (forall cs' prev' c s', is_decimal u c = false -> k cs' prev' (c :: s') = None) ->
     k cs (after prev p) s = Some res ->
     Re.rmatch (is_word u) A k cs prev (p ++ s) = Some res) ->
  (forall p, In p P -> In p GRADE_PREFIXES) ->
  forall prev s p d,
    grade_at u P prev s p d ->
    exists cs,
      Re.match_at (is_word u) (grade_pattern u A) prev s = Some (cs, S (length p)) /\
      hyphenate cs = p ++ lit "-" ++ [d].
Proof.
  intros HA HP prev s p d [Hp [Hd [Hprev [rest [-> Hrest]]]]].
  assert (Hw : is_word u d = true).
  { unfold is_word. now rewrite (decimal_alnum u laws d Hd). }
  assert (Hhead : Re.word_at (is_word u) (hd_error (p ++ d :: rest)) = true).
  { destruct (grade_prefix_shape p (HP p Hp)) as [Hne Hall].
    destruct p as [|c0 p']; [contradiction |]. now inversion Hall. }
  assert (Hlen : (length (p ++ d :: rest) - length rest = S (length p))%nat).
  { rewrite length_app. simpl. lia. }
  unfold starts_with_word in Hrest.
  unfold Re.match_at, grade_pattern. cbn [Re.rmatch]. rewrite Hprev, Hhead. cbn [xorb].
  eexists. split.
  - erewrite HA; cycle 1.
    + exact Hp.
    + intros cs' prev' c s' Hc. cbn beta iota. now rewrite Hc.
    + cbn beta iota. rewrite Hd. cbn [Re.word_at hd_error]. rewrite Hw, Hrest.
      cbn [xorb]. reflexivity.
    + cbn beta iota. rewrite Hlen. reflexivity.
  - unfold hyphenate, Re.set_cap. cbn [Nat.eqb].
    change (p ++ d :: rest) with (p ++ (d :: rest)). rewrite firstn_matched.
    change (firstn _ (d :: rest)) with (firstn (S (length rest) - length rest) (d :: rest)).
    now rewrite Nat.sub_succ_l, Nat.sub_diag by lia.
Qed.

Lemma two_letter_prefix_found (k : Re.kont) (cs : Re.caps) (prev : option Z)
  (p s : str) (res : Re.caps * str) :
  In p TWO_LETTER_PREFIXES ->
  (forall cs' prev' c s', is_decimal u c = false -> k cs' prev' (c :: s') = None) ->
  k cs (after prev p) s = Some res ->
  Re.rmatch (is_word u) (Re.alt (map Re.text TWO_LETTER_PREFIXES)) k cs prev (p ++ s) =
  Some res.
Proof.
  intros Hp Hk Hres.
  assert (HC : k cs (Some 0x53) (0x43 :: s) = None).
  { apply Hk. now rewrite (decimal_ascii u laws) by lia. }
  unfold TWO_LETTER_PREFIXES in Hp. cbn [In] in Hp.
  destruct Hp as [<- | [<- | [<- | [<- | [<- | []]]]]]; cbn in Hres |- *;
    rewrite ?HC, Hres; reflexivity.
Qed.

Lemma one_letter_prefix_found (k : Re.kont) (cs : Re.caps) (prev : option Z)
  (p s : str) (res : Re.caps * str) :
  In p ONE_LETTER_PREFIXES ->
  (forall cs' prev' c s', is_decimal u c = false -> k cs' prev' (c :: s') = None) ->
  k cs (after prev p) s = Some res ->
  Re.rmatch (is_word u) (Re.Cls (fun c => mem [c] [lit "P"; lit "D"; lit "G"]))
    k cs prev (p ++ s) = Some res.
Proof.
  intros Hp _ Hres. unfold ONE_LETTER_PREFIXES in Hp. cbn [In] in Hp.
  destruct Hp as [<- | [<- | [<- | []]]]; cbn in Hres |- *; exact Hres.
Qed.

Lemma one_letter_matches (m : str) :
  matches (Re.Cls (fun c => mem [c] [lit "P"; lit "D"; lit "G"])) m ->
  In m ONE_LETTER_PREFIXES.
Proof.
  intros H. inversion H as [| | p x Hx | | | | | | |]; subst.
  exact (proj1 (mem_In [x] ONE_LETTER_PREFIXES) Hx).
Qed.

Lemma two_letter_grade_sound (prev : option Z) (s : str) (cs : Re.caps) (n : nat) :
  Re.match_at (is_word u) (two_letter_grade u) prev s = Some (cs, n) ->
  exists p d, grade_at u TWO_LETTER_PREFIXES prev s p d /\ n = S (length p) /\
              hyphenate cs = p ++ lit "-" ++ [d].
Proof.
  apply (grade_pattern_sound (Re.alt (map Re.text TWO_LETTER_PREFIXES))).
  - apply matches_alt_text.
  - intros p Hp. apply grade_prefixes. now left.
Qed.

Lemma two_letter_grade_complete (prev : option Z) (s p : str) (d : Z) :
  grade_at u TWO_LETTER_PREFIXES prev s p d ->
  exists cs,
    Re.match_at (is_word u) (two_letter_grade u) prev s = Some (cs, S (length p)) /\
    hyphenate cs = p ++ lit "-" ++ [d].
Proof.
  apply (grade_pattern_complete (Re.alt (map Re.text TWO_LETTER_PREFIXES))).
  - intros k cs prev0 p0 s0 res. apply two_letter_prefix_found.
  - intros p0 Hp. apply grade_prefixes. now left.
Qed.

Lemma one_letter_grade_sound (prev : option Z) (s : str) (cs : Re.caps) (n : nat) :
  Re.match_at (is_word u) (one_letter_grade u) prev s = Some (cs, n) ->
  exists p d, grade_at u ONE_LETTER_PREFIXES prev s p d /\ n = S (length p) /\
              hyphenate cs = p ++ lit "-" ++ [d].
Proof.
  apply (grade_pattern_sound (Re.Cls (fun c => mem [c] [lit "P"; lit "D"; lit "G"]))).
  - apply one_letter_matches.
  - intros p Hp. apply grade_prefixes. now right.
Qed.

Lemma one_letter_grade_complete (prev : option Z) (s p : str) (d : Z) :
  grade_at u ONE_LETTER_PREFIXES prev s p d ->
  exists cs,
    Re.match_at (is_word u) (one_letter_grade u) prev s = Some (cs, S (length p)) /\
    hyphenate cs = p ++ lit "-" ++ [d].
Proof.
  apply (grade_pattern_complete (Re.Cls (fun c => mem [c] [lit "P"; lit "D"; lit "G"]))).
  - intros k cs prev0 p0 s0 res. apply one_letter_prefix_found.
  - intros p0 Hp. apply grade_prefixes. now right.
Qed.

End Grades.

Section EveryGrade.

Variable u : UCD.
Hypothesis laws : UCD_laws u.

Lemma two_letter_pass : finds_grades u (two_letter_grade u) TWO_LETTER_PREFIXES.
Proof.
  split; [| split].
  - intros p Hp. apply (grade_prefix_shape u laws). apply grade_prefixes. now left.
  - apply (two_letter_grade_sound u laws).
  - apply (two_letter_grade_complete u laws).
Qed.

Lemma one_letter_pass : finds_grades u (one_letter_grade u) ONE_LETTER_PREFIXES.
Proof.
  split; [| split].
  - intros p Hp. apply (grade_prefix_shape u laws). apply grade_prefixes. now right.
  - apply (one_letter_grade_sound u laws).
  - apply (one_letter_grade_complete u laws).
Qed.

(** A letter before a digit starts no grade of two letters or more. *)
Lemma no_two_letter_grade_before_a_digit (prev : option Z) (c d : Z) (s p2 : str)
  (d2 : Z) :
  is_decimal u d = true ->
  ~ grade_at u TWO_LETTER_PREFIXES prev (c :: d :: s) p2 d2.
Proof.
  intros Hd [Hp [_ [_ [rest [E _]]]]].
  assert (Hs : exists x y p', p2 = x :: y :: p' /\ is_decimal u y = false).
  { cbv in Hp.
    repeat (destruct Hp as [<- | Hp];
            [eexists _, _, _; split; [reflexivity |];
             now rewrite (decimal_ascii u laws) by lia |]).
    contradiction. }
  destruct Hs as [x [y [p' [-> Hy]]]]. injection E as _ -> _. congruence.
Qed.

(** A letter before something else than a digit starts no grade of
    one letter. *)
Lemma no_one_letter_grade_before_a_letter (prev : option Z) (c y : Z) (s p1 : str)
  (d1 : Z) :
  is_decimal u y = false ->
  ~ grade_at u ONE_LETTER_PREFIXES prev (c :: y :: s) p1 d1.
Proof.
  intros Hy [Hp [Hd [_ [rest [E _]]]]].
  cbv in Hp.
  destruct Hp as [<- | [<- | [<- | []]]]; injection E as _ -> _; congruence.
Qed.

(** The first pass keeps a grade of one letter. *)
Lemma first_pass_keeps_one_letter (p : str) (d : Z) :
  In p ONE_LETTER_PREFIXES -> is_decimal u d = true ->
  forall prev s,
    Re.sub_scan (is_word u) (two_letter_grade u) hyphenate prev ((p ++ [d]) ++ s) 0 =
    (p ++ [d]) ++
    Re.sub_scan (is_word u) (two_letter_grade u) hyphenate (after prev (p ++ [d])) s 0.
Proof.
  intros Hp Hd prev s. rewrite after_last.
  assert (Hc : exists c, p = [c]).
  { cbv in Hp. destruct Hp as [<- | [<- | [<- | []]]]; eexists; reflexivity. }
  destruct Hc as [c ->]. cbn [app].
  rewrite (scan_on u _ _ two_letter_pass) by
    (intros p2 d2; now apply no_two_letter_grade_before_a_digit).
  now rewrite (scan_not_a_letter u _ _ two_letter_pass) by now right.
Qed.

(** The second pass keeps letters before something else than a
    digit. *)
Lemma second_pass_keeps_letters (t : str) (y : Z) (s : str) :
  Forall (fun c => is_decimal u c = false) t -> is_decimal u y = false ->
  forall prev,
    Re.sub_scan (is_word u) (one_letter_grade u) hyphenate prev (t ++ y :: s) 0 =
    t ++ Re.sub_scan (is_word u) (one_letter_grade u) hyphenate (after prev t) (y :: s) 0.
Proof.
  intros Ht Hy. induction Ht as [|x t Hx Ht IH]; intros prev; [reflexivity |].
  cbn [app]. rewrite after_cons, <- IH.
  apply (scan_on u _ _ one_letter_pass). intros p1 d1.
  destruct t as [|x' t'].
  - now apply no_one_letter_grade_before_a_letter.
  - cbn [app]. apply no_one_letter_grade_before_a_letter. now inversion Ht.
Qed.

(** The second pass keeps a grade of two letters or more that has its
    hyphen. *)
Lemma second_pass_keeps_two_letter (p : str) (d : Z) :
  In p TWO_LETTER_PREFIXES -> is_decimal u d = true ->
  forall prev s,
    Re.sub_scan (is_word u) (one_letter_grade u) hyphenate prev
      ((p ++ lit "-" ++ [d]) ++ s) 0 =
    (p ++ lit "-" ++ [d]) ++
    Re.sub_scan (is_word u) (one_letter_grade u) hyphenate
      (after prev (p ++ lit "-" ++ [d])) s 0.
Proof.
  intros Hp Hd prev s.
  replace (after prev (p ++ lit "-" ++ [d])) with (Some d)
    by (rewrite app_assoc; now rewrite after_last).
  rewrite <- !app_assoc. change (lit "-" ++ [d] ++ s) with (0x2D :: d :: s).
  rewrite second_pass_keeps_letters.
  - f_equal.
    rewrite (scan_not_a_letter u _ _ one_letter_pass)
      by (left; apply (hyphen_is_no_word u laws)).
    now rewrite (scan_not_a_letter u _ _ one_letter_pass) by now right.
  - assert (Hg : In p GRADE_PREFIXES) by (apply grade_prefixes; now left).
    destruct (grade_prefix_shape u laws p Hg) as [_ H].
    eapply Forall_impl; [| exact H]. now intros c [_ Hc].
  - now rewrite (decimal_ascii u laws) by lia.
Qed.

Lemma normalize_grade_at_a_grade (pre p : str) (d : Z) (post : str) :
  In p GRADE_PREFIXES -> is_decimal u d = true ->
  ends_in_word u pre = false -> starts_with_word u post = false ->
  normalize_grade u (pre ++ p ++ [d] ++ post) =
  normalize_grade u pre ++ p ++ lit "-" ++ [d] ++ normalize_grade u post.
Proof.
  intros Hp Hd Hpre Hpost. unfold normalize_grade, Re.sub.
  pose proof (pass_keeps_the_end u laws _ _ two_letter_pass pre Hpre) as Hpre'.
  pose proof (pass_keeps_the_start u _ _ two_letter_pass post Hpost) as Hpost'.
  apply grade_prefixes in Hp. destruct Hp as [Hp | Hp].
  - rewrite (pass_at_a_grade u laws _ _ two_letter_pass pre p d post Hp Hd Hpre Hpost).
    rewrite !(app_assoc p), !(app_assoc (p ++ lit "-")).
    rewrite <- (app_assoc p).
    rewrite (pass_at_a_kept_piece u laws _ _ one_letter_pass _ (p ++ lit "-" ++ [d]) _
               (second_pass_keeps_two_letter p d Hp Hd) Hpre' Hpost').
    now rewrite <- !app_assoc.
  - rewrite (app_assoc p).
    rewrite (pass_at_a_kept_piece u laws _ _ two_letter_pass _ (p ++ [d]) _
               (first_pass_keeps_one_letter p d Hp Hd) Hpre Hpost).
    rewrite <- (app_assoc p).
    now rewrite (pass_at_a_grade u laws _ _ one_letter_pass _ p d _ Hp Hd Hpre' Hpost').
Qed.

Lemma normalize_grade_without_a_grade (text : str) :
  ~ standalone_grade u text -> normalize_grade u text = text.
Proof.
  intros N. unfold normalize_grade, Re.sub.
  rewrite (pass_without_a_grade u _ _ two_letter_pass text).
  - apply (pass_without_a_grade u _ _ one_letter_pass text).
    intros pre p d post E Hp Hd Hpre Hpost. apply N. exists pre, p, d, post.
    repeat split; try assumption. apply grade_prefixes. now right.
  - intros pre p d post E Hp Hd Hpre Hpost. apply N. exists pre, p, d, post.
    repeat split; try assumption. apply grade_prefixes. now left.
Qed.

Lemma normalize_grade_length (text : str) :
  (length text <= length (normalize_grade u text))%nat.
Proof.
  unfold normalize_grade, Re.sub.
  pose proof (pass_length u _ _ two_letter_pass text None 0) as H1.
  pose proof (pass_length u _ _ one_letter_pass
                (Re.sub_scan (is_word u) (two_letter_grade u) hyphenate None text 0)
                None 0) as H2.
  cbn [skipn] in H1, H2. lia.
Qed.

(** C5, amended: wherever a recognized prefix and one digit stand in a
    text as a word of their own, [normalize_grade] puts a hyphen
    between the two, and what stands before and after is normalized on
    its own; a text is returned as it is exactly when no prefix with
    one digit stands alone in it; P4 ANALYST yields the token P-4 and
    PA4 no token. *)
Theorem normalize_grade_hyphenates_every_grade_standing_alone :
  (forall pre p d post,
     In p GRADE_PREFIXES -> is_decimal u d = true ->
     ends_in_word u pre = false -> starts_with_word u post = false ->
     normalize_grade u (pre ++ p ++ [d] ++ post) =
     normalize_grade u pre ++ p ++ lit "-" ++ [d] ++ normalize_grade u post) /\
  (forall text, normalize_grade u text = text <-> ~ standalone_grade u text) /\
  normalize_grade u (lit "P4 ANALYST") = lit "P-4 ANALYST" /\
  In (lit "P-4") (extract_grades u (normalize_grade u (lit "P4 ANALYST"))) /\
  normalize_grade u (lit "PA4") = lit "PA4" /\
  extract_grades u (normalize_grade u (lit "PA4")) = [].
Proof.
  split; [exact normalize_grade_at_a_grade |]. split.
  - intros text. split; [| apply normalize_grade_without_a_grade].
    intros E [pre [p [d [post [-> [Hp [Hd [Hpre Hpost]]]]]]]].
    rewrite (normalize_grade_at_a_grade pre p d post Hp Hd Hpre Hpost) in E.
    apply (f_equal (@length Z)) in E. rewrite !length_app in E.
    pose proof (normalize_grade_length pre). pose proof (normalize_grade_length post).
    simpl in E. lia.
  - rewrite !(normalize_grade_latin1 u laws) by reflexivity.
    rewrite !(extract_grades_latin1 u laws) by reflexivity.
    repeat split; vm_compute; tauto.
Qed.

End EveryGrade.

Lemma normalize_grade_hyphenates_every_grade_standing_alone_witness :
  normalize_grade latin1 (lit "GS6 OR GS7, P4") = lit "GS-6 OR GS-7, P-4" /\
  ~ standalone_grade latin1 (lit "GS10").
Proof.
  destruct (normalize_grade_hyphenates_every_grade_standing_alone latin1 latin1_laws)
    as [A [B _]].
  split.
  - change (lit "GS6 OR GS7, P4")
      with (lit "GS6 OR " ++ lit "GS" ++ [0x37] ++ lit ", P4").
    rewrite A; [| simpl; tauto | reflexivity | reflexivity | reflexivity].
    change (lit "GS6 OR ") with ([] ++ lit "GS" ++ [0x36] ++ lit " OR ").
    rewrite A; [| simpl; tauto | reflexivity | reflexivity | reflexivity].
    change (lit ", P4") with (lit ", " ++ lit "P" ++ [0x34] ++ []).
    rewrite A; [| simpl; tauto | reflexivity | reflexivity | reflexivity].
    reflexivity.
  - apply B. reflexivity.
Defined.
